(** * Repository Planning Graph: a shallow embedding of the graph substrate,
    artifact grounding, the encoder's entity ids and the query tools.

    Data as the TypeScript code has it: strings are [string], JS objects
    used as records are Rocq records (an optional property is an [option]),
    graphology's node and edge tables (insertion ordered maps) are
    association lists in insertion order, a JS [Set<string>] is a duplicate
    free list in insertion order, and a JS [Map] is an association list.
    Methods that mutate [this] and may throw are functions of a small
    state-and-exception monad [M]. *)

From Stdlib Require Import String Ascii List Bool ZArith Lia.
From Stdlib Require Import Permutation Sorted.
From Stdlib Require Import Numbers.DecimalString.
Import ListNotations.
Open Scope string_scope.

(* ================================================================== *)
(** ** Generic helpers *)

(** The double-quote character, used in error messages. *)
Definition dq : string := String "034"%char EmptyString.

(** Lookup in an association list (a JS [Map] or a graphology table). *)
Fixpoint assoc {A : Type} (k : string) (l : list (string * A)) : option A :=
  match l with
  | [] => None
  | (k', v) :: l' => if String.eqb k k' then Some v else assoc k l'
  end.

(** [Map.prototype.set]: replace the value in place when the key exists,
    append the entry otherwise. *)
Fixpoint map_set {A : Type} (k : string) (v : A) (l : list (string * A))
  : list (string * A) :=
  match l with
  | [] => [(k, v)]
  | (k', v') :: l' =>
      if String.eqb k k' then (k', v) :: l' else (k', v') :: map_set k v l'
  end.

(** [Set.prototype.add] on a set of strings kept in insertion order. *)
Definition set_add (x : string) (s : list string) : list string :=
  if existsb (String.eqb x) s then s else (s ++ [x])%list.

(** [String(n)] for an integer [n]. *)
Definition string_of_Z (z : Z) : string := NilEmpty.string_of_int (Z.to_int z).

(* ================================================================== *)
(** ** Outcomes and the state-and-exception monad *)

Inductive outcome (A : Type) : Type :=
| Ok : A -> outcome A
| Throw : string -> outcome A.
Arguments Ok {A} _.
Arguments Throw {A} _.

(* ================================================================== *)
(** ** Nodes (src/graph/node.ts is not part of the sources; the shapes
    below follow the uses in rpg.ts, grounding.ts and encoder.ts) *)

(** A JSON value stored in the open [metadata.extra] bag. *)
Inductive jvalue : Type :=
| JStr (s : string)
| JNum (z : Z)
| JBool (b : bool)
| JStrs (l : list string).

Record SemanticFeature := mkFeature {
  description : string;
  keywords : option (list string);
  subFeatures : option (list string)
}.

Record StructuralMetadata := mkMeta {
  entityType : option string;
  path : option string;
  qualifiedName : option string;
  language : option string;
  startLine : option Z;
  endLine : option Z;
  extra : option (list (string * jvalue))
}.

Inductive NodeType := HighLevel | LowLevel.

Record Node := mkNode {
  id : string;
  type : NodeType;
  feature : SemanticFeature;
  metadata : option StructuralMetadata;
  directoryPath : option string;
  sourceCode : option string
}.

Definition isHighLevelNode (n : Node) : bool :=
  match type n with HighLevel => true | LowLevel => false end.

Definition isLowLevelNode (n : Node) : bool :=
  match type n with LowLevel => true | HighLevel => false end.

(** [Partial<Node>]: a property is either absent ([None]) or given. *)
Record NodeUpdate := mkUpdate {
  u_id : option string;
  u_type : option NodeType;
  u_feature : option SemanticFeature;
  u_metadata : option StructuralMetadata;
  u_directoryPath : option string;
  u_sourceCode : option string
}.

Definition no_update : NodeUpdate := mkUpdate None None None None None None.

(** graphology's [mergeNodeAttributes(key, updates)], i.e.
    [Object.assign(attributes, updates)]: every top-level property present
    in [updates] overwrites the stored one, the others are kept. *)
Definition mergeNodeAttributes (n : Node) (u : NodeUpdate) : Node :=
  {| id := match u_id u with Some x => x | None => id n end;
     type := match u_type u with Some x => x | None => type n end;
     feature := match u_feature u with Some x => x | None => feature n end;
     metadata := match u_metadata u with Some x => Some x | None => metadata n end;
     directoryPath := match u_directoryPath u with
                      | Some x => Some x | None => directoryPath n end;
     sourceCode := match u_sourceCode u with
                   | Some x => Some x | None => sourceCode n end |}.

(* ================================================================== *)
(** ** Edges *)

Inductive EdgeType := Functional | Dependency.

(** Modelled from the spec: the string values of the [EdgeType] enum of
    src/graph/edge.ts (not part of the sources), "functional" and
    "dependency" as the spec's edge-type names read. *)
Definition EdgeType_str (t : EdgeType) : string :=
  match t with Functional => "functional" | Dependency => "dependency" end.

Definition EdgeType_eqb (a b : EdgeType) : bool :=
  match a, b with
  | Functional, Functional | Dependency, Dependency => true
  | _, _ => false
  end.

Inductive DependencyType := Import | Call | Inherit | Implement | Use.

Record Edge := mkEdge {
  source : string;
  target : string;
  etype : EdgeType;
  level : option Z;
  siblingOrder : option Z;
  dependencyType : option DependencyType;
  isRuntime : option bool;
  line : option Z
}.

(** Modelled from the spec: [createFunctionalEdge] of src/graph/edge.ts
    (not part of the sources) builds a Functional edge with the given
    endpoints, optional level and sibling ordinal. *)
Definition createFunctionalEdge (src tgt : string) (lvl sib : option Z) : Edge :=
  mkEdge src tgt Functional lvl sib None None None.

(* ================================================================== *)
(** ** The graph: a graphology [Graph({ multi: true, type: 'directed' })] *)

Record RPG := mkRPG {
  g_nodes : list (string * Node);   (* node key -> attributes, insertion order *)
  g_edges : list (string * Edge)    (* edge key -> attributes, insertion order *)
}.

Definition emptyRPG : RPG := mkRPG [] [].

(** Stateful methods of [RepositoryPlanningGraph]: the graph before the
    call, the outcome and the graph after it. *)
Definition M (A : Type) : Type := RPG -> outcome A * RPG.

Definition ret {A} (a : A) : M A := fun g => (Ok a, g).
Definition throw {A} (msg : string) : M A := fun g => (Throw msg, g).
Definition bind {A B} (m : M A) (k : A -> M B) : M B :=
  fun g => match m g with
           | (Ok a, g') => k a g'
           | (Throw e, g') => (Throw e, g')
           end.
Definition gets {A} (f : RPG -> A) : M A := fun g => (Ok (f g), g).
Definition put (g : RPG) : M unit := fun _ => (Ok tt, g).

Notation "x <- m ;; k" := (bind m (fun x => k))
  (at level 61, m at next level, right associativity).
Notation "m ;;; k" := (bind m (fun _ => k))
  (at level 61, right associativity).

Definition hasNode (g : RPG) (nid : string) : bool :=
  match assoc nid (g_nodes g) with Some _ => true | None => false end.

Definition hasEdgeKey (g : RPG) (k : string) : bool :=
  match assoc k (g_edges g) with Some _ => true | None => false end.

(** [addNode(node)] *)
Definition addNode (n : Node) : M unit :=
  fun g =>
    if hasNode g (id n)
    then (Throw ("Node with id " ++ dq ++ id n ++ dq ++ " already exists"), g)
    else (Ok tt, mkRPG (g_nodes g ++ [(id n, n)])%list (g_edges g)).

(** [getNode(id)] *)
Definition getNode (g : RPG) (nid : string) : option Node := assoc nid (g_nodes g).

Definition not_found_msg (nid : string) : string :=
  "Node with id " ++ dq ++ nid ++ dq ++ " not found".

(** [updateNode(id, updates)] *)
Definition updateNode (nid : string) (u : NodeUpdate) : M unit :=
  fun g =>
    if hasNode g nid
    then (Ok tt,
          mkRPG (map (fun kv => if String.eqb (fst kv) nid
                                then (fst kv, mergeNodeAttributes (snd kv) u)
                                else kv) (g_nodes g))
                (g_edges g))
    else (Throw (not_found_msg nid), g).

(** [removeNode(id)]: graphology's [dropNode] removes the node and every
    edge attached to it. *)
Definition removeNode (nid : string) : M unit :=
  fun g =>
    if hasNode g nid
    then (Ok tt,
          mkRPG (filter (fun kv => negb (String.eqb (fst kv) nid)) (g_nodes g))
                (filter (fun kv => negb (String.eqb (source (snd kv)) nid
                                         || String.eqb (target (snd kv)) nid))
                        (g_edges g)))
    else (Throw (not_found_msg nid), g).

(** [getNodes()], [getHighLevelNodes()], [getLowLevelNodes()] *)
Definition getNodes (g : RPG) : list Node := map snd (g_nodes g).
Definition getHighLevelNodes (g : RPG) : list Node := filter isHighLevelNode (getNodes g).
Definition getLowLevelNodes (g : RPG) : list Node := filter isLowLevelNode (getNodes g).

(** The key under which [addEdge] stores an edge. *)
Definition edgeKey (e : Edge) : string :=
  source e ++ "->" ++ target e ++ ":" ++ EdgeType_str (etype e).

(** [addEdge(edge)], including graphology's [addEdgeWithKey], which throws
    when the key is already used. *)
Definition addEdge (e : Edge) : M unit :=
  fun g =>
    if negb (hasNode g (source e))
    then (Throw ("Source node " ++ dq ++ source e ++ dq ++ " not found"), g)
    else if negb (hasNode g (target e))
    then (Throw ("Target node " ++ dq ++ target e ++ dq ++ " not found"), g)
    else if hasEdgeKey g (edgeKey e)
    then (Throw ("Graph.addEdgeWithKey: the " ++ dq ++ edgeKey e ++ dq
                 ++ " edge already exists in the graph."), g)
    else (Ok tt, mkRPG (g_nodes g) (g_edges g ++ [(edgeKey e, e)])%list).

(** [addFunctionalEdge(params)] *)
Definition addFunctionalEdge (src tgt : string) (lvl sib : option Z) : M Edge :=
  let e := createFunctionalEdge src tgt lvl sib in
  addEdge e ;;; ret e.

(** [getEdges()] *)
Definition getEdges (g : RPG) : list Edge := map snd (g_edges g).

Definition filter_type (et : option EdgeType) (es : list Edge) : list Edge :=
  match et with
  | Some t => filter (fun e => EdgeType_eqb (etype e) t) es
  | None => es
  end.

(** [getOutEdges(nodeId, edgeType?)]. The edges leaving a node are listed
    in the order they were added to the graph; graphology's [mapOutEdges]
    lists them by neighbour instead, so only the elements of this list (as a
    multiset) follow the source, not their order. *)
Definition getOutEdges (g : RPG) (nid : string) (et : option EdgeType) : list Edge :=
  if negb (hasNode g nid) then []
  else filter_type et (filter (fun e => String.eqb (source e) nid) (getEdges g)).

(** [getInEdges(nodeId, edgeType?)]; as for [getOutEdges], the elements
    follow the source, their order does not. *)
Definition getInEdges (g : RPG) (nid : string) (et : option EdgeType) : list Edge :=
  if negb (hasNode g nid) then []
  else filter_type et (filter (fun e => String.eqb (target e) nid) (getEdges g)).

(** [edges.map(e => this.getNode(f e)).filter(n => n !== undefined)] *)
Definition nodes_at (g : RPG) (f : Edge -> string) (es : list Edge) : list Node :=
  flat_map (fun e => match getNode g (f e) with Some n => [n] | None => [] end) es.

(** [getChildren(nodeId)] *)
Definition getChildren (g : RPG) (nid : string) : list Node :=
  nodes_at g target (getOutEdges g nid (Some Functional)).

(** [getParent(nodeId)] *)
Definition getParent (g : RPG) (nid : string) : option Node :=
  match getInEdges g nid (Some Functional) with
  | e :: _ => getNode g (source e)
  | [] => None
  end.

(** [getDependencies(nodeId)] *)
Definition getDependencies (g : RPG) (nid : string) : list Node :=
  nodes_at g target (getOutEdges g nid (Some Dependency)).

(** [getDependents(nodeId)] *)
Definition getDependents (g : RPG) (nid : string) : list Node :=
  nodes_at g source (getInEdges g nid (Some Dependency)).

(** Number of edges stored under key [k]. *)
Definition count_key (k : string) (g : RPG) : nat :=
  length (filter (fun kv => String.eqb k (fst kv)) (g_edges g)).

(* ================================================================== *)
(** ** Small concrete graphs *)

Definition hl_node (nid : string) : Node :=
  mkNode nid HighLevel (mkFeature nid None None) None None None.

Definition ll_node (nid p : string) : Node :=
  mkNode nid LowLevel (mkFeature nid None None)
         (Some (mkMeta (Some "file") (Some p) None None None None None)) None None.

(** Run a sequence of writes from the empty graph. *)
Fixpoint run_all (ops : list (M unit)) : M unit :=
  match ops with
  | [] => ret tt
  | op :: ops' => op ;;; run_all ops'
  end.

Definition build (ops : list (M unit)) : RPG := snd (run_all ops emptyRPG).

Definition g_abc : RPG :=
  build [addNode (hl_node "a"); addNode (hl_node "b"); addNode (hl_node "c")].

Definition fedge (s t : string) : M unit := addFunctionalEdge s t None None ;;; ret tt.

(* ================================================================== *)
(** ** Encoder: low-level entity ids (src/encoder/encoder.ts) *)

(** [CodeEntity] of src/utils/ast.ts (the fields the ids use). *)
Inductive CodeEntityKind := CE_function | CE_class | CE_method | CE_variable | CE_import.

Definition CodeEntityKind_str (k : CodeEntityKind) : string :=
  match k with
  | CE_function => "function" | CE_class => "class" | CE_method => "method"
  | CE_variable => "variable" | CE_import => "import"
  end.

Record CodeEntity := mkCodeEntity {
  ce_type : CodeEntityKind;
  ce_name : string;
  ce_startLine : Z;
  ce_endLine : Z
}.

(** [ExtractedEntity], without the semantic feature (produced by the
    semantic extractor, it plays no part in the ids). *)
Record ExtractedEntity := mkExtracted {
  ee_id : string;
  ee_entityType : string;
  ee_path : string;
  ee_startLine : option Z;
  ee_endLine : option Z
}.

(** JS truthiness of a string. *)
Definition truthy (s : string) : bool :=
  match s with EmptyString => false | _ => true end.

(** [generateEntityId(filePath, entityType, entityName?, startLine?)] *)
Definition generateEntityId (filePath entityType : string)
  (entityName : option string) (startLine : option Z) : string :=
  let parts := [filePath; entityType] in
  let parts := match entityName with
               | Some nm => if truthy nm then (parts ++ [nm])%list else parts
               | None => parts
               end in
  let parts := match startLine with
               | Some l => (parts ++ [string_of_Z l])%list
               | None => parts
               end in
  String.concat ":" parts.

(** [mapEntityType(type)] *)
Definition mapEntityType (k : CodeEntityKind) : option string :=
  match k with
  | CE_function => Some "function"
  | CE_class => Some "class"
  | CE_method => Some "method"
  | _ => None
  end.

(** [convertCodeEntity(entity, filePath, entityId, ...)] *)
Definition convertCodeEntity (e : CodeEntity) (filePath entityId : string)
  : option ExtractedEntity :=
  match mapEntityType (ce_type e) with
  | None => None
  | Some et => Some (mkExtracted entityId et filePath
                                 (Some (ce_startLine e)) (Some (ce_endLine e)))
  end.

(** [extractEntities(file)] once the file has been parsed into
    [parseResult.entities]; [relativePath] is [path.relative(repoPath, file)]. *)
Definition extractEntities (relativePath : string) (parsed : list CodeEntity)
  : list ExtractedEntity :=
  mkExtracted (generateEntityId relativePath "file" None None) "file" relativePath None None
  :: flat_map (fun e =>
                 let entityId := generateEntityId relativePath
                                   (CodeEntityKind_str (ce_type e))
                                   (Some (ce_name e)) (Some (ce_startLine e)) in
                 match convertCodeEntity e relativePath entityId with
                 | Some x => [x]
                 | None => []
                 end) parsed.

(** The node [encode()] adds for an extracted entity:
    [rpg.addLowLevelNode({ id: entity.id, feature, metadata })]. *)
Definition lowLevelNodeOf (feat : SemanticFeature) (e : ExtractedEntity) : Node :=
  mkNode (ee_id e) LowLevel feat
         (Some (mkMeta (Some (ee_entityType e)) (Some (ee_path e)) None None
                       (ee_startLine e) (ee_endLine e) None)) None None.

(** Phase 1 of [encode()] for one file. *)
Definition encodeFile (feat : SemanticFeature) (relativePath : string)
  (parsed : list CodeEntity) : M unit :=
  run_all (map (fun e => addNode (lowLevelNodeOf feat e))
               (extractEntities relativePath parsed)).

(* ================================================================== *)
(** ** ExploreRPG.traverse (src/tools/explore.ts) *)

Inductive ExploreEdgeType := EE_functional | EE_dependency | EE_both.
Inductive Direction := D_out | D_in | D_both.

Record ExploreOptions := mkExploreOptions {
  startNode : string;
  edgeType : ExploreEdgeType;
  maxDepth : option Z;
  direction : option Direction
}.

Record ExploreResult := mkExploreResult {
  r_nodes : list Node;
  r_edges : list (string * string * string);
  r_maxDepthReached : Z
}.

(** [getEdgeTypes()] *)
Definition getEdgeTypes (et : ExploreEdgeType) : list EdgeType :=
  match et with
  | EE_both => [Functional; Dependency]
  | EE_functional => [Functional]
  | EE_dependency => [Dependency]
  end.

Definition goes_out (d : Direction) : bool :=
  match d with D_out | D_both => true | D_in => false end.
Definition goes_in (d : Direction) : bool :=
  match d with D_in | D_both => true | D_out => false end.

(** The local state of [traverse]: the [visited] set, the [nodes] and
    [edges] arrays and [maxDepthReached].  [trace] is ghost state, not in
    the source: it records the [(nodeId, depth)] pair of every
    [nodes.push(node)], so that statements can speak of the depth at which
    each node was reached. *)
Record TState := mkTState {
  visited : list string;
  t_nodes : list Node;
  t_edges : list (string * string * string);
  t_maxDepthReached : Z;
  trace : list (string * Z)
}.

Definition init_state : TState := mkTState [] [] [] 0 [].

Definition visit (nid : string) (st : TState) : TState :=
  mkTState (set_add nid (visited st)) (t_nodes st) (t_edges st)
           (t_maxDepthReached st) (trace st).

Definition push_node (nid : string) (n : Node) (depth : Z) (st : TState) : TState :=
  mkTState (visited st) (t_nodes st ++ [n])%list (t_edges st)
           (Z.max (t_maxDepthReached st) depth) (trace st ++ [(nid, depth)])%list.

Definition push_edge (e : Edge) (st : TState) : TState :=
  mkTState (visited st) (t_nodes st)
           (t_edges st ++ [(source e, target e, EdgeType_str (etype e))])%list
           (t_maxDepthReached st) (trace st).

Section Explore.
Variables (g : RPG) (et : ExploreEdgeType) (dir : Direction) (maxD : Z).

(** The inner [explore(nodeId, depth)].  The recursion is on [k], a
    bound on the remaining depth: [explore_fuel] below gives enough of it
    for the [depth > maxDepth] test to stop every branch first. *)
Fixpoint explore (k : nat) (nid : string) (depth : Z) (st : TState) {struct k}
  : TState :=
  match k with
  | O => st
  | S k' =>
      if (maxD <? depth)%Z || existsb (String.eqb nid) (visited st) then st else
      let st := visit nid st in
      match getNode g nid with
      | None => st
      | Some node =>
          let st := push_node nid node depth st in
          fold_left
            (fun st t =>
               let st :=
                 if goes_out dir
                 then fold_left (fun st e => explore k' (target e) (depth + 1)%Z (push_edge e st))
                                (getOutEdges g nid (Some t)) st
                 else st in
               if goes_in dir
               then fold_left (fun st e => explore k' (source e) (depth + 1)%Z (push_edge e st))
                              (getInEdges g nid (Some t)) st
               else st)
            (getEdgeTypes et) st
      end
  end.

(** One traversal step from [u] to [v]: along an edge that [explore]
    follows out of [u]. *)
Definition tstep (u v : string) : Prop :=
  exists t e, In t (getEdgeTypes et) /\
    ((goes_out dir = true /\ In e (getOutEdges g u (Some t)) /\ v = target e) \/
     (goes_in dir = true /\ In e (getInEdges g u (Some t)) /\ v = source e)).

(** [walk u v n]: [v] is reached from [u] in [n] traversal steps. *)
Inductive walk (u : string) : string -> nat -> Prop :=
| walk_refl : walk u u 0
| walk_step v w n : walk u v n -> tstep v w -> walk u w (S n).
End Explore.

Definition explore_fuel (maxD : Z) : nat := Z.to_nat (maxD + 1)%Z.

Definition opt_maxDepth (o : ExploreOptions) : Z :=
  match maxDepth o with Some d => d | None => 3%Z end.
Definition opt_direction (o : ExploreOptions) : Direction :=
  match direction o with Some d => d | None => D_out end.

(** The final state of [traverse(options)]. *)
Definition traverse_state (g : RPG) (o : ExploreOptions) : TState :=
  explore g (edgeType o) (opt_direction o) (opt_maxDepth o)
          (explore_fuel (opt_maxDepth o)) (startNode o) 0 init_state.

(** [traverse(options)] *)
Definition traverse (g : RPG) (o : ExploreOptions) : ExploreResult :=
  let st := traverse_state g o in
  mkExploreResult (t_nodes st) (t_edges st) (t_maxDepthReached st).

Definition option_list {A} (o : option A) : list A :=
  match o with Some x => [x] | None => [] end.

(* ================================================================== *)
(** ** Search (rpg.ts searchByFeature / searchByPath, src/tools/search.ts) *)

(** [String.prototype.toLowerCase] on code units below 256: A-Z and the
    Latin-1 capitals (U+00C0 to U+00DE except U+00D7) map 32 code points
    up, every other unit is kept. *)
Definition lower_char (c : ascii) : ascii :=
  let n := nat_of_ascii c in
  if ((65 <=? n)%nat && (n <=? 90)%nat) || ((192 <=? n)%nat && (n <=? 222)%nat && negb (n =? 215)%nat)
  then ascii_of_nat (n + 32)%nat else c.

Fixpoint toLowerCase (s : string) : string :=
  match s with
  | EmptyString => EmptyString
  | String c s' => String (lower_char c) (toLowerCase s')
  end.

(** [hay.includes(needle)] *)
Fixpoint includes (needle hay : string) : bool :=
  String.prefix needle hay ||
  match hay with
  | EmptyString => false
  | String _ hay' => includes needle hay'
  end.

(** [searchByFeature(query)] *)
Definition searchByFeature (g : RPG) (query : string) : list Node :=
  let queryLower := toLowerCase query in
  filter (fun node =>
            let desc := toLowerCase (description (feature node)) in
            let kws := map toLowerCase (match keywords (feature node) with
                                        | Some l => l | None => [] end) in
            let subs := map toLowerCase (match subFeatures (feature node) with
                                         | Some l => l | None => [] end) in
            includes queryLower desc || existsb (includes queryLower) kws
            || existsb (includes queryLower) subs)
         (getNodes g).

(** The regular expression [new RegExp(pattern.replace(/\*/g, '.*'))]: a
    literal code unit, [.] (one unit other than a line terminator), and
    [.*] (what each [*] of the pattern becomes). *)
Inductive rtok := RLit (c : ascii) | RAny | RAnyStar.

Definition regex_meta (c : ascii) : bool :=
  existsb (Ascii.eqb c) ["\"; "^"; "$"; "+"; "?"; "("; ")"; "["; "]"; "{"; "}"; "|"]%char.

(** The pattern as a regular expression.  [None]: the pattern holds other
    regular-expression syntax, which this model does not cover. *)
Fixpoint compile_pattern (p : string) : option (list rtok) :=
  match p with
  | EmptyString => Some []
  | String c p' =>
      if regex_meta c then None else
      match compile_pattern p' with
      | None => None
      | Some t =>
          Some ((if Ascii.eqb c "*" then RAnyStar
                 else if Ascii.eqb c "." then RAny else RLit c) :: t)
      end
  end.

Definition line_terminator (c : ascii) : bool :=
  Ascii.eqb c "010"%char || Ascii.eqb c "013"%char.

(** A match of the tokens starting at the beginning of [s]. *)
Fixpoint match_here (t : list rtok) (s : string) {struct t} : bool :=
  match t with
  | [] => true
  | RLit c :: t' =>
      match s with
      | String c' s' => Ascii.eqb c c' && match_here t' s'
      | EmptyString => false
      end
  | RAny :: t' =>
      match s with
      | String c' s' => negb (line_terminator c') && match_here t' s'
      | EmptyString => false
      end
  | RAnyStar :: t' =>
      (fix star (s : string) : bool :=
         match_here t' s ||
         match s with
         | String c' s' => negb (line_terminator c') && star s'
         | EmptyString => false
         end) s
  end.

(** [regex.test(s)]: a match starting anywhere. *)
Fixpoint regex_test (t : list rtok) (s : string) : bool :=
  match_here t s ||
  match s with
  | String _ s' => regex_test t s'
  | EmptyString => false
  end.

(** [searchByPath(pattern)] *)
Definition searchByPath (g : RPG) (pattern : string) : option (list Node) :=
  match compile_pattern pattern with
  | None => None
  | Some t =>
      Some (filter (fun node =>
                      match metadata node with
                      | Some m => match path m with
                                  | Some p => truthy p && regex_test t p
                                  | None => false
                                  end
                      | None => false
                      end)
                   (getLowLevelNodes g))
  end.

Inductive SearchMode := SM_features | SM_snippets | SM_auto.

Record SearchOptions := mkSearchOptions {
  mode : SearchMode;
  featureTerms : option (list string);
  filePattern : option string
}.

Record SearchResult := mkSearchResult {
  sr_nodes : list Node;
  totalMatches : nat;
  sr_mode : SearchMode
}.

Definition runs_features (m : SearchMode) : bool :=
  match m with SM_features | SM_auto => true | SM_snippets => false end.
Definition runs_snippets (m : SearchMode) : bool :=
  match m with SM_snippets | SM_auto => true | SM_features => false end.

(** [Array.from(new Map(results.map(n => [n.id, n])).values())] *)
Definition dedupe_by_id (results : list Node) : list Node :=
  map snd (fold_left (fun m n => map_set (id n) n m) results []).

(** [SearchNode.query(options)]; [None] when the file pattern is outside
    the modelled regular expressions. *)
Definition query (g : RPG) (o : SearchOptions) : option SearchResult :=
  let r1 := if runs_features (mode o)
            then match featureTerms o with
                 | Some ts => flat_map (searchByFeature g) ts
                 | None => []
                 end
            else [] in
  let r2 := if runs_snippets (mode o)
            then match filePattern o with
                 | Some p => if truthy p then searchByPath g p else Some []
                 | None => Some []
                 end
            else Some [] in
  match r2 with
  | None => None
  | Some r2 =>
      let uniqueNodes := dedupe_by_id (r1 ++ r2)%list in
      Some (mkSearchResult uniqueNodes (length uniqueNodes) (mode o))
  end.

(* ------------------------------------------------------------------ *)
(** ** Artifact grounding: the path trie and [computeLCA] *)

(** [s.split('/')]: the pieces between the slashes, empty ones included. *)
Fixpoint split_slash (s : string) : list string :=
  match s with
  | EmptyString => [EmptyString]
  | String c s' =>
      if Ascii.eqb c "/"%char then EmptyString :: split_slash s'
      else match split_slash s' with
           | h :: t => String c h :: t
           | [] => [String c EmptyString]
           end
  end.

(** [dirPath.split('/').filter(s => s.length > 0)] *)
Definition segments (dirPath : string) : list string :=
  filter (fun s => negb (String.eqb s EmptyString)) (split_slash dirPath).

(** [pathSegments.join('/')] *)
Definition join (segs : list string) : string := String.concat "/" segs.

Local Set Warnings "-register-all".

(** A trie node: its [children] map in insertion order, and [isTerminal]. *)
Inductive TrieNode : Type :=
| TNode (children : list (string * TrieNode)) (isTerminal : bool).

Definition new_TrieNode : TrieNode := TNode [] false.

Definition t_children (t : TrieNode) : list (string * TrieNode) :=
  match t with TNode ch _ => ch end.

Definition t_isTerminal (t : TrieNode) : bool :=
  match t with TNode _ b => b end.

(** [isBranching]: [children.size > 1]. *)
Definition isBranching (t : TrieNode) : bool := (1 <? length (t_children t))%nat.

(** The loop of [PathTrie.insert] below [current]: a missing child is
    created (appended to the map), then the walk goes on inside it; the last
    node reached becomes terminal. *)
Fixpoint trie_insert (segs : list string) (t : TrieNode) : TrieNode :=
  match t with
  | TNode ch term =>
      match segs with
      | [] => TNode ch true
      | s :: rest =>
          let child := match assoc s ch with
                       | Some c => c
                       | None => new_TrieNode
                       end in
          TNode (map_set s (trie_insert rest child) ch) term
      end
  end.

Definition PathTrie_insert (dirPath : string) (root : TrieNode) : TrieNode :=
  trie_insert (segments dirPath) root.

(** [results.splice] of every entry starting with [prefix], kept order. *)
Definition prune (prefix : string) (results : list string) : list string :=
  filter (fun r => negb (String.prefix prefix r)) results.

(** [PathTrie.postOrder], returning the new [results]. The mutations
    [node.children.clear()] and [node.isTerminal = true] at the end of a
    visit are not modelled: the node is never read again afterwards (its
    parent only reads its own [children.size] and [isTerminal]). *)
Fixpoint postOrder (t : TrieNode) (pathSegments : list string)
    (results : list string) : list string :=
  match t with
  | TNode ch term =>
      let results :=
        fold_left (fun r sc => postOrder (snd sc) (pathSegments ++ [fst sc]) r)
          ch results in
      match pathSegments with
      | [] => results
      | _ :: _ =>
          if (1 <? length ch)%nat || term then
            let currentPath := join pathSegments in
            prune (currentPath ++ "/") results ++ [currentPath]
          else results
      end
  end.

Definition PathTrie_computeLCA (root : TrieNode) : list string :=
  postOrder root [] [].

(** [computeLCA(dirPaths)]; the [Set] is given by its elements in
    insertion order. *)
Definition computeLCA (dirPaths : list string) : list string :=
  match dirPaths with
  | [] => []
  | [d] => [d]
  | _ =>
      PathTrie_computeLCA
        (fold_left (fun t d => PathTrie_insert d t) dirPaths new_TrieNode)
  end.

(** Notions used to state and prove the properties of [computeLCA]. *)
Fixpoint slash_free (s : string) : bool :=
  match s with
  | EmptyString => true
  | String c s' => negb (Ascii.eqb c "/"%char) && slash_free s'
  end.

Definition valid_seg (s : string) : Prop := s <> EmptyString /\ slash_free s = true.

(** A trie whose maps have distinct keys, all of them non-empty and free of
    ['/'] (what [PathTrie.insert] produces). *)
Inductive wf_trie : TrieNode -> Prop :=
| wf_node ch b :
    NoDup (map fst ch) ->
    Forall (fun sc => valid_seg (fst sc) /\ wf_trie (snd sc)) ch ->
    wf_trie (TNode ch b).

(** The node reached from [t] along the segments [q]. *)
Fixpoint lookup (t : TrieNode) (q : list string) : option TrieNode :=
  match q with
  | [] => Some t
  | s :: q' => match assoc s (t_children t) with
               | Some c => lookup c q'
               | None => None
               end
  end.

Definition marked (t : TrieNode) : bool := isBranching t || t_isTerminal t.

(** The paths the post-order traversal keeps: the topmost non-root marked
    nodes, children visited in map order. *)
Fixpoint lca_of (t : TrieNode) (p : list string) : list string :=
  match t with
  | TNode ch b =>
      let below := flat_map (fun sc => lca_of (snd sc) (p ++ [fst sc])%list) ch in
      match p with
      | [] => below
      | _ :: _ => if (1 <? length ch)%nat || b then [join p] else below
      end
  end.

Definition build_trie (D : list string) : TrieNode :=
  fold_left (fun t d => PathTrie_insert d t) D new_TrieNode.

(** [x] is a strict prefix of [y] by ['/']-segments. *)
Definition seg_strict_prefix (x y : string) : Prop :=
  exists r, r <> [] /\ segments y = (segments x ++ r)%list.

(** [q] leads to a terminal node of [t]. *)
Definition term_at (t : TrieNode) (q : list string) : Prop :=
  exists sub, lookup t q = Some sub /\ t_isTerminal sub = true.

(** Two tries with the same node paths and the same terminal paths. *)
Definition trie_equiv (t t' : TrieNode) : Prop :=
  forall q, (lookup t q <> None <-> lookup t' q <> None) /\
            (term_at t q <-> term_at t' q).

(* ------------------------------------------------------------------ *)
(** ** Artifact grounding: [ArtifactGrounder] *)

Definition is_slash (c : option ascii) : bool :=
  match c with Some c => Ascii.eqb c "/"%char | None => false end.

(** The backward scan of Node's POSIX [path.dirname]: from index [i] down
    to 1, the first ['/'] seen after a non-separator. *)
Fixpoint dirname_scan (s : string) (i : nat) (matchedSlash : bool) : option nat :=
  match i with
  | O => None
  | S j =>
      if is_slash (String.get i s) then
        if matchedSlash then dirname_scan s j matchedSlash else Some i
      else dirname_scan s j false
  end.

(** Node's [path.dirname] (POSIX). *)
Definition dirname (p : string) : string :=
  match p with
  | EmptyString => "."
  | _ =>
      let hasRoot := is_slash (String.get 0 p) in
      match dirname_scan p (String.length p - 1) true with
      | None => if hasRoot then "/" else "."
      | Some e_ => if hasRoot && (e_ =? 1)%nat then "//" else substring 0 e_ p
      end
  end.

(** [Array.prototype.sort()] with the default comparison (code units), as
    a stable insertion sort. *)
Fixpoint insert_sorted (x : string) (l : list string) : list string :=
  match l with
  | [] => [x]
  | y :: l' => if String.leb y x then y :: insert_sorted x l' else x :: l
  end.

Definition js_sort (l : list string) : list string :=
  fold_left (fun acc x => insert_sorted x acc) l [].

Definition meta_extra (m : option StructuralMetadata) : option (list (string * jvalue)) :=
  match m with Some m => extra m | None => None end.

(** [{ ...m, entityType: et, path: p }] with the [extra] property [ex]. *)
Definition spread_meta (m : option StructuralMetadata) (et p : string)
    (ex : option (list (string * jvalue))) : StructuralMetadata :=
  match m with
  | None => mkMeta (Some et) (Some p) None None None None ex
  | Some m => mkMeta (Some et) (Some p) (qualifiedName m) (language m)
                     (startLine m) (endLine m) ex
  end.

(** The metadata [propagate] writes for the LCA paths [lcaPaths], from the
    metadata [m] the node had when [propagate] read it; [None] = no write. *)
Definition ground_meta (m : option StructuralMetadata) (lcaPaths : list string)
  : option StructuralMetadata :=
  match lcaPaths with
  | [] => None
  | [p] => Some (spread_meta m "module" p (meta_extra m))
  | _ =>
      let sorted := js_sort lcaPaths in
      Some (spread_meta m "module" (hd "" sorted)
              (Some (map_set "paths" (JStrs sorted)
                       match meta_extra m with Some e => e | None => [] end)))
  end.

(** The directory a LowLevel node contributes: [path.dirname] of a truthy
    [metadata.path]. *)
Definition dir_of (n : Node) : list string :=
  match metadata n with
  | Some m => match path m with
              | Some p => if truthy p then [dirname p] else []
              | None => []
              end
  | None => []
  end.

Definition meta_update (m : StructuralMetadata) : NodeUpdate :=
  mkUpdate None None None (Some m) None None.

Definition stack_overflow : string := "RangeError: Maximum call stack size exceeded".

(** The loop of [propagate] over the children: [propagate(child.id)], then
    every returned directory added to [dirSet]. *)
Fixpoint propagate_children (rec : string -> M (list string)) (cs : list Node)
    (dirSet : list string) : M (list string) :=
  match cs with
  | [] => ret dirSet
  | c :: cs' =>
      childDirs <- rec (id c) ;;
      propagate_children rec cs' (fold_left (fun s d => set_add d s) childDirs dirSet)
  end.

(** [propagate(nodeId)], returning the [Set] of directories in insertion
    order. The recursion is bounded by [fuel]: running out of it marks a
    run that does not return (on a Functional cycle below the node the
    awaited recursion never settles); the results proved about [propagate]
    and [ground] are about runs that end normally. *)
Fixpoint propagate (fuel : nat) (nodeId : string) : M (list string) :=
  match fuel with
  | O => throw stack_overflow
  | S fuel' =>
      node <- gets (fun g => getNode g nodeId) ;;
      match node with
      | None => ret []
      | Some node =>
          if isLowLevelNode node then ret (dir_of node)
          else
            children <- gets (fun g => getChildren g nodeId) ;;
            dirSet <- propagate_children (propagate fuel') children [] ;;
            (if isHighLevelNode node && (0 <? length dirSet)%nat then
               match ground_meta (metadata node) (computeLCA dirSet) with
               | Some m => updateNode nodeId (meta_update m)
               | None => ret tt
               end
             else ret tt) ;;;
            ret dirSet
      end
  end.

(** Enough fuel for every acyclic hierarchy: a chain of recursive calls
    visits distinct nodes. *)
Definition ground_fuel (g : RPG) : nat := S (length (g_nodes g)).

(** [ground()]: [propagate] from every HighLevel node without a parent, in
    the order of [getHighLevelNodes()] taken at the start. *)
Fixpoint ground_loop (fuel : nat) (ns : list Node) : M unit :=
  match ns with
  | [] => ret tt
  | n :: ns' =>
      parent <- gets (fun g => getParent g (id n)) ;;
      (match parent with
       | None => propagate fuel (id n) ;;; ret tt
       | Some _ => ret tt
       end) ;;;
      ground_loop fuel ns'
  end.

Definition ground : M unit :=
  fun g => ground_loop (ground_fuel g) (getHighLevelNodes g) g.

(** Notions used to state what grounding does. *)

(** [g'] differs from [g] at most in the attributes of HighLevel nodes other
    than [id] and [type]: same keys in the same order, same edges. *)
Definition same_shape (kv kv' : string * Node) : Prop :=
  fst kv' = fst kv /\ id (snd kv') = id (snd kv) /\ type (snd kv') = type (snd kv) /\
  (isLowLevelNode (snd kv) = true -> snd kv' = snd kv).

Definition meta_only (g g' : RPG) : Prop :=
  g_edges g' = g_edges g /\ Forall2 same_shape (g_nodes g) (g_nodes g').

(** [w] is reached from [v] along Functional edges whose sources are
    HighLevel nodes (the nodes [propagate] recurses through). *)
Inductive hl_reach (g : RPG) : string -> string -> Prop :=
| hl_refl v : hl_reach g v v
| hl_step v c w :
    (exists n, getNode g v = Some n /\ isHighLevelNode n = true) ->
    In c (getChildren g v) -> hl_reach g (id c) w -> hl_reach g v w.

(** [d] is the directory of a LowLevel node reached from [v] that way. *)
Definition reach_dir (g : RPG) (v d : string) : Prop :=
  exists w n, hl_reach g v w /\ getNode g w = Some n /\
              isLowLevelNode n = true /\ In d (dir_of n).

Definition str_le (a b : string) : Prop := String.leb a b = true.

(** The graphs of the grounding tests: one HighLevel node over two files. *)
Definition g_cross : RPG :=
  build [addNode (hl_node "domain:CrossCutting");
         addNode (ll_node "src/utils/helper.ts:file" "src/utils/helper.ts");
         addNode (ll_node "tests/utils/helper.test.ts:file" "tests/utils/helper.test.ts");
         fedge "domain:CrossCutting" "src/utils/helper.ts:file";
         fedge "domain:CrossCutting" "tests/utils/helper.test.ts:file"].

Definition g_graph : RPG :=
  build [addNode (hl_node "domain:Graph");
         addNode (ll_node "src/graph/node.ts:file" "src/graph/node.ts");
         fedge "domain:Graph" "src/graph/node.ts:file"].

(** A HighLevel root [H] over a LowLevel node [F] that has a LowLevel child
    [E] (a leaf), and a LowLevel node [P] without a path over a leaf [Q]. *)
Definition g_deep : RPG :=
  build [addNode (hl_node "H");
         addNode (ll_node "F" "src/a.ts");
         addNode (ll_node "E" "lib/b.ts");
         fedge "H" "F"; fedge "F" "E";
         addNode (hl_node "K");
         addNode (mkNode "P" LowLevel (mkFeature "P" None None) None None None);
         addNode (ll_node "Q" "pkg/q.ts");
         fedge "K" "P"; fedge "P" "Q"].

(** The keys of a node table are pairwise distinct (graphology refuses a
    second node under a used key). *)
Fixpoint nodupb (l : list string) : bool :=
  match l with
  | [] => true
  | x :: l' => negb (existsb (String.eqb x) l') && nodupb l'
  end.

(** [n'] is [n] up to the attributes other than [id] and [type], and is
    [n] itself when [n] is a LowLevel node. *)
Definition node_rel (n n' : Node) : Prop :=
  id n' = id n /\ type n' = type n /\ (isLowLevelNode n = true -> n' = n).

(* ------------------------------------------------------------------ *)
(** ** The store's invariant and serialization (rpg.ts) *)

(** What the public writes keep: node keys distinct and equal to the
    node's [id], edge keys distinct and equal to [edgeKey], and both
    endpoints of every edge present. *)
Definition wf_store (g : RPG) : Prop :=
  NoDup (map fst (g_nodes g)) /\
  (forall k n, In (k, n) (g_nodes g) -> id n = k) /\
  NoDup (map fst (g_edges g)) /\
  (forall k e, In (k, e) (g_edges g) ->
     k = edgeKey e /\ hasNode g (source e) = true /\ hasNode g (target e) = true).

(** [SerializedRPG]; the [config] field is copied through unchanged by
    both directions and is left out of the graph model. *)
Record SerializedRPG := mkSerialized {
  s_version : string;
  s_nodes : list Node;
  s_edges : list Edge
}.

(** [serialize()] *)
Definition serialize (g : RPG) : SerializedRPG :=
  mkSerialized "1.0.0" (getNodes g) (getEdges g).

(** [RepositoryPlanningGraph.deserialize(data)]: a new graph, then
    [addNode] for every node and [addEdge] for every edge, in order. *)
Definition deserialize (d : SerializedRPG) : outcome unit * RPG :=
  run_all (map addNode (s_nodes d) ++ map addEdge (s_edges d))%list emptyRPG.

(** A decision procedure for [wf_store]. *)
Definition wf_storeb (g : RPG) : bool :=
  nodupb (map fst (g_nodes g)) &&
  forallb (fun kv => String.eqb (id (snd kv)) (fst kv)) (g_nodes g) &&
  nodupb (map fst (g_edges g)) &&
  forallb (fun kv => String.eqb (fst kv) (edgeKey (snd kv)) &&
                     hasNode g (source (snd kv)) && hasNode g (target (snd kv)))
          (g_edges g).


(* ------------------------------------------------------------------ *)
(** ** Dependency edges and the topological order (rpg.ts) *)

(** Modelled from the spec: [createDependencyEdge] of src/graph/edge.ts
    (not part of the sources) builds a Dependency edge with the given
    endpoints, dependency kind, and optional runtime flag and line. *)
Definition createDependencyEdge (src tgt : string) (dt : DependencyType)
    (rt : option bool) (ln : option Z) : Edge :=
  mkEdge src tgt Dependency None None (Some dt) rt ln.

(** [addDependencyEdge(params)] *)
Definition addDependencyEdge (src tgt : string) (dt : DependencyType)
    (rt : option bool) (ln : option Z) : M Edge :=
  let e := createDependencyEdge src tgt dt rt ln in
  addEdge e ;;; ret e.

(** The inner [visit] of [getTopologicalOrder()], on the pair
    ([visited], [result]).  [fuel] bounds the depth of the recursion;
    [None] stands for running out of it. *)
Fixpoint topo_visit (g : RPG) (fuel : nat) (nodeId : string)
    (st : list string * list Node) {struct fuel} : option (list string * list Node) :=
  match fuel with
  | O => None
  | S f =>
      let '(visited, result) := st in
      if existsb (String.eqb nodeId) visited then Some st
      else
        match fold_left (fun acc dep => match acc with
                                        | Some s => topo_visit g f (target dep) s
                                        | None => None
                                        end)
                        (getOutEdges g nodeId (Some Dependency))
                        (Some (set_add nodeId visited, result)) with
        | Some (visited', result') =>
            Some (visited', match getNode g nodeId with
                            | Some n => (result' ++ [n])%list
                            | None => result'
                            end)
        | None => None
        end
  end.

(** A recursion depth of one more than the number of nodes. *)
Definition topo_fuel (g : RPG) : nat := S (length (g_nodes g)).

(** [getTopologicalOrder()] *)
Definition getTopologicalOrder (g : RPG) : option (list Node) :=
  match fold_left (fun acc n => match acc with
                                | Some s => topo_visit g (topo_fuel g) (id n) s
                                | None => None
                                end)
                  (getNodes g) (Some ([], [])) with
  | Some (_, result) => Some (rev result)
  | None => None
  end.

(** Reachability along Dependency edges (one step or more). *)
Inductive dep_reach (g : RPG) : string -> string -> Prop :=
| dr_step u v e : In e (getEdges g) -> etype e = Dependency ->
    source e = u -> target e = v -> dep_reach g u v
| dr_trans u v w : dep_reach g u v -> dep_reach g v w -> dep_reach g u w.

Definition dep_acyclic (g : RPG) : Prop := forall u, ~ dep_reach g u u.

(** Every node of [res] comes after the targets of its Dependency edges. *)
Definition closed_order (g : RPG) (res : list Node) : Prop :=
  forall l1 n l2, res = (l1 ++ n :: l2)%list ->
    forall e, In e (getOutEdges g (id n) (Some Dependency)) -> In (target e) (map id l1).

(** The number of node keys not yet visited. *)
Definition unvisited (g : RPG) (vis : list string) : nat :=
  length (filter (fun k => negb (existsb (String.eqb k) vis)) (map fst (g_nodes g))).

(** The invariant of the depth-first search with the stack [S] of the
    calls in progress. *)
Definition topo_inv (g : RPG) (S : list string) (vis : list string) (res : list Node) : Prop :=
  NoDup (map id res) /\
  (forall n, In n res -> getNode g (id n) = Some n) /\
  (forall x, In x (map id res) -> In x vis) /\
  (forall x, In x vis -> In x (map id res) \/ In x S) /\
  (dep_acyclic g -> closed_order g res).

(** Three nodes with the Dependency edges [a -> b], [b -> c] and [a -> c]. *)
Definition g_deps : RPG :=
  build [addNode (hl_node "c"); addNode (hl_node "a"); addNode (hl_node "b");
         addDependencyEdge "a" "b" Import None None ;;; ret tt;
         addDependencyEdge "b" "c" Call None None ;;; ret tt;
         addDependencyEdge "a" "c" Use None None ;;; ret tt].


(** A pattern with no regular-expression syntax: no [*], no [.], and none
    of the other metacharacters. *)
Fixpoint literal_pattern (p : string) : bool :=
  match p with
  | EmptyString => true
  | String c p' =>
      negb (regex_meta c || Ascii.eqb c "*" || Ascii.eqb c ".") && literal_pattern p'
  end.

(** The LowLevel nodes whose path is a non-empty string satisfying [f]. *)
Definition path_filter (f : string -> bool) (g : RPG) : list Node :=
  filter (fun node =>
            match metadata node with
            | Some m => match path m with
                        | Some p => truthy p && f p
                        | None => false
                        end
            | None => false
            end)
         (getLowLevelNodes g).


(* ------------------------------------------------------------------ *)
(** ** Fetch (src/tools/fetch.ts) *)

Record FetchOptions := mkFetchOptions {
  codeEntities : option (list string);
  featureEntities : option (list string)
}.

Record EntityDetail := mkEntityDetail {
  ed_node : Node;
  ed_sourceCode : option string;
  ed_featurePaths : list string
}.

Record FetchResult := mkFetchResult {
  entities : list EntityDetail;
  notFound : list string
}.

(** The [while (current)] loop of [getFeaturePaths]: [paths.unshift] the
    description, then move to [getParent(current.id)].  [fuel] bounds the
    number of iterations; [None] stands for a loop that has not finished
    within it. *)
Fixpoint feature_chain (g : RPG) (fuel : nat) (current : option Node)
    (paths : list string) : option (list string) :=
  match current with
  | None => Some paths
  | Some n =>
      match fuel with
      | O => None
      | S f => feature_chain g f (getParent g (id n)) (description (feature n) :: paths)
      end
  end.

(** [getFeaturePaths(nodeId)] *)
Definition getFeaturePaths (g : RPG) (fuel : nat) (nodeId : string) : option (list string) :=
  match feature_chain g fuel (getNode g nodeId) [] with
  | Some paths => Some [String.concat " / " paths]
  | None => None
  end.

(** [FetchNode.get(options)] *)
Definition FetchNode_get (g : RPG) (fuel : nat) (o : FetchOptions) : option FetchResult :=
  let allIds := ((match codeEntities o with Some l => l | None => [] end) ++
                 (match featureEntities o with Some l => l | None => [] end))%list in
  match fold_left
          (fun acc i =>
             match acc with
             | None => None
             | Some (es, nf) =>
                 match getNode g i with
                 | Some n =>
                     match getFeaturePaths g fuel (id n) with
                     | Some fp => Some ((es ++ [mkEntityDetail n (sourceCode n) fp])%list, nf)
                     | None => None
                     end
                 | None => Some (es, (nf ++ [i])%list)
                 end
             end)
          allIds (Some ([], [])) with
  | Some (es, nf) => Some (mkFetchResult es nf)
  | None => None
  end.

(** [ancestry g n l]: following [getParent] from [n] visits the nodes of
    [l] (starting with [n]) and stops at a node without a parent. *)
Inductive ancestry (g : RPG) : Node -> list Node -> Prop :=
| anc_root n : getParent g (id n) = None -> ancestry g n [n]
| anc_step n p l : getParent g (id n) = Some p -> ancestry g p l -> ancestry g n (n :: l).

(** Two HighLevel nodes, each the Functional parent of the other. *)
Definition g_cycle : RPG :=
  build [addNode (hl_node "a"); addNode (hl_node "b"); fedge "a" "b"; fedge "b" "a"].


(* ------------------------------------------------------------------ *)
(** ** Glob matching of the encoder (encoder.ts [globMatch]) *)

(** [s.replace(/\\/g, '/')] *)
Fixpoint norm_slashes (s : string) : string :=
  match s with
  | EmptyString => EmptyString
  | String c s' => String (if Ascii.eqb c "\"%char then "/"%char else c) (norm_slashes s')
  end.

(** The regular expression [matchSegment] builds from a pattern segment:
    [.] is escaped (a literal dot), [*] becomes [.*], [?] becomes [.].
    [None]: the segment holds other regular-expression syntax, which this
    model does not cover. *)
Fixpoint compile_glob_seg (p : string) : option (list rtok) :=
  match p with
  | EmptyString => Some []
  | String c p' =>
      let tk := if Ascii.eqb c "?" then Some RAny
                else if regex_meta c then None
                else if Ascii.eqb c "*" then Some RAnyStar
                else Some (RLit c) in
      match tk, compile_glob_seg p' with
      | Some tk, Some t => Some (tk :: t)
      | _, _ => None
      end
  end.

(** A match of the tokens against the whole of [s] ([^...$]). *)
Fixpoint match_all (t : list rtok) (s : string) {struct t} : bool :=
  match t with
  | [] => match s with EmptyString => true | String _ _ => false end
  | RLit c :: t' =>
      match s with
      | String c' s' => Ascii.eqb c c' && match_all t' s'
      | EmptyString => false
      end
  | RAny :: t' =>
      match s with
      | String c' s' => negb (line_terminator c') && match_all t' s'
      | EmptyString => false
      end
  | RAnyStar :: t' =>
      (fix star (s : string) : bool :=
         match_all t' s ||
         match s with
         | String c' s' => negb (line_terminator c') && star s'
         | EmptyString => false
         end) s
  end.

(** [matchSegment(pathSeg, patternSeg)] *)
Definition matchSegment (pathSeg patternSeg : string) : option bool :=
  match compile_glob_seg patternSeg with
  | Some t => Some (match_all t pathSeg)
  | None => None
  end.

(** A pattern segment: the globstar [**] or a segment's regular expression. *)
Inductive pseg := PGlobstar | PSeg (t : list rtok).

Definition compile_pseg (s : string) : option pseg :=
  if String.eqb s "**" then Some PGlobstar
  else match compile_glob_seg s with Some t => Some (PSeg t) | None => None end.

Fixpoint compile_psegs (l : list string) : option (list pseg) :=
  match l with
  | [] => Some []
  | s :: l' =>
      match compile_pseg s, compile_psegs l' with
      | Some x, Some xs => Some (x :: xs)
      | _, _ => None
      end
  end.

(** The suffixes [pathSegs.slice(i)] for [i] from 0 to [pathSegs.length]. *)
Fixpoint suffixes {A} (l : list A) : list (list A) :=
  l :: match l with [] => [] | _ :: l' => suffixes l' end.

(** [matchSegments(pathSegs, patternSegs, pathIdx, patternIdx)] on the
    remaining path segments and the remaining (compiled) pattern
    segments. *)
Fixpoint matchSegments (pathSegs : list string) (patternSegs : list pseg) : bool :=
  match patternSegs with
  | [] => match pathSegs with [] => true | _ :: _ => false end
  | PGlobstar :: ps => existsb (fun rest => matchSegments rest ps) (suffixes pathSegs)
  | PSeg t :: ps =>
      match pathSegs with
      | [] => false
      | s :: rest => match_all t s && matchSegments rest ps
      end
  end.

(** [globMatch(filePath, pattern)]; [None] when a pattern segment is
    outside the modelled regular expressions. *)
Definition globMatch (filePath pattern : string) : option bool :=
  match compile_psegs (split_slash (norm_slashes pattern)) with
  | Some ps => Some (matchSegments (split_slash (norm_slashes filePath)) ps)
  | None => None
  end.

(** [matchesPattern(filePath, patterns)]: [patterns.some(...)], stopping at
    the first match. *)
Fixpoint matchesPattern (filePath : string) (patterns : list string) : option bool :=
  match patterns with
  | [] => Some false
  | p :: ps =>
      match globMatch filePath p with
      | Some true => Some true
      | Some false => matchesPattern filePath ps
      | None => None
      end
  end.

(** The default [include] and [exclude] patterns of [discoverFiles()]. *)
Definition defaultInclude : list string := ["**/*.ts"; "**/*.js"; "**/*.py"].
Definition defaultExclude : list string :=
  ["**/node_modules/**"; "**/dist/**"; "**/.git/**"].

Fixpoint no_line_terminator (s : string) : bool :=
  match s with
  | EmptyString => true
  | String c s' => negb (line_terminator c) && no_line_terminator s'
  end.


(** The entry [traverse] pushes to [edges] for an edge. *)
Definition edge_triple (e : Edge) : string * string * string :=
  (source e, target e, EdgeType_str (etype e)).

(** The edges [explore] follows out of a node, in order: for each edge
    type, the outgoing edges (directions [out] and [both]) and then the
    incoming ones (directions [in] and [both]). *)
Definition followed_edges (g : RPG) (et : ExploreEdgeType) (dir : Direction)
    (nid : string) : list Edge :=
  flat_map (fun t => ((if goes_out dir then getOutEdges g nid (Some t) else []) ++
                      (if goes_in dir then getInEdges g nid (Some t) else []))%list)
           (getEdgeTypes et).

(** What a part of the traversal adds: the edges [E] and the pushes [T]
    (with the nodes they push), every push a present node, and [E] the
    followed edges of the pushed nodes up to order. *)
Definition edges_spec (g : RPG) (et : ExploreEdgeType) (dir : Direction)
    (s s' : TState) : Prop :=
  exists E T,
    t_edges s' = (t_edges s ++ E)%list /\ trace s' = (trace s ++ T)%list /\
    t_nodes s' = (t_nodes s ++ flat_map (fun kd => option_list (getNode g (fst kd))) T)%list /\
    (forall kd, In kd T -> getNode g (fst kd) <> None) /\
    Permutation E (flat_map (fun kd => map edge_triple (followed_edges g et dir (fst kd))) T).


(** The node that grounding leaves at [n], when the directories reached from
    it (the [dirSet] of [propagate]) are [D]: for a HighLevel node, [n]
    with the metadata written for [computeLCA(D)], or [n] itself when no
    write happens; any other node is left as it is. *)
Definition ground_node (n : Node) (D : list string) : Node :=
  if isHighLevelNode n then
    match ground_meta (metadata n) (computeLCA D) with
    | Some m => mergeNodeAttributes n (meta_update m)
    | None => n
    end
  else n.

(** [x] is the grounded form of the node stored under [k] in [g]. *)
Definition grounded (g : RPG) (k : string) (x : Node) : Prop :=
  exists n D, getNode g k = Some n /\ NoDup D /\
              (forall d, In d D <-> reach_dir g k d) /\ x = ground_node n D.

(** During [ground()] on [g]: the current graph [g1] has the shape of [g],
    and each of its nodes is the one of [g] or its grounded form. *)
Definition ground_state (g g1 : RPG) : Prop :=
  meta_only g g1 /\
  forall k x, getNode g1 k = Some x -> getNode g k = Some x \/ grounded g k x.

(** From [g1] to [g2] a node either stays or becomes its grounded form. *)
Definition ground_change (g g1 g2 : RPG) : Prop :=
  forall k, getNode g2 k = getNode g1 k \/ exists x, getNode g2 k = Some x /\ grounded g k x.

(** Every node reached from [v] through HighLevel nodes is grounded in [g2]. *)
Definition ground_reach (g : RPG) (v : string) (g2 : RPG) : Prop :=
  forall k, hl_reach g v k -> getNode g k <> None ->
  exists x, getNode g2 k = Some x /\ grounded g k x.

(* ================================================================== *)
(** * Theorems *)

(** ** Graph store basics *)

Lemma assoc_None_filter {A} (k : string) (l : list (string * A)) :
  assoc k l = None -> filter (fun kv => String.eqb k (fst kv)) l = [].
Proof.
  induction l as [|[k' v] l IH]; simpl; [reflexivity|].
  destruct (String.eqb k k'); [discriminate|exact IH].
Qed.

Lemma hasNode_false_getNode (g : RPG) (nid : string) :
  hasNode g nid = false -> getNode g nid = None.
Proof. unfold hasNode, getNode. destruct (assoc nid (g_nodes g)); congruence. Qed.

(** C10: reads on an absent id return empty results, [updateNode] and
    [removeNode] on an absent id throw "Node with id ... not found" and
    leave the graph as it was. *)
Theorem C10_absent_reads_empty_writes_throw (g : RPG) (nid : string)
  (et : option EdgeType) (u : NodeUpdate) (Habs : hasNode g nid = false) :
  getNode g nid = None /\
  getOutEdges g nid et = [] /\ getInEdges g nid et = [] /\
  getChildren g nid = [] /\ getParent g nid = None /\
  getDependencies g nid = [] /\ getDependents g nid = [] /\
  updateNode nid u g = (Throw (not_found_msg nid), g) /\
  removeNode nid g = (Throw (not_found_msg nid), g).
Proof.
  unfold getOutEdges, getInEdges, getChildren, getParent, getDependencies,
    getDependents, updateNode, removeNode, getOutEdges, getInEdges.
  rewrite Habs; simpl.
  repeat split; auto using hasNode_false_getNode.
Qed.

Lemma C10_witness :
  hasNode g_abc "zz" = false /\
  getNode g_abc "zz" = None /\
  getOutEdges g_abc "zz" None = [] /\ getInEdges g_abc "zz" None = [] /\
  getChildren g_abc "zz" = [] /\ getParent g_abc "zz" = None /\
  getDependencies g_abc "zz" = [] /\ getDependents g_abc "zz" = [] /\
  updateNode "zz" no_update g_abc = (Throw (not_found_msg "zz"), g_abc) /\
  removeNode "zz" g_abc = (Throw (not_found_msg "zz"), g_abc).
Proof.
  split; [vm_compute; reflexivity|].
  apply (C10_absent_reads_empty_writes_throw g_abc "zz" None no_update).
  vm_compute; reflexivity.
Defined.

(** ** Edge insertion *)

(** C4 (amended): [addEdge] accepts an edge exactly when both endpoints
    exist and its (source, target, type) key is unused, and then appends
    it; nothing else (number of Functional parents, cycles) is checked. *)
Theorem C4_addEdge_accepts_iff_endpoints_and_fresh_key (g g' : RPG) (e : Edge) :
  addEdge e g = (Ok tt, g') <->
  hasNode g (source e) = true /\ hasNode g (target e) = true /\
  hasEdgeKey g (edgeKey e) = false /\
  g' = mkRPG (g_nodes g) (g_edges g ++ [(edgeKey e, e)])%list.
Proof.
  unfold addEdge; split.
  - destruct (hasNode g (source e)) eqn:Hs; simpl; [|discriminate].
    destruct (hasNode g (target e)) eqn:Ht; simpl; [|discriminate].
    destruct (hasEdgeKey g (edgeKey e)) eqn:Hk; [discriminate|].
    intros Heq; inversion Heq; auto.
  - intros (Hs & Ht & Hk & ->). rewrite Hs, Ht, Hk; reflexivity.
Qed.

(** C4: a node may receive two Functional parents, and two Functional
    edges may form a cycle; [addFunctionalEdge] accepts both. *)
Lemma C4_forest_not_enforced :
  let g1 := run_all [fedge "a" "c"; fedge "b" "c"] g_abc in
  let g2 := run_all [fedge "a" "b"; fedge "b" "a"] g_abc in
  fst g1 = Ok tt /\ length (getInEdges (snd g1) "c" (Some Functional)) = 2 /\
  fst g2 = Ok tt /\
  map source (getInEdges (snd g2) "a" (Some Functional)) = ["b"] /\
  map source (getInEdges (snd g2) "b" (Some Functional)) = ["a"].
Proof. vm_compute. repeat split. Qed.

(** C5 (amended): repeating a successful [addNode] or [addEdge] throws and
    leaves the graph as it was; after a successful [addEdge e] exactly one
    edge is stored under the key of [e]. *)
Theorem C5_repeated_write_throws (n : Node) (e : Edge) (g1 g1' g2 g2' : RPG)
  (Hn : addNode n g1 = (Ok tt, g1')) (He : addEdge e g2 = (Ok tt, g2')) :
  (exists msg, addNode n g1' = (Throw msg, g1')) /\
  (exists msg, addEdge e g2' = (Throw msg, g2')) /\
  count_key (edgeKey e) g2' = 1.
Proof.
  split; [|split].
  - unfold addNode in *.
    destruct (hasNode g1 (id n)) eqn:Hh; [discriminate|].
    inversion Hn; subst; clear Hn.
    unfold hasNode; simpl.
    assert (Ha : forall l, assoc (id n) (l ++ [(id n, n)])%list <> None).
    { induction l as [|[k v] l IH]; simpl.
      - rewrite String.eqb_refl; discriminate.
      - destruct (String.eqb (id n) k); [discriminate|exact IH]. }
    destruct (assoc (id n) (g_nodes g1 ++ [(id n, n)])%list) eqn:E;
      [eexists; reflexivity|exfalso; exact (Ha _ E)].
  - apply C4_addEdge_accepts_iff_endpoints_and_fresh_key in He.
    destruct He as (Hs & Ht & Hk & ->).
    unfold addEdge, hasNode in *; simpl. rewrite Hs, Ht; simpl.
    unfold hasEdgeKey; simpl.
    assert (Ha : forall l, assoc (edgeKey e) (l ++ [(edgeKey e, e)])%list <> None).
    { induction l as [|[k v] l IH]; simpl.
      - rewrite String.eqb_refl; discriminate.
      - destruct (String.eqb (edgeKey e) k); [discriminate|exact IH]. }
    destruct (assoc (edgeKey e) (g_edges g2 ++ [(edgeKey e, e)])%list) eqn:E;
      [eexists; reflexivity|exfalso; exact (Ha _ E)].
  - apply C4_addEdge_accepts_iff_endpoints_and_fresh_key in He.
    destruct He as (_ & _ & Hk & ->).
    unfold count_key, hasEdgeKey in *; simpl.
    destruct (assoc (edgeKey e) (g_edges g2)) eqn:E; [discriminate|].
    rewrite filter_app, (assoc_None_filter _ _ E); simpl.
    rewrite String.eqb_refl; reflexivity.
Qed.

Lemma C5_witness :
  (exists msg, addNode (hl_node "d") (snd (addNode (hl_node "d") g_abc))
               = (Throw msg, snd (addNode (hl_node "d") g_abc))) /\
  (exists msg, addEdge (createFunctionalEdge "a" "b" None None)
                 (snd (addEdge (createFunctionalEdge "a" "b" None None) g_abc))
               = (Throw msg, snd (addEdge (createFunctionalEdge "a" "b" None None) g_abc))) /\
  count_key (edgeKey (createFunctionalEdge "a" "b" None None))
    (snd (addEdge (createFunctionalEdge "a" "b" None None) g_abc)) = 1.
Proof.
  apply (C5_repeated_write_throws (hl_node "d") (createFunctionalEdge "a" "b" None None)
           g_abc (snd (addNode (hl_node "d") g_abc))
           g_abc (snd (addEdge (createFunctionalEdge "a" "b" None None) g_abc)));
    vm_compute; reflexivity.
Defined.

(** C5: the second of two identical [addEdge] calls fails. *)
Lemma C5_second_addEdge_fails :
  let e := createFunctionalEdge "a" "b" None None in
  fst (addEdge e g_abc) = Ok tt /\
  exists msg, fst (addEdge e (snd (addEdge e g_abc))) = Throw msg.
Proof. vm_compute. split; [reflexivity|eexists; reflexivity]. Qed.

(** ** Node update *)

(** C8 (amended): [updateNode] on an existing id is graphology's shallow
    [mergeNodeAttributes]: each top-level property named in the update
    replaces the stored one whole, the other properties, the other nodes
    and all edges are unchanged. *)
Theorem C8_updateNode_shallow_merge (g : RPG) (nid : string) (u : NodeUpdate)
  (n : Node) (H : getNode g nid = Some n) :
  exists g', updateNode nid u g = (Ok tt, g') /\
    getNode g' nid = Some (mergeNodeAttributes n u) /\
    (forall k, k <> nid -> getNode g' k = getNode g k) /\
    g_edges g' = g_edges g.
Proof.
  unfold updateNode, hasNode; unfold getNode in H; rewrite H.
  eexists; split; [reflexivity|]; simpl.
  split; [|split; [|reflexivity]].
  - clear -H. unfold getNode; cbn [g_nodes].
    induction (g_nodes g) as [|[k v] l IH]; [discriminate|].
    cbn [assoc map fst snd] in *.
    destruct (String.eqb_spec nid k) as [<-|Hne].
    + rewrite String.eqb_refl. cbn [assoc fst]. try rewrite String.eqb_refl.
      inversion H; reflexivity.
    + destruct (String.eqb_spec k nid) as [->|_]; [congruence|].
      cbn [assoc fst snd]. rewrite (proj2 (String.eqb_neq _ _) Hne). auto.
  - intros k Hk. unfold getNode. clear H.
    induction (g_nodes g) as [|[k' v] l IH]; simpl; [reflexivity|].
    destruct (String.eqb k' nid) eqn:E; simpl.
    + apply String.eqb_eq in E; subst.
      destruct (String.eqb k nid) eqn:E2; [apply String.eqb_eq in E2; contradiction|].
      exact IH.
    + destruct (String.eqb k k'); [reflexivity|exact IH].
Qed.

Definition n_feat : Node :=
  mkNode "n" HighLevel (mkFeature "manage graph" (Some ["graph"]) None)
         (Some (mkMeta (Some "module") (Some "src") None None None None
                       (Some [("owner", JStr "core")]))) None None.

Definition g_feat : RPG := build [addNode n_feat].

Lemma C8_witness :
  getNode g_feat "n" = Some n_feat /\
  exists g', updateNode "n" no_update g_feat = (Ok tt, g') /\
    getNode g' "n" = Some (mergeNodeAttributes n_feat no_update) /\
    (forall k, k <> "n" -> getNode g' k = getNode g_feat k) /\
    g_edges g' = g_edges g_feat.
Proof.
  split; [vm_compute; reflexivity|].
  apply (C8_updateNode_shallow_merge g_feat "n" no_update n_feat).
  vm_compute; reflexivity.
Defined.

(** C8: updating [feature] with only a description drops the stored
    keywords, and updating [metadata] with only a path drops the stored
    [metadata.extra] entries: no deep merge happens. *)
Lemma C8_no_deep_merge :
  let u1 := mkUpdate None None (Some (mkFeature "store graph" None None)) None None None in
  let u2 := mkUpdate None None None
              (Some (mkMeta None (Some "lib") None None None None None)) None None in
  option_map (fun n => keywords (feature n)) (getNode (snd (updateNode "n" u1 g_feat)) "n")
    = Some None /\
  option_map (fun n => option_map extra (metadata n))
    (getNode (snd (updateNode "n" u2 g_feat)) "n") = Some (Some None).
Proof. vm_compute. split; reflexivity. Qed.

(** ** Encoder entity ids *)

Definition kept (e : CodeEntity) : bool :=
  match mapEntityType (ce_type e) with Some _ => true | None => false end.

(** C3 (amended): the node created for a file has id
    [{relativePath}:file]; the node created for each kept entity (function,
    class, method) has id [{relativePath}:{type}:{name}:{startLine}], the
    name part being left out when the name is empty. *)
Theorem C3_lowlevel_ids (feat : SemanticFeature) (rel : string) (parsed : list CodeEntity) :
  map (fun e => id (lowLevelNodeOf feat e)) (extractEntities rel parsed) =
  (rel ++ ":file")
  :: map (fun e => rel ++ ":" ++ CodeEntityKind_str (ce_type e)
                   ++ (if truthy (ce_name e) then ":" ++ ce_name e else "")
                   ++ ":" ++ string_of_Z (ce_startLine e))
         (filter kept parsed).
Proof.
  simpl. f_equal.
  induction parsed as [|e parsed IH]; [reflexivity|].
  unfold kept at 1; simpl.
  unfold convertCodeEntity at 1.
  destruct (ce_type e) eqn:Ht; simpl; try exact IH;
    rewrite IH; f_equal; unfold generateEntityId; simpl;
    destruct (truthy (ce_name e)); simpl; rewrite Ht; reflexivity.
Qed.

(** C3: a function [foo] starting at line 3 of [src/a.ts] gets the id
    [src/a.ts:function:foo:3], not [src/a.ts:function:foo]; moving it to
    line 4 changes its id. *)
Lemma C3_entity_id_contains_line :
  let f := mkFeature "parse input" None None in
  map (fun e => id (lowLevelNodeOf f e))
      (extractEntities "src/a.ts" [mkCodeEntity CE_function "foo" 3 5])
    = ["src/a.ts:file"; "src/a.ts:function:foo:3"] /\
  ~ In "src/a.ts:function:foo"
      (map (fun e => id (lowLevelNodeOf f e))
           (extractEntities "src/a.ts" [mkCodeEntity CE_function "foo" 3 5])) /\
  map ee_id (extractEntities "src/a.ts" [mkCodeEntity CE_function "foo" 4 6])
    <> map ee_id (extractEntities "src/a.ts" [mkCodeEntity CE_function "foo" 3 5]).
Proof.
  vm_compute. split; [reflexivity|]. split.
  - intros [H|[H|H]]; try discriminate; exact H.
  - discriminate.
Qed.

(** ** Traversal *)

Lemma fold_left_inv {A B} (P : A -> Prop) (f : A -> B -> A) (l : list B) (a : A) :
  P a -> (forall a b, In b l -> P a -> P (f a b)) -> P (fold_left f l a).
Proof.
  revert a; induction l as [|b l IH]; simpl; intros a Ha Hf; [exact Ha|].
  apply IH; [apply Hf; auto|intros; apply Hf; auto].
Qed.

Lemma fold_left_ext_all {A B} (f f' : A -> B -> A) (l : list B) (a : A) :
  (forall a b, f a b = f' a b) -> fold_left f l a = fold_left f' l a.
Proof.
  revert a; induction l as [|b l IH]; simpl; intros a H; [reflexivity|].
  rewrite H; apply IH, H.
Qed.

Lemma NoDup_snoc {A} (l : list A) (x : A) :
  NoDup l -> ~ In x l -> NoDup (l ++ [x])%list.
Proof.
  intros Hl Hx. apply NoDup_app; [exact Hl|constructor; [intros []|constructor]|].
  intros a Ha [<-|[]]; contradiction.
Qed.

Section ExploreProofs.
Variables (g : RPG) (et : ExploreEdgeType) (dir : Direction) (maxD : Z).

Lemma explore_fuel_irrelevant (k1 k2 : nat) (nid : string) (depth : Z) (st : TState) :
  (Z.to_nat (maxD - depth + 1) <= k1)%nat ->
  (Z.to_nat (maxD - depth + 1) <= k2)%nat ->
  explore g et dir maxD k1 nid depth st = explore g et dir maxD k2 nid depth st.
Proof.
  revert k2 nid depth st; induction k1 as [|k1 IH]; intros k2 nid depth st H1 H2.
  - destruct k2 as [|k2]; [reflexivity|]. simpl.
    replace (maxD <? depth)%Z with true by lia. reflexivity.
  - destruct k2 as [|k2].
    + simpl. replace (maxD <? depth)%Z with true by lia. reflexivity.
    + simpl. destruct (maxD <? depth)%Z eqn:Hd; [reflexivity|].
      destruct (existsb (String.eqb nid) (visited st)); [reflexivity|]; simpl.
      destruct (getNode g nid) as [n|]; [|reflexivity].
      assert (Hk : forall x s, explore g et dir maxD k1 x (depth + 1) s
                               = explore g et dir maxD k2 x (depth + 1) s)
        by (intros; apply IH; lia).
      assert (Hf : forall (h : Edge -> string) l s,
                 fold_left (fun st e => explore g et dir maxD k1 (h e) (depth + 1) (push_edge e st)) l s
                 = fold_left (fun st e => explore g et dir maxD k2 (h e) (depth + 1) (push_edge e st)) l s)
        by (intros; apply fold_left_ext_all; intros; apply Hk).
      apply fold_left_ext_all; intros s t.
      rewrite (Hf target), (Hf source). reflexivity.
Qed.

(** Invariant of the traversal state for a walk started at [start]. *)
Definition explore_inv (start : string) (st : TState) : Prop :=
  NoDup (visited st) /\
  (forall k, In k (map fst (trace st)) -> In k (visited st)) /\
  NoDup (map fst (trace st)) /\
  t_nodes st = flat_map (fun kd => option_list (getNode g (fst kd))) (trace st) /\
  t_maxDepthReached st = fold_left Z.max (map snd (trace st)) 0%Z /\
  (forall k d, In (k, d) (trace st) ->
               (0 <= d <= maxD)%Z /\ walk g et dir start k (Z.to_nat d)).

Lemma explore_inv_push_edge start e st :
  explore_inv start st -> explore_inv start (push_edge e st).
Proof. unfold explore_inv, push_edge; simpl; tauto. Qed.

Lemma explore_preserves_inv (start : string) (k : nat) :
  forall nid depth st,
    explore_inv start st -> (0 <= depth)%Z -> walk g et dir start nid (Z.to_nat depth) ->
    explore_inv start (explore g et dir maxD k nid depth st).
Proof.
  induction k as [|k IH]; intros nid depth st Hinv Hd0 Hw; simpl; [exact Hinv|].
  destruct (maxD <? depth)%Z eqn:Hd; simpl; [exact Hinv|].
  destruct (existsb (String.eqb nid) (visited st)) eqn:Hv; [exact Hinv|].
  assert (Hnv : ~ In nid (visited st)).
  { intros Hin. assert (existsb (String.eqb nid) (visited st) = true); [|congruence].
    apply existsb_exists; exists nid; split; [exact Hin|apply String.eqb_refl]. }
  destruct Hinv as (Hnd & Hsub & Hnd2 & Hnodes & Hmax & Hdep).
  assert (Hvis : explore_inv start (visit nid st)).
  { unfold visit, set_add; rewrite Hv; unfold explore_inv; simpl.
    refine (conj _ (conj _ (conj Hnd2 (conj Hnodes (conj Hmax Hdep))))).
    - apply NoDup_snoc; assumption.
    - intros x Hx; apply in_or_app; left; auto. }
  destruct (getNode g nid) as [n|] eqn:Hn; [|exact Hvis].
  apply fold_left_inv.
  - unfold explore_inv, push_node, visit, set_add; rewrite Hv; simpl.
    refine (conj _ (conj _ (conj _ (conj _ (conj _ _))))).
    + apply NoDup_snoc; assumption.
    + intros x Hx. rewrite map_app in Hx. apply in_app_or in Hx.
      apply in_or_app. destruct Hx as [Hx|[<-|[]]]; [left; auto|right; left; auto].
    + rewrite map_app. apply NoDup_snoc; [assumption|].
      intros Hx; apply Hnv, Hsub, Hx.
    + rewrite flat_map_app, Hnodes; simpl; rewrite Hn; reflexivity.
    + rewrite map_app, fold_left_app, Hmax; reflexivity.
    + intros x d Hx. apply in_app_or in Hx. destruct Hx as [Hx|[Hx|[]]].
      * apply Hdep; exact Hx.
      * inversion Hx; subst. split; [lia|exact Hw].
  - intros s t Ht Hs.
    assert (Hstep : forall (h : Edge -> string) l s,
               (forall e, In e l -> tstep g et dir nid (h e)) ->
               explore_inv start s ->
               explore_inv start
                 (fold_left (fun st e => explore g et dir maxD k (h e) (depth + 1) (push_edge e st)) l s)).
    { intros h l s0 Hl Hs0. apply fold_left_inv; [exact Hs0|].
      intros s1 e He Hs1. apply IH; [apply explore_inv_push_edge; exact Hs1|lia|].
      replace (Z.to_nat (depth + 1)) with (S (Z.to_nat depth)) by lia.
      apply walk_step with nid; [exact Hw|apply Hl; exact He]. }
    destruct (goes_in dir) eqn:Hin; [apply (Hstep source)|];
      [intros e He; exists t, e; split; [exact Ht|right; auto]| |];
      (destruct (goes_out dir) eqn:Hout; [apply (Hstep target)|exact Hs]);
      try (intros e He; exists t, e; split; [exact Ht|left; auto]); exact Hs.
Qed.
End ExploreProofs.

Lemma fold_push_edge_nodes (l : list Edge) (s : TState) :
  t_nodes (fold_left (fun st e => push_edge e st) l s) = t_nodes s.
Proof.
  apply (fold_left_inv (fun s' => t_nodes s' = t_nodes s)); [reflexivity|].
  intros a b _ Ha; exact Ha.
Qed.

(** C9: [traverse] with [maxDepth = 0] returns only the start node (none
    when it is absent); in every traversal each node key is pushed at most
    once ([trace] lists the pushes with their depths); the reported
    [maxDepthReached] is the largest depth at which a node was pushed (0
    when none was); every pushed node was pushed at a depth between 0 and
    [maxDepth] and is reached from the start node by a walk of that many
    followed edges; and the recursion stops by the depth bound alone: any
    recursion budget beyond [maxDepth + 1] gives the same result. *)
Theorem C9_traverse_depth_visits_termination (g : RPG) (o : ExploreOptions) :
  (maxDepth o = Some 0%Z -> r_nodes (traverse g o) = option_list (getNode g (startNode o))) /\
  NoDup (map fst (trace (traverse_state g o))) /\
  r_nodes (traverse g o)
    = flat_map (fun kd => option_list (getNode g (fst kd))) (trace (traverse_state g o)) /\
  r_maxDepthReached (traverse g o)
    = fold_left Z.max (map snd (trace (traverse_state g o))) 0%Z /\
  (forall k d, In (k, d) (trace (traverse_state g o)) ->
     (0 <= d <= opt_maxDepth o)%Z /\
     walk g (edgeType o) (opt_direction o) (startNode o) k (Z.to_nat d)) /\
  (forall fuel, (explore_fuel (opt_maxDepth o) <= fuel)%nat ->
     explore g (edgeType o) (opt_direction o) (opt_maxDepth o) fuel (startNode o) 0%Z init_state
     = traverse_state g o).
Proof.
  assert (Hinv : explore_inv g (edgeType o) (opt_direction o) (opt_maxDepth o)
                   (startNode o) (traverse_state g o)).
  { apply explore_preserves_inv; [|lia|apply walk_refl].
    unfold explore_inv; simpl; repeat split; auto using NoDup_nil; intros; contradiction. }
  destruct Hinv as (_ & _ & Hnd & Hnodes & Hmax & Hdep).
  split; [|split; [exact Hnd|split; [exact Hnodes|split; [exact Hmax|split; [exact Hdep|]]]]].
  - intros H0. unfold traverse, traverse_state, opt_maxDepth, explore_fuel; rewrite H0; simpl.
    destruct (getNode g (startNode o)) as [n|]; simpl; [|reflexivity].
    apply (fold_left_inv (fun s => t_nodes s = [n])); [reflexivity|].
    intros s t _ Hs.
    destruct (goes_out (opt_direction o)), (goes_in (opt_direction o));
      rewrite ?fold_push_edge_nodes; exact Hs.
  - intros fuel Hf. unfold traverse_state.
    apply explore_fuel_irrelevant; unfold explore_fuel in *; lia.
Qed.

(** ** Search *)

(** Ids in first-seen order, each once. *)
Definition first_seen (xs : list string) : list string :=
  fold_left (fun acc x => set_add x acc) xs [].

Lemma map_fst_map_set {A} (k : string) (v : A) (m : list (string * A)) :
  map fst (map_set k v m) = set_add k (map fst m).
Proof.
  induction m as [|[k' v'] m IH]; [reflexivity|]; simpl.
  unfold set_add; simpl.
  destruct (String.eqb k k') eqn:E; simpl; [reflexivity|].
  rewrite IH. unfold set_add. destruct (existsb (String.eqb k) (map fst m)); reflexivity.
Qed.

Lemma map_set_keys_ok (n : Node) (m : list (string * Node)) :
  Forall (fun kv => id (snd kv) = fst kv) m ->
  Forall (fun kv => id (snd kv) = fst kv) (map_set (id n) n m).
Proof.
  induction m as [|[k v] m IH]; simpl; intros H; [repeat constructor|].
  inversion H; subst.
  destruct (String.eqb (id n) k) eqn:E.
  - apply String.eqb_eq in E. constructor; [exact E|assumption].
  - constructor; [assumption|apply IH; assumption].
Qed.

Lemma dedupe_by_id_ids (l : list Node) :
  map id (dedupe_by_id l) = first_seen (map id l).
Proof.
  unfold dedupe_by_id, first_seen.
  assert (H : forall m,
             Forall (fun kv => id (snd kv) = fst kv) m ->
             Forall (fun kv => id (snd kv) = fst kv)
                    (fold_left (fun m n => map_set (id n) n m) l m) /\
             map fst (fold_left (fun m n => map_set (id n) n m) l m)
             = fold_left (fun acc x => set_add x acc) (map id l) (map fst m)).
  { induction l as [|n l IH]; intros m Hm; simpl; [auto|].
    rewrite <- (map_fst_map_set (id n) n m). apply IH, map_set_keys_ok, Hm. }
  destruct (H [] (Forall_nil _)) as [Hk Hf].
  simpl in Hf. rewrite map_map, <- Hf.
  clear H Hf. induction Hk; simpl; [reflexivity|]. rewrite H; f_equal; assumption.
Qed.

Lemma first_seen_NoDup (xs : list string) : NoDup (first_seen xs).
Proof.
  unfold first_seen.
  apply (fold_left_inv (@NoDup string)); [constructor|].
  intros acc x _ Hacc. unfold set_add.
  destruct (existsb (String.eqb x) acc) eqn:E; [exact Hacc|].
  apply NoDup_snoc; [exact Hacc|].
  intros Hin. assert (existsb (String.eqb x) acc = true); [|congruence].
  apply existsb_exists; exists x; split; [exact Hin|apply String.eqb_refl].
Qed.

(** C2 (amended): in mode [auto] with a (non-empty) file pattern, [query]
    runs the feature search for every term and also the path search,
    whatever the feature search found; the result lists the ids of the
    feature hits followed by the path hits, each id once, in first-seen
    order. *)
Theorem C2_auto_runs_both_searches (g : RPG) (o : SearchOptions) (p : string)
  (hits : list Node)
  (Hm : mode o = SM_auto) (Hp : filePattern o = Some p) (Ht : truthy p = true)
  (Hs : searchByPath g p = Some hits) :
  exists r, query g o = Some r /\
    map id (sr_nodes r)
      = first_seen (map id ((match featureTerms o with
                             | Some ts => flat_map (searchByFeature g) ts
                             | None => []
                             end) ++ hits)%list) /\
    NoDup (map id (sr_nodes r)).
Proof.
  unfold query. rewrite Hm, Hp, Ht, Hs; simpl.
  eexists; split; [reflexivity|]; simpl.
  rewrite dedupe_by_id_ids. split; [reflexivity|apply first_seen_NoDup].
Qed.

Definition g_search : RPG :=
  build [addNode (mkNode "h" HighLevel (mkFeature "parse input" None None) None None None);
         addNode (mkNode "src/a.ts:file" LowLevel (mkFeature "render page" None None)
                    (Some (mkMeta (Some "file") (Some "src/a.ts") None None None None None))
                    None None)].

Definition o_auto : SearchOptions := mkSearchOptions SM_auto (Some ["parse"]) (Some "src/*").

Lemma C2_witness :
  exists r, query g_search o_auto = Some r /\
    map id (sr_nodes r)
      = first_seen (map id ((match featureTerms o_auto with
                             | Some ts => flat_map (searchByFeature g_search) ts
                             | None => []
                             end) ++ [mkNode "src/a.ts:file" LowLevel (mkFeature "render page" None None)
                    (Some (mkMeta (Some "file") (Some "src/a.ts") None None None None None))
                    None None])%list) /\
    NoDup (map id (sr_nodes r)).
Proof.
  apply (C2_auto_runs_both_searches g_search o_auto "src/*"); vm_compute; reflexivity.
Defined.

(** C2: the feature search finds node [h], and still the path search runs
    and adds the file node to the [auto] result. *)
Lemma C2_snippets_run_despite_feature_hits :
  map id (searchByFeature g_search "parse") = ["h"] /\
  option_map (fun r => map id (sr_nodes r)) (query g_search o_auto)
    = Some ["h"; "src/a.ts:file"].
Proof. vm_compute. split; reflexivity. Qed.

(* ------------------------------------------------------------------ *)
(** ** The path trie *)

Lemma TrieNode_ind' (P : TrieNode -> Prop)
  (H : forall ch b, Forall (fun sc => P (snd sc)) ch -> P (TNode ch b)) :
  forall t, P t.
Proof.
  refine (fix F t := match t with
    | TNode ch b => H ch b ((fix G l :=
        match l return Forall (fun sc => P (snd sc)) l with
        | [] => Forall_nil _
        | (s, c) :: l' => @Forall_cons _ _ (s, c) l' (F c) (G l')
        end) ch)
    end).
Qed.

Lemma str_app_assoc (a b c : string) : ((a ++ b) ++ c)%string = (a ++ (b ++ c))%string.
Proof. induction a; simpl; congruence. Qed.

Lemma str_prefix_app (a b : string) : String.prefix a (a ++ b) = true.
Proof.
  induction a as [|c a IH]; simpl; [destruct b; reflexivity|].
  destruct (ascii_dec c c); [exact IH|congruence].
Qed.

Lemma str_prefix_app_inv (a b c : string) :
  String.prefix (a ++ b) c = true -> String.prefix a c = true.
Proof.
  revert c; induction a as [|x a IH]; intros c H; simpl; [destruct c; reflexivity|].
  destruct c as [|y c]; simpl in *; [discriminate|].
  destruct (ascii_dec x y); [apply IH, H|discriminate].
Qed.

Lemma str_prefix_app_l (a b c : string) :
  String.prefix (a ++ b) (a ++ c) = String.prefix b c.
Proof.
  induction a as [|x a IH]; simpl; [reflexivity|].
  destruct (ascii_dec x x); [exact IH|congruence].
Qed.

Lemma join_cons (s : string) (q : list string) :
  q <> [] -> join (s :: q) = (s ++ "/" ++ join q)%string.
Proof. destruct q; [congruence|reflexivity]. Qed.

Lemma join_app (a b : list string) :
  a <> [] -> b <> [] -> join (a ++ b)%list = (join a ++ "/" ++ join b)%string.
Proof.
  intros Ha Hb; induction a as [|x a IH]; [congruence|].
  destruct a as [|y a].
  - simpl. apply join_cons, Hb.
  - change ((x :: y :: a) ++ b)%list with (x :: ((y :: a) ++ b))%list.
    rewrite join_cons by (simpl; congruence).
    rewrite join_cons by congruence.
    rewrite IH by congruence.
    rewrite !str_app_assoc. reflexivity.
Qed.

Lemma prefix_cons (a b : ascii) (s1 s2 : string) :
  String.prefix (String a s1) (String b s2) =
  (if ascii_dec a b then String.prefix s1 s2 else false).
Proof. reflexivity. Qed.

(** Two distinct ['/']-free segments: neither [s ++ "/"] is a prefix of a
    path starting with the other segment. *)
Lemma seg_prefix_eq (s s' rest : string) :
  slash_free s = true -> slash_free s' = true ->
  (rest = EmptyString \/ exists r', rest = ("/" ++ r')%string) ->
  String.prefix (s ++ "/") (s' ++ rest) = true -> s = s'.
Proof.
  revert s'; induction s as [|c s IH]; intros s' Hs Hs' Hr H.
  - destruct s' as [|c' s']; [reflexivity|].
    cbn [String.append] in H. rewrite prefix_cons in H.
    destruct (ascii_dec "/"%char c'); [|discriminate].
    subst c'. simpl in Hs'. discriminate.
  - simpl in Hs. apply andb_prop in Hs as [Hc Hs].
    destruct s' as [|c' s'].
    + cbn [String.append] in H. destruct Hr as [->|[r' ->]]; [discriminate|].
      cbn [String.append] in H. rewrite prefix_cons in H.
      destruct (ascii_dec c "/"%char); [|discriminate].
      subst c. simpl in Hc. discriminate.
    + simpl in Hs'. apply andb_prop in Hs' as [_ Hs'].
      cbn [String.append] in H. rewrite prefix_cons in H.
      destruct (ascii_dec c c'); [|discriminate].
      subst c'. f_equal. apply IH; assumption.
Qed.

Lemma str_app_empty_r (a : string) : (a ++ "")%string = a.
Proof. induction a; simpl; congruence. Qed.

Lemma split_slash_free (s : string) :
  slash_free s = true -> split_slash s = [s].
Proof.
  induction s as [|c s IH]; simpl; intros H; [reflexivity|].
  apply andb_prop in H as [Hc H]. apply negb_true_iff in Hc.
  rewrite Hc, IH by exact H. reflexivity.
Qed.

Lemma split_slash_app (s rest : string) :
  slash_free s = true -> split_slash (s ++ "/" ++ rest) = s :: split_slash rest.
Proof.
  induction s as [|c s IH]; intros H; [reflexivity|].
  simpl in H. apply andb_prop in H as [Hc H]. apply negb_true_iff in Hc.
  simpl in IH |- *. rewrite Hc, IH by exact H. reflexivity.
Qed.

Lemma split_join (q : list string) :
  q <> [] -> Forall valid_seg q -> split_slash (join q) = q.
Proof.
  induction q as [|s q IH]; intros Hq Hv; [congruence|].
  inversion Hv as [|? ? [_ Hs] Hv']; subst.
  destruct q as [|s' q].
  - apply split_slash_free, Hs.
  - rewrite join_cons by congruence. rewrite split_slash_app by exact Hs.
    rewrite IH by (congruence || exact Hv'). reflexivity.
Qed.

Lemma segments_join (q : list string) :
  q <> [] -> Forall valid_seg q -> segments (join q) = q.
Proof.
  intros Hq Hv. unfold segments. rewrite split_join by assumption.
  clear Hq. induction Hv as [|s q [Hs _] _ IH]; [reflexivity|].
  simpl. destruct (String.eqb_spec s EmptyString); [contradiction|].
  simpl. rewrite IH. reflexivity.
Qed.

Lemma split_slash_pieces (s : string) :
  Forall (fun x => slash_free x = true) (split_slash s).
Proof.
  induction s as [|c s IH]; simpl; [repeat constructor|].
  destruct (Ascii.eqb c "/"%char) eqn:Ec; [constructor; [reflexivity|exact IH]|].
  destruct (split_slash s) as [|h t]; simpl.
  - constructor; [|constructor]. simpl. rewrite Ec. reflexivity.
  - inversion IH; subst. constructor; [|assumption].
    simpl. rewrite Ec. simpl. assumption.
Qed.

Lemma segments_valid (s : string) : Forall valid_seg (segments s).
Proof.
  unfold segments. apply Forall_forall. intros x Hx.
  apply filter_In in Hx as [Hx Hne].
  split.
  - intros ->. discriminate.
  - pose proof (split_slash_pieces s) as H.
    rewrite Forall_forall in H. apply H, Hx.
Qed.

Lemma assoc_map_set_eq {A} (k : string) (v : A) (l : list (string * A)) :
  assoc k (map_set k v l) = Some v.
Proof.
  induction l as [|[k' v'] l IH]; simpl; [rewrite String.eqb_refl; reflexivity|].
  destruct (String.eqb k k') eqn:E; simpl; rewrite E; [reflexivity|exact IH].
Qed.

Lemma assoc_map_set_neq {A} (k k' : string) (v : A) (l : list (string * A)) :
  k' <> k -> assoc k' (map_set k v l) = assoc k' l.
Proof.
  intros Hne. induction l as [|[k0 v0] l IH]; simpl.
  - destruct (String.eqb_spec k' k); [contradiction|reflexivity].
  - destruct (String.eqb_spec k k0) as [->|_]; simpl.
    + destruct (String.eqb_spec k' k0); [contradiction|reflexivity].
    + destruct (String.eqb k' k0); [reflexivity|exact IH].
Qed.

Lemma assoc_In {A} (k : string) (v : A) (l : list (string * A)) :
  assoc k l = Some v -> In (k, v) l.
Proof.
  induction l as [|[k' v'] l IH]; simpl; [discriminate|].
  destruct (String.eqb_spec k k') as [->|_]; intros H.
  - injection H as ->. left; reflexivity.
  - right; apply IH, H.
Qed.

Lemma In_assoc {A} (k : string) (v : A) (l : list (string * A)) :
  NoDup (map fst l) -> In (k, v) l -> assoc k l = Some v.
Proof.
  induction l as [|[k' v'] l IH]; simpl; intros Hnd Hin; [contradiction|].
  inversion Hnd as [|? ? Hk Hnd']; subst.
  destruct Hin as [Heq|Hin].
  - injection Heq as -> ->. rewrite String.eqb_refl. reflexivity.
  - destruct (String.eqb_spec k k') as [->|_].
    + exfalso. apply Hk. apply (in_map fst) in Hin. exact Hin.
    + apply IH; assumption.
Qed.

Lemma assoc_keys {A} (k : string) (l : list (string * A)) :
  assoc k l <> None <-> In k (map fst l).
Proof.
  induction l as [|[k' v'] l IH]; simpl; [split; [congruence|contradiction]|].
  destruct (String.eqb_spec k k') as [->|Hne].
  - split; [auto|congruence].
  - rewrite IH. split; [auto|intros [H|H]; [congruence|exact H]].
Qed.

Lemma In_map_set {A} (k k' : string) (v v' : A) (l : list (string * A)) :
  In (k', v') (map_set k v l) -> (k' = k /\ v' = v) \/ In (k', v') l.
Proof.
  induction l as [|[k0 v0] l IH]; simpl.
  - intros [H|[]]. injection H as -> ->. left; auto.
  - destruct (String.eqb_spec k k0) as [->|_]; simpl.
    + intros [H|H]; [injection H as -> ->; left; auto|right; right; exact H].
    + intros [H|H]; [right; left; exact H|].
      destruct (IH H) as [H'|H']; [left; exact H'|right; right; exact H'].
Qed.

Lemma NoDup_set_add (x : string) (s : list string) :
  NoDup s -> NoDup (set_add x s).
Proof.
  intros H. unfold set_add. destruct (existsb (String.eqb x) s) eqn:E; [exact H|].
  apply NoDup_snoc; [exact H|]. intros Hin.
  assert (existsb (String.eqb x) s = true) as E'
    by (apply existsb_exists; exists x; split; [exact Hin|apply String.eqb_refl]).
  congruence.
Qed.

Lemma wf_new : wf_trie new_TrieNode.
Proof. constructor; constructor. Qed.

Lemma wf_insert (segs : list string) (t : TrieNode) :
  wf_trie t -> Forall valid_seg segs -> wf_trie (trie_insert segs t).
Proof.
  revert t; induction segs as [|s rest IH]; intros [ch b] Ht Hv;
    inversion Ht as [? ? Hnd Hall]; subst; simpl; [constructor; assumption|].
  inversion Hv as [|? ? Hs Hv']; subst.
  set (child := match assoc s ch with Some c => c | None => new_TrieNode end).
  assert (Hc : wf_trie child).
  { subst child. destruct (assoc s ch) as [c|] eqn:E; [|exact wf_new].
    apply assoc_In in E. rewrite Forall_forall in Hall. apply (Hall _ E). }
  constructor.
  - rewrite map_fst_map_set. apply NoDup_set_add, Hnd.
  - apply Forall_forall. intros [k c] Hin.
    destruct (In_map_set _ _ _ _ _ Hin) as [[-> ->]|H].
    + split; [exact Hs|apply IH; assumption].
    + rewrite Forall_forall in Hall. apply (Hall _ H).
Qed.

Lemma wf_build (D : list string) : wf_trie (build_trie D).
Proof.
  unfold build_trie. apply fold_left_inv; [exact wf_new|].
  intros t d _ Ht. apply wf_insert; [exact Ht|apply segments_valid].
Qed.

Lemma lookup_new (q : list string) :
  lookup new_TrieNode q <> None <-> q = [].
Proof. destruct q; simpl; split; congruence. Qed.

Lemma term_at_new (q : list string) : ~ term_at new_TrieNode q.
Proof. intros [sub [H Ht]]. destruct q; simpl in H; [injection H as <-|]; discriminate. Qed.

Lemma lookup_insert_node (segs : list string) (t : TrieNode) (q : list string) :
  lookup (trie_insert segs t) q <> None <->
  lookup t q <> None \/ exists r, segs = (q ++ r)%list.
Proof.
  revert t q; induction segs as [|s rest IH]; intros [ch b] q.
  - destruct q as [|s q]; simpl.
    + split; [left; congruence|congruence].
    + split; [left; exact H|]. intros [H|[r Hr]]; [exact H|discriminate].
  - destruct q as [|s' q]; simpl; [split; [left; congruence|congruence]|].
    destruct (String.eqb_spec s' s) as [->|Hne].
    + rewrite assoc_map_set_eq, IH.
      destruct (assoc s ch) as [c|] eqn:E.
      * split; intros [H|[r Hr]]; [left; exact H|right; exists r; congruence
          |left; exact H|right; exists r; congruence].
      * rewrite lookup_new. split.
        -- intros [->|[r ->]]; right; [exists rest|exists r]; reflexivity.
        -- intros [H|[r Hr]]; [congruence|injection Hr as ->; right; exists r; reflexivity].
    + rewrite assoc_map_set_neq by exact Hne.
      split; [intros H; left; exact H|].
      intros [H|[r Hr]]; [exact H|injection Hr as Hr _; congruence].
Qed.

Lemma lookup_insert_term (segs : list string) (t : TrieNode) (q : list string) :
  term_at (trie_insert segs t) q <-> term_at t q \/ q = segs.
Proof.
  unfold term_at.
  revert t q; induction segs as [|s rest IH]; intros [ch b] q.
  - destruct q as [|s q]; simpl.
    + split; [intros _; right; reflexivity|intros _; exists (TNode ch true); auto].
    + split; [intros H; left; exact H|intros [H|H]; [exact H|discriminate]].
  - destruct q as [|s' q]; simpl.
    + split.
      * intros [sub [Hs Ht]]. injection Hs as <-. left; exists (TNode ch b); auto.
      * intros [[sub [Hs Ht]]|H]; [|discriminate].
        injection Hs as <-. eexists; split; [reflexivity|exact Ht].
    + destruct (String.eqb_spec s' s) as [->|Hne].
      * rewrite assoc_map_set_eq, IH.
        destruct (assoc s ch) as [c|] eqn:E.
        -- split; intros [H|H]; [left; exact H|right; congruence
             |left; exact H|right; congruence].
        -- pose proof (term_at_new q) as Hn. unfold term_at in Hn.
           split; intros [H|H]; [contradiction|right; congruence
             |destruct H as [? [H _]]; discriminate|right; congruence].
      * rewrite assoc_map_set_neq by exact Hne.
        split; [intros H; left; exact H|intros [H|H]; [exact H|congruence]].
Qed.

Lemma build_node (D : list string) (t : TrieNode) (q : list string) :
  lookup (fold_left (fun t d => PathTrie_insert d t) D t) q <> None <->
  lookup t q <> None \/ exists d r, In d D /\ segments d = (q ++ r)%list.
Proof.
  revert t; induction D as [|d D IH]; intros t; simpl.
  - split; [intros H; left; exact H|intros [H|[? [? [[] _]]]]; exact H].
  - rewrite IH. unfold PathTrie_insert. rewrite lookup_insert_node.
    split.
    + intros [[H|[r Hr]]|[d' [r [Hd Hr]]]].
      * left; exact H.
      * right; exists d, r; auto.
      * right; exists d', r; auto.
    + intros [H|[d' [r [[<-|Hd] Hr]]]].
      * left; left; exact H.
      * left; right; exists r; exact Hr.
      * right; exists d', r; auto.
Qed.

Lemma build_term (D : list string) (t : TrieNode) (q : list string) :
  term_at (fold_left (fun t d => PathTrie_insert d t) D t) q <->
  term_at t q \/ exists d, In d D /\ segments d = q.
Proof.
  revert t; induction D as [|d D IH]; intros t; simpl.
  - split; [intros H; left; exact H|intros [H|[? [[] _]]]; exact H].
  - rewrite IH. unfold PathTrie_insert. rewrite lookup_insert_term.
    split.
    + intros [[H|H]|[d' [Hd Hr]]].
      * left; exact H.
      * right; exists d; auto.
      * right; exists d'; auto.
    + intros [H|[d' [[<-|Hd] Hr]]].
      * left; left; exact H.
      * left; right; symmetry; exact Hr.
      * right; exists d'; auto.
Qed.

Lemma build_trie_perm (D D' : list string) :
  Permutation D D' -> trie_equiv (build_trie D) (build_trie D').
Proof.
  intros Hp q. unfold build_trie. rewrite !build_node, !build_term.
  split; split.
  - intros [H|[d [r [Hd Hr]]]]; [left; exact H|right; exists d, r].
    split; [apply (Permutation_in _ Hp Hd)|exact Hr].
  - intros [H|[d [r [Hd Hr]]]]; [left; exact H|right; exists d, r].
    split; [apply (Permutation_in _ (Permutation_sym Hp) Hd)|exact Hr].
  - intros [H|[d [Hd Hr]]]; [left; exact H|right; exists d].
    split; [apply (Permutation_in _ Hp Hd)|exact Hr].
  - intros [H|[d [Hd Hr]]]; [left; exact H|right; exists d].
    split; [apply (Permutation_in _ (Permutation_sym Hp) Hd)|exact Hr].
Qed.

Lemma flat_map_ext_In {A B} (f g : A -> list B) (l : list A) :
  (forall a, In a l -> f a = g a) -> flat_map f l = flat_map g l.
Proof.
  induction l as [|a l IH]; simpl; intros H; [reflexivity|].
  rewrite H, IH by auto. reflexivity.
Qed.

Lemma flat_map_perm_pointwise {A B} (f g : A -> list B) (l : list A) :
  (forall a, In a l -> Permutation (f a) (g a)) ->
  Permutation (flat_map f l) (flat_map g l).
Proof.
  induction l as [|a l IH]; simpl; intros H; [constructor|].
  apply Permutation_app; auto.
Qed.

Lemma flat_map_keys {B} (f : string * TrieNode -> list B)
    (ch : list (string * TrieNode)) :
  NoDup (map fst ch) ->
  flat_map f ch =
  flat_map (fun k => match assoc k ch with Some c => f (k, c) | None => [] end)
    (map fst ch).
Proof.
  induction ch as [|[k c] ch IH]; simpl; intros Hnd; [reflexivity|].
  inversion Hnd as [|? ? Hk Hnd']; subst.
  rewrite String.eqb_refl. f_equal. rewrite IH by exact Hnd'.
  apply flat_map_ext_In. intros k' Hk'.
  destruct (String.eqb_spec k' k) as [->|_]; [contradiction|reflexivity].
Qed.

Lemma lookup_single (ch : list (string * TrieNode)) (b : bool) (k : string) :
  lookup (TNode ch b) [k] <> None <-> assoc k ch <> None.
Proof. simpl. destruct (assoc k ch); apply iff_refl. Qed.

Lemma lca_of_equiv (t : TrieNode) :
  wf_trie t -> forall t' p, wf_trie t' -> trie_equiv t t' ->
  Permutation (lca_of t p) (lca_of t' p).
Proof.
  induction t as [ch b IH] using TrieNode_ind'.
  intros Hw [ch' b'] p Hw' Heq.
  inversion Hw as [? ? Hnd Hall]; subst. inversion Hw' as [? ? Hnd' Hall']; subst.
  assert (Hb : b = b').
  { destruct (Heq []) as [_ Ht]. unfold term_at in Ht. simpl in Ht.
    destruct b, b'; try reflexivity; exfalso.
    - destruct (proj1 Ht (ex_intro _ (TNode ch true) (conj eq_refl eq_refl)))
        as [sub [E T]].
      injection E as <-. discriminate.
    - destruct (proj2 Ht (ex_intro _ (TNode ch' true) (conj eq_refl eq_refl)))
        as [sub [E T]].
      injection E as <-. discriminate. }
  subst b'.
  assert (Hkeys : forall k, In k (map fst ch) <-> In k (map fst ch')).
  { intros k. rewrite <- !assoc_keys, <- (lookup_single ch b k),
      <- (lookup_single ch' b k).
    apply (Heq [k]). }
  assert (Hperm : Permutation (map fst ch) (map fst ch'))
    by (apply NoDup_Permutation; assumption).
  assert (Hlen : length ch = length ch').
  { rewrite <- (length_map fst ch), <- (length_map fst ch').
    apply Permutation_length, Hperm. }
  assert (Hbelow :
    Permutation (flat_map (fun sc => lca_of (snd sc) (p ++ [fst sc])%list) ch)
                (flat_map (fun sc => lca_of (snd sc) (p ++ [fst sc])%list) ch')).
  { rewrite (flat_map_keys _ ch Hnd), (flat_map_keys _ ch' Hnd').
    eapply Permutation_trans; [apply (Permutation_flat_map _ Hperm)|].
    apply flat_map_perm_pointwise. intros k Hk.
    assert (Hk1 : In k (map fst ch)) by (apply Hkeys, Hk).
    apply assoc_keys in Hk1, Hk.
    destruct (assoc k ch) as [c|] eqn:E1; [|congruence].
    destruct (assoc k ch') as [c'|] eqn:E2; [|congruence].
    simpl.
    rewrite Forall_forall in IH, Hall, Hall'.
    pose proof (assoc_In _ _ _ E1) as I1. pose proof (assoc_In _ _ _ E2) as I2.
    apply (IH _ I1); [apply (Hall _ I1)|apply (Hall' _ I2)|].
    intros q. destruct (Heq (k :: q)) as [H1 H2].
    unfold term_at in H2 |- *. simpl in H1, H2. rewrite E1, E2 in H1, H2.
    split; assumption. }
  simpl. rewrite Hlen.
  destruct p; [exact Hbelow|].
  destruct ((1 <? length ch')%nat || b); [apply Permutation_refl|exact Hbelow].
Qed.

Lemma lca_of_spec (t : TrieNode) :
  wf_trie t -> forall p x, In x (lca_of t p) ->
  exists q sub, Forall valid_seg q /\ x = join (p ++ q)%list /\
    (p ++ q)%list <> [] /\ lookup t q = Some sub /\ marked sub = true /\
    (forall q1 q2 s1, q = (q1 ++ q2)%list -> q2 <> [] -> (p ++ q1)%list <> [] ->
       lookup t q1 = Some s1 -> marked s1 = false).
Proof.
  induction t as [ch b IH] using TrieNode_ind'.
  intros Hw p x Hx. inversion Hw as [? ? Hnd Hall]; subst.
  rewrite Forall_forall in IH, Hall.
  cbn [lca_of] in Hx.
  assert (Hcase : (p <> [] /\ ((1 <? length ch)%nat || b) = true /\ x = join p) \/
    ((p = [] \/ ((1 <? length ch)%nat || b) = false) /\
     In x (flat_map (fun sc => lca_of (snd sc) (p ++ [fst sc])%list) ch))).
  { destruct p as [|p0 p']; [right; auto|].
    destruct ((1 <? length ch)%nat || b) eqn:Ec.
    - left. destruct Hx as [<-|[]]. split; [discriminate|auto].
    - right. auto. }
  destruct Hcase as [[Hp [Hc ->]]|[Hc Hin]].
  - exists [], (TNode ch b). rewrite app_nil_r.
    refine (conj (Forall_nil _) (conj eq_refl (conj Hp (conj eq_refl (conj Hc _))))).
    intros q1 q2 s1 E Hq2. symmetry in E. apply app_eq_nil in E as [_ E].
    contradiction.
  - apply in_flat_map in Hin as [[k c] [Hkc Hx']]. simpl in Hx'.
    destruct (Hall _ Hkc) as [Hk Hwc]. simpl in Hk, Hwc.
    destruct (IH _ Hkc Hwc _ _ Hx') as [q [sub [Hq [Ex [Hne [Hl [Hm Hanc]]]]]]].
    assert (Hassoc : assoc k ch = Some c) by (apply In_assoc; assumption).
    exists (k :: q), sub.
    refine (conj _ (conj _ (conj _ (conj _ (conj Hm _))))).
    + constructor; assumption.
    + rewrite Ex, <- app_assoc. reflexivity.
    + destruct p; simpl; discriminate.
    + simpl. rewrite Hassoc. exact Hl.
    + intros q1 q2 s1 E Hq2 Hp1 Hl1. destruct q1 as [|k1 q1].
      * simpl in Hl1. injection Hl1 as <-. rewrite app_nil_r in Hp1.
        destruct Hc as [Hc|Hc]; [contradiction|exact Hc].
      * simpl in E. injection E as <- E. simpl in Hl1. rewrite Hassoc in Hl1.
        apply (Hanc q1 q2 s1 E Hq2); [|exact Hl1].
        rewrite <- app_assoc. destruct p; simpl; discriminate.
Qed.

Lemma sibling_no_prefix (p : list string) (k k' : string) (q : list string) :
  valid_seg k -> valid_seg k' -> k <> k' ->
  String.prefix (join (p ++ [k])%list ++ "/") (join (p ++ k' :: q)%list) = false.
Proof.
  intros [_ Hk] [_ Hk'] Hne.
  destruct (String.prefix _ _) eqn:E; [exfalso|reflexivity].
  assert (Hsh : exists rest, join (k' :: q) = (k' ++ rest)%string /\
                  (rest = EmptyString \/ exists r', rest = ("/" ++ r')%string)).
  { destruct q as [|s q].
    - exists EmptyString. split; [simpl; rewrite str_app_empty_r; reflexivity|left; reflexivity].
    - exists ("/" ++ join (s :: q))%string.
      split; [apply join_cons; discriminate|right; eexists; reflexivity]. }
  destruct Hsh as [rest [Ej Hr]].
  apply Hne. apply (seg_prefix_eq k k' rest Hk Hk' Hr). rewrite <- Ej.
  destruct p as [|p0 p'].
  - exact E.
  - rewrite (join_app (p0 :: p') [k]), (join_app (p0 :: p') (k' :: q)) in E
      by discriminate.
    rewrite !str_app_assoc in E.
    rewrite !str_prefix_app_l in E. exact E.
Qed.

Lemma filter_all_true {A} (f : A -> bool) (l : list A) :
  (forall x, In x l -> f x = true) -> filter f l = l.
Proof.
  induction l as [|a l IH]; simpl; intros H; [reflexivity|].
  rewrite H by auto. rewrite IH by auto. reflexivity.
Qed.

Lemma filter_all_false {A} (f : A -> bool) (l : list A) :
  (forall x, In x l -> f x = false) -> filter f l = [].
Proof.
  induction l as [|a l IH]; simpl; intros H; [reflexivity|].
  rewrite H by auto. apply IH. auto.
Qed.

(** The post-order traversal appends exactly [lca_of t p] to [results]
    when no entry of [results] lies below [p]. *)
Lemma postOrder_lca (t : TrieNode) :
  wf_trie t -> forall p R, Forall valid_seg p -> (p = [] -> R = []) ->
  (p <> [] -> forall r, In r R -> String.prefix (join p ++ "/") r = false) ->
  postOrder t p R = (R ++ lca_of t p)%list.
Proof.
  induction t as [ch b IH] using TrieNode_ind'.
  intros Hw p R Hp HR Hgood. inversion Hw as [? ? Hnd Hall]; subst.
  rewrite Forall_forall in IH, Hall.
  pose (out := fun sc : string * TrieNode => lca_of (snd sc) (p ++ [fst sc])%list).
  assert (Hfold : forall l done, ch = (done ++ l)%list ->
     fold_left (fun r sc => postOrder (snd sc) (p ++ [fst sc])%list r) l
       (R ++ flat_map out done)%list
     = (R ++ flat_map out done ++ flat_map out l)%list).
  { induction l as [|[k c] l IHl]; intros done Ech.
    - cbn [fold_left flat_map]. rewrite !app_nil_r. reflexivity.
    - cbn [fold_left].
      assert (Hin : In (k, c) ch)
        by (rewrite Ech; apply in_or_app; right; left; reflexivity).
      destruct (Hall _ Hin) as [Hk Hwc]. simpl in Hk, Hwc.
      rewrite (IH _ Hin Hwc); cbn [fst snd].
      +         replace ((R ++ flat_map out done) ++ lca_of c (p ++ [k]))%list
          with (R ++ flat_map out (done ++ [(k, c)]))%list.
        * rewrite (IHl (done ++ [(k, c)])%list)
            by (rewrite Ech, <- app_assoc; reflexivity).
          rewrite flat_map_app. cbn [flat_map]. rewrite app_nil_r, !app_assoc.
          reflexivity.
        * rewrite flat_map_app. cbn [flat_map]. rewrite app_nil_r, app_assoc.
          reflexivity.
      + apply Forall_app; split; [exact Hp|constructor; [exact Hk|constructor]].
      + intros E. apply app_eq_nil in E as [_ E]. discriminate.
      + intros _ r Hr. apply in_app_or in Hr as [Hr|Hr].
        * destruct p as [|p0 p'].
          { rewrite (HR eq_refl) in Hr. contradiction. }
          destruct (String.prefix _ r) eqn:E; [exfalso|reflexivity].
          rewrite (join_app (p0 :: p') [k]) in E by discriminate.
          rewrite !str_app_assoc, <- str_app_assoc in E.
          apply str_prefix_app_inv in E.
          rewrite (Hgood ltac:(discriminate) r Hr) in E. discriminate.
        * apply in_flat_map in Hr as [[k' c'] [Hd Hr]]. unfold out in Hr.
          simpl in Hr.
          assert (Hin' : In (k', c') ch)
            by (rewrite Ech; apply in_or_app; left; exact Hd).
          destruct (Hall _ Hin') as [Hk' Hwc']. simpl in Hk', Hwc'.
          destruct (lca_of_spec c' Hwc' _ _ Hr) as [q [_ [_ [Er _]]]].
          rewrite Er, <- app_assoc.
          apply sibling_no_prefix; [exact Hk|exact Hk'|].
          intros ->. pose proof Hnd as Hnd2.
          rewrite Ech, map_app in Hnd2. simpl in Hnd2.
          apply NoDup_remove_2 in Hnd2. apply Hnd2.
          apply in_or_app; left. apply (in_map fst _ _ Hd). }
  specialize (Hfold ch [] eq_refl). cbn [flat_map app] in Hfold.
  rewrite app_nil_r in Hfold.
  cbn [postOrder lca_of]. rewrite Hfold.
  destruct p as [|p0 p']; [reflexivity|].
  destruct ((1 <? length ch)%nat || b) eqn:Ec; [|reflexivity].
  assert (Hkeep : forall r, In r R ->
    negb (String.prefix (join (p0 :: p') ++ "/") r) = true).
  { intros r Hr. rewrite (Hgood ltac:(discriminate) r Hr). reflexivity. }
  assert (Hdrop : forall r, In r (flat_map out ch) ->
    negb (String.prefix (join (p0 :: p') ++ "/") r) = false).
  { intros r Hr. apply in_flat_map in Hr as [[k c] [Hin Hr]]. unfold out in Hr.
    cbn [fst snd] in Hr. destruct (Hall _ Hin) as [_ Hwc].
    destruct (lca_of_spec c Hwc _ _ Hr) as [q [_ [_ [Er _]]]].
    rewrite Er, <- app_assoc, join_app by (simpl; discriminate).
    rewrite <- str_app_assoc, str_prefix_app. reflexivity. }
  unfold prune. rewrite filter_app, (filter_all_true _ R Hkeep).
  fold out. rewrite (filter_all_false _ _ Hdrop), app_nil_r. reflexivity.
Qed.

Lemma computeLCA_lca (d1 d2 : string) (D : list string) :
  computeLCA (d1 :: d2 :: D) = lca_of (build_trie (d1 :: d2 :: D)) [].
Proof.
  unfold computeLCA, PathTrie_computeLCA. fold (build_trie (d1 :: d2 :: D)).
  rewrite (postOrder_lca _ (wf_build _) [] []); auto.
  intros []; reflexivity.
Qed.

(** C7: [computeLCA] does not depend on the enumeration order of the set:
    permuting the input permutes the output. No output path is a strict
    prefix, by ['/']-segments, of another output path. On [{a/b, a/c, a/d}]
    the result is [a], and [src/graph], [src/graph-store] are told apart
    (their result is [src]). *)
Theorem C7_computeLCA_order_free_antichain (D D' : list string)
    (Hperm : Permutation D D') :
  Permutation (computeLCA D) (computeLCA D') /\
  (forall x y, In x (computeLCA D) -> In y (computeLCA D) ->
     ~ seg_strict_prefix x y) /\
  computeLCA ["a/b"; "a/c"; "a/d"] = ["a"] /\
  computeLCA ["src/graph"; "src/graph-store"] = ["src"].
Proof.
  refine (conj _ (conj _ (conj _ _))).
  - destruct D as [|d1 [|d2 D]].
    + apply Permutation_nil in Hperm. subst D'. apply Permutation_refl.
    + apply Permutation_length_1_inv in Hperm. subst D'. apply Permutation_refl.
    + destruct D' as [|e1 [|e2 D']];
        [apply Permutation_length in Hperm; discriminate
        |apply Permutation_length in Hperm; discriminate|].
      rewrite !computeLCA_lca.
      apply lca_of_equiv; [apply wf_build|apply wf_build|].
      apply build_trie_perm, Hperm.
  - intros x y Hx Hy [r [Hr Hs]].
    destruct D as [|d1 [|d2 D]].
    + contradiction.
    + destruct Hx as [<-|[]]; destruct Hy as [<-|[]].
      apply (f_equal (@length string)) in Hs. rewrite length_app in Hs.
      destruct r; [congruence|simpl in Hs; lia].
    + rewrite computeLCA_lca in Hx, Hy.
      destruct (lca_of_spec _ (wf_build _) _ _ Hx)
        as [qx [sx [Hvx [Ex [Hnx [Hlx [Hmx _]]]]]]].
      destruct (lca_of_spec _ (wf_build _) _ _ Hy)
        as [qy [sy [Hvy [Ey [Hny [_ [_ Hanc]]]]]]].
      rewrite Ex, Ey, !segments_join in Hs by assumption.
      rewrite (Hanc qx r sx Hs Hr Hnx Hlx) in Hmx. discriminate.
  - vm_compute. reflexivity.
  - vm_compute. reflexivity.
Qed.

Lemma C7_witness :
  Permutation ["src/a"; "src/b"; "lib"] ["lib"; "src/b"; "src/a"] /\
  Permutation (computeLCA ["src/a"; "src/b"; "lib"])
              (computeLCA ["lib"; "src/b"; "src/a"]).
Proof.
  assert (H : Permutation ["src/a"; "src/b"; "lib"] ["lib"; "src/b"; "src/a"]).
  { apply (Permutation_rev ["src/a"; "src/b"; "lib"]). }
  split; [exact H|].
  apply (C7_computeLCA_order_free_antichain _ _ H).
Defined.

(** ** Grounding: graphs that differ only in HighLevel attributes *)

Lemma nodupb_NoDup (l : list string) : nodupb l = true -> NoDup l.
Proof.
  induction l as [|x l IH]; simpl; intros H; [constructor|].
  apply andb_prop in H as [H1 H2]. apply negb_true_iff in H1.
  constructor; [|auto]. intros Hin.
  assert (existsb (String.eqb x) l = true) as Hx
    by (apply existsb_exists; exists x; split; [exact Hin|apply String.eqb_refl]).
  congruence.
Qed.

Lemma same_shape_refl kv : same_shape kv kv.
Proof. unfold same_shape; auto. Qed.

Lemma same_shape_sym kv kv' : same_shape kv kv' -> same_shape kv' kv.
Proof.
  unfold same_shape, isLowLevelNode. intros (Hf & Hi & Ht & Hl).
  repeat split; auto. intros H. rewrite Ht in H. symmetry; auto.
Qed.

Lemma same_shape_trans kv1 kv2 kv3 :
  same_shape kv1 kv2 -> same_shape kv2 kv3 -> same_shape kv1 kv3.
Proof.
  unfold same_shape, isLowLevelNode. intros (Hf & Hi & Ht & Hl) (Hf' & Hi' & Ht' & Hl').
  repeat split; try congruence. intros H. rewrite Hl'; [auto|]. rewrite Ht; exact H.
Qed.

Lemma meta_only_refl g : meta_only g g.
Proof.
  split; [reflexivity|]. induction (g_nodes g); constructor; auto using same_shape_refl.
Qed.

Lemma meta_only_sym g g' : meta_only g g' -> meta_only g' g.
Proof.
  intros [He Hn]. split; [auto|]. induction Hn; constructor; auto using same_shape_sym.
Qed.

Lemma meta_only_trans g1 g2 g3 : meta_only g1 g2 -> meta_only g2 g3 -> meta_only g1 g3.
Proof.
  intros [He1 Hn1] [He2 Hn2]. split; [congruence|].
  revert Hn2. generalize (g_nodes g3). induction Hn1; intros l3 Hn2; inversion Hn2; subst.
  - constructor.
  - constructor; eauto using same_shape_trans.
Qed.

Lemma MO_keys g g' : meta_only g g' -> map fst (g_nodes g') = map fst (g_nodes g).
Proof. intros [_ Hn]. induction Hn; simpl; [reflexivity|]. f_equal; [apply H|assumption]. Qed.

Lemma MO_assoc (l l' : list (string * Node)) k :
  Forall2 same_shape l l' ->
  (assoc k l = None /\ assoc k l' = None) \/
  exists n n', assoc k l = Some n /\ assoc k l' = Some n' /\ node_rel n n'.
Proof.
  induction 1 as [|[k1 n1] [k2 n2] l l' Hs Hl IH]; simpl; [left; auto|].
  destruct Hs as (Hf & Hi & Ht & Hll); simpl in *. subst k2.
  destruct (String.eqb k k1); [|exact IH].
  right. exists n1, n2. unfold node_rel; auto.
Qed.

Lemma MO_getNode g g' k :
  meta_only g g' ->
  (getNode g k = None /\ getNode g' k = None) \/
  exists n n', getNode g k = Some n /\ getNode g' k = Some n' /\ node_rel n n'.
Proof. intros [_ Hn]. unfold getNode. apply MO_assoc, Hn. Qed.

Lemma MO_hasNode g g' k : meta_only g g' -> hasNode g' k = hasNode g k.
Proof.
  intros H. unfold hasNode. fold (getNode g k). fold (getNode g' k).
  destruct (MO_getNode g g' k H) as [[-> ->]|(n & n' & -> & -> & _)]; reflexivity.
Qed.

Lemma MO_getOutEdges g g' k et : meta_only g g' -> getOutEdges g' k et = getOutEdges g k et.
Proof.
  intros H. unfold getOutEdges, getEdges. rewrite (MO_hasNode g g' k H), (proj1 H). reflexivity.
Qed.

Lemma MO_getInEdges g g' k et : meta_only g g' -> getInEdges g' k et = getInEdges g k et.
Proof.
  intros H. unfold getInEdges, getEdges. rewrite (MO_hasNode g g' k H), (proj1 H). reflexivity.
Qed.

Lemma MO_nodes_at g g' f es :
  meta_only g g' -> Forall2 node_rel (nodes_at g f es) (nodes_at g' f es).
Proof.
  intros H. induction es as [|e es IH]; simpl; [constructor|].
  destruct (MO_getNode g g' (f e) H) as [[-> ->]|(n & n' & -> & -> & Hr)]; simpl; auto.
Qed.

Lemma MO_getChildren g g' v :
  meta_only g g' -> Forall2 node_rel (getChildren g v) (getChildren g' v).
Proof.
  intros H. unfold getChildren. rewrite (MO_getOutEdges g g' v _ H). apply MO_nodes_at, H.
Qed.

Lemma MO_getParent_None g g' k :
  meta_only g g' -> (getParent g' k = None <-> getParent g k = None).
Proof.
  intros H. unfold getParent. rewrite (MO_getInEdges g g' k _ H).
  destruct (getInEdges g k (Some Functional)) as [|e es]; [tauto|].
  destruct (MO_getNode g g' (source e) H) as [[-> ->]|(n & n' & -> & -> & _)];
    split; congruence.
Qed.

Lemma Forall2_In_l {A B} (R : A -> B -> Prop) l l' x :
  Forall2 R l l' -> In x l -> exists y, In y l' /\ R x y.
Proof.
  induction 1 as [|a b l l' Hab Hl IH]; simpl; [tauto|].
  intros [<-|Hin]; [eauto|]. destruct (IH Hin) as (y & ? & ?); eauto.
Qed.

Lemma hl_of_not_ll n : isLowLevelNode n = false -> isHighLevelNode n = true.
Proof. unfold isLowLevelNode, isHighLevelNode. destruct (type n); congruence. Qed.

Lemma not_hl_ll n : isHighLevelNode n = true -> isLowLevelNode n = true -> False.
Proof. unfold isLowLevelNode, isHighLevelNode. destruct (type n); congruence. Qed.

Lemma hl_reach_MO g g' v w : meta_only g g' -> hl_reach g v w -> hl_reach g' v w.
Proof.
  intros H R. induction R as [v|v c w (n & Hn & Hh) Hc R IH]; [constructor|].
  destruct (MO_getNode g g' v H) as [[Hn' _]|(n1 & n1' & Hn1 & Hn1' & Hr)]; [congruence|].
  rewrite Hn in Hn1. injection Hn1 as <-.
  destruct (Forall2_In_l _ _ _ _ (MO_getChildren g g' v H) Hc) as (c' & Hc' & (Hid & _)).
  apply (hl_step g' v c' w).
  - exists n1'. split; [exact Hn1'|]. destruct Hr as (_ & Ht & _).
    unfold isHighLevelNode in *. rewrite Ht. exact Hh.
  - exact Hc'.
  - rewrite Hid. exact IH.
Qed.

Lemma reach_dir_MO g g' v d : meta_only g g' -> reach_dir g v d -> reach_dir g' v d.
Proof.
  intros H (w & n & Hr & Hn & Hl & Hd). exists w, n.
  split; [eapply hl_reach_MO; eauto|].
  destruct (MO_getNode g g' w H) as [[Hn' _]|(n1 & n1' & Hn1 & Hn1' & (_ & _ & Hr1))];
    [congruence|].
  rewrite Hn in Hn1. injection Hn1 as <-. rewrite (Hr1 Hl) in Hn1'. auto.
Qed.

Lemma reach_dir_none g v d : getNode g v = None -> ~ reach_dir g v d.
Proof.
  intros Hn (w & n & Hr & Hw & _). inversion Hr as [v0 Hv Hw0|v0 c w0 (n0 & Hn0 & _) Hc Hr' Hv Hw0];
    subst; congruence.
Qed.

Lemma reach_dir_ll g v n d :
  getNode g v = Some n -> isLowLevelNode n = true -> (reach_dir g v d <-> In d (dir_of n)).
Proof.
  intros Hn Hl. split.
  - intros (w & n1 & Hr & Hw & _ & Hd).
    inversion Hr as [v0 Hv Hw0|v0 c w0 (n0 & Hn0 & Hh) Hc Hr' Hv Hw0]; subst.
    + rewrite Hn in Hw. injection Hw as <-. exact Hd.
    + rewrite Hn in Hn0. injection Hn0 as <-. exfalso; eapply not_hl_ll; eauto.
  - intros Hd. exists v, n. repeat split; auto. constructor.
Qed.

Lemma reach_dir_hl g v n d :
  getNode g v = Some n -> isLowLevelNode n = false ->
  (reach_dir g v d <-> exists c, In c (getChildren g v) /\ reach_dir g (id c) d).
Proof.
  intros Hn Hl. split.
  - intros (w & n1 & Hr & Hw & Hl1 & Hd).
    inversion Hr as [v0 Hv Hw0|v0 c w0 Hh Hc Hr' Hv Hw0]; subst.
    + rewrite Hn in Hw. injection Hw as <-. congruence.
    + exists c. split; [exact Hc|]. exists w, n1. auto.
  - intros (c & Hc & (w & n1 & Hr & Hw & Hl1 & Hd)). exists w, n1.
    repeat split; auto. apply (hl_step g v c w); auto.
    exists n. split; [exact Hn|]. apply hl_of_not_ll, Hl.
Qed.

Lemma NoDup_dir_of n : NoDup (dir_of n).
Proof.
  unfold dir_of. destruct (metadata n) as [m|]; [|constructor].
  destruct (path m) as [p|]; [|constructor].
  destruct (truthy p); repeat constructor; auto.
Qed.

Lemma In_set_add x d s : In x (set_add d s) <-> In x s \/ x = d.
Proof.
  unfold set_add. destruct (existsb (String.eqb d) s) eqn:E.
  - split; [tauto|]. intros [H| ->]; [exact H|].
    apply existsb_exists in E as (y & Hy & Heq). apply String.eqb_eq in Heq. subst; exact Hy.
  - rewrite in_app_iff. simpl. intuition.
Qed.

Lemma fold_set_add_spec (ds acc : list string) :
  NoDup acc ->
  NoDup (fold_left (fun s d => set_add d s) ds acc) /\
  forall x, In x (fold_left (fun s d => set_add d s) ds acc) <-> In x acc \/ In x ds.
Proof.
  revert acc. induction ds as [|a ds IH]; simpl; intros acc Hacc; [split; [auto|tauto]|].
  destruct (IH (set_add a acc) (NoDup_set_add a acc Hacc)) as [H1 H2].
  split; [exact H1|]. intros x. rewrite H2, In_set_add. intuition.
Qed.

Lemma children_spec (rec : string -> M (list string)) (g : RPG)
    (Q Fr : string -> string -> Prop) :
  (forall nid g0 D g1, meta_only g g0 -> rec nid g0 = (Ok D, g1) ->
     meta_only g0 g1 /\ NoDup D /\ (forall d, In d D <-> Q nid d) /\
     (forall k, ~ Fr nid k -> getNode g1 k = getNode g0 k)) ->
  forall cs acc g0 D g1, meta_only g g0 -> NoDup acc ->
  propagate_children rec cs acc g0 = (Ok D, g1) ->
  meta_only g0 g1 /\ NoDup D /\
  (forall d, In d D <-> In d acc \/ exists c, In c cs /\ Q (id c) d) /\
  (forall k, (forall c, In c cs -> ~ Fr (id c) k) -> getNode g1 k = getNode g0 k).
Proof.
  intros Hrec cs. induction cs as [|c cs IH]; intros acc g0 D g1 Hg0 Hacc Hrun;
    cbn [propagate_children] in Hrun; unfold bind, ret in Hrun.
  - injection Hrun as <- <-. split; [apply meta_only_refl|]. split; [exact Hacc|].
    split; [|reflexivity]. intros d. split; [tauto|]. intros [H|(c & [] & _)]; exact H.
  - destruct (rec (id c) g0) as [[D1|e] g2] eqn:E; [|discriminate].
    destruct (Hrec (id c) g0 D1 g2 Hg0 E) as (M1 & N1 & I1 & F1).
    destruct (fold_set_add_spec D1 acc Hacc) as [N2 I2].
    destruct (IH _ g2 D g1 (meta_only_trans _ _ _ Hg0 M1) N2 Hrun) as (M3 & N3 & I3 & F3).
    split; [eapply meta_only_trans; eauto|]. split; [exact N3|]. split.
    + intros d. rewrite I3, I2, I1. split.
      * intros [[H|H]|(c' & Hc' & Hq)];
          [left; exact H|right; exists c; simpl; auto|right; exists c'; simpl; auto].
      * intros [H|(c' & [<-|Hc'] & Hq)];
          [left; left; exact H|left; right; exact Hq|right; exists c'; auto].
    + intros k Hk. rewrite F3, F1; [reflexivity| |].
      * apply Hk; simpl; auto.
      * intros c' Hc'. apply Hk; simpl; auto.
Qed.

Lemma update_assoc nid u (l : list (string * Node)) k :
  assoc k (map (fun kv => if String.eqb (fst kv) nid
                          then (fst kv, mergeNodeAttributes (snd kv) u) else kv) l) =
  if String.eqb k nid then option_map (fun n => mergeNodeAttributes n u) (assoc k l)
  else assoc k l.
Proof.
  induction l as [|[k' n] l IH]; simpl; [destruct (String.eqb k nid); reflexivity|].
  destruct (String.eqb k' nid) eqn:E1; simpl; destruct (String.eqb k k') eqn:E2;
    try exact IH.
  - apply String.eqb_eq in E1, E2. subst. rewrite String.eqb_refl. reflexivity.
  - apply String.eqb_eq in E2. subst. rewrite E1. reflexivity.
Qed.

Lemma update_shape nid u (l : list (string * Node)) :
  NoDup (map fst l) -> u_id u = None -> u_type u = None ->
  (forall n, assoc nid l = Some n -> isLowLevelNode n = false) ->
  Forall2 same_shape l
    (map (fun kv => if String.eqb (fst kv) nid
                    then (fst kv, mergeNodeAttributes (snd kv) u) else kv) l).
Proof.
  induction l as [|[k n] l IH]; simpl; intros Hnd Hi Ht Hll; constructor.
  - destruct (String.eqb k nid) eqn:E; [|apply same_shape_refl].
    unfold same_shape, mergeNodeAttributes; simpl. rewrite Hi, Ht.
    repeat split. intros HL. apply String.eqb_eq in E. subst.
    rewrite (Hll n) in HL; [discriminate|]. rewrite String.eqb_refl. reflexivity.
  - inversion Hnd as [|k0 l0 Hk Hnd']; subst.
    apply IH; auto. intros n' Hn'. destruct (String.eqb nid k) eqn:E.
    + apply String.eqb_eq in E. subst. exfalso. apply Hk.
      apply assoc_keys. congruence.
    + apply Hll. exact Hn'.
Qed.

Lemma update_run g nid u :
  hasNode g nid = true -> updateNode nid u g = (Ok tt, snd (updateNode nid u g)).
Proof. intros H. unfold updateNode. rewrite H. reflexivity. Qed.

Lemma update_getNode g nid u k :
  getNode (snd (updateNode nid u g)) k =
  if hasNode g nid
  then (if String.eqb k nid then option_map (fun n => mergeNodeAttributes n u) (getNode g k)
        else getNode g k)
  else getNode g k.
Proof.
  unfold updateNode. destruct (hasNode g nid); [|reflexivity]. apply update_assoc.
Qed.

Lemma update_meta_only g nid u :
  NoDup (map fst (g_nodes g)) -> u_id u = None -> u_type u = None ->
  (forall n, getNode g nid = Some n -> isLowLevelNode n = false) ->
  meta_only g (snd (updateNode nid u g)).
Proof.
  intros Hnd Hi Ht Hll. unfold updateNode.
  destruct (hasNode g nid); [|apply meta_only_refl].
  split; [reflexivity|]. apply update_shape; auto.
Qed.

Lemma propagate_spec fuel : forall nid g D g',
  NoDup (map fst (g_nodes g)) ->
  propagate fuel nid g = (Ok D, g') ->
  meta_only g g' /\ NoDup D /\ (forall d, In d D <-> reach_dir g nid d) /\
  (forall k, ~ hl_reach g nid k -> getNode g' k = getNode g k) /\
  (forall n m, getNode g nid = Some n -> isHighLevelNode n = true ->
     ground_meta (metadata n) (computeLCA D) = Some m ->
     exists n', getNode g' nid = Some n' /\ metadata n' = Some m).
Proof.
  induction fuel as [|fuel IH]; intros nid g D g' Hnd Hrun;
    [cbn in Hrun; discriminate|].
  cbn [propagate] in Hrun. unfold bind, gets, ret in Hrun. cbn beta iota in Hrun.
  destruct (getNode g nid) as [node|] eqn:Hn.
  2:{ injection Hrun as <- <-. split; [apply meta_only_refl|]. split; [constructor|].
      split; [|split; [reflexivity|intros n m Hn'; congruence]].
      intros d. split; [intros []|]. intros Hr. exfalso. exact (reach_dir_none g nid d Hn Hr). }
  destruct (isLowLevelNode node) eqn:Hl.
  { injection Hrun as <- <-. split; [apply meta_only_refl|]. split; [apply NoDup_dir_of|].
    split; [|split; [reflexivity|]].
    - intros d. symmetry. apply (reach_dir_ll g nid node d Hn Hl).
    - intros n m Hn' Hh. injection Hn' as Hn'; subst n.
      exfalso; eapply not_hl_ll; eauto. }
  destruct (propagate_children (propagate fuel) (getChildren g nid) [] g)
    as [[D1|e] g1] eqn:E1; [|discriminate].
  assert (Hrec : forall nid0 g0 D0 g2, meta_only g g0 ->
            propagate fuel nid0 g0 = (Ok D0, g2) ->
            meta_only g0 g2 /\ NoDup D0 /\ (forall d, In d D0 <-> reach_dir g nid0 d) /\
            (forall k, ~ hl_reach g nid0 k -> getNode g2 k = getNode g0 k)).
  { intros nid0 g0 D0 g2 Hg0 Hr0.
    assert (Hnd0 : NoDup (map fst (g_nodes g0))) by (rewrite (MO_keys g g0 Hg0); exact Hnd).
    destruct (IH nid0 g0 D0 g2 Hnd0 Hr0) as (M0 & N0 & I0 & F0 & _).
    split; [exact M0|]. split; [exact N0|]. split.
    - intros d. rewrite I0. split; [apply reach_dir_MO, meta_only_sym, Hg0|apply reach_dir_MO, Hg0].
    - intros k Hk. apply F0. intros Hr. apply Hk. eapply hl_reach_MO; [apply meta_only_sym, Hg0|exact Hr]. }
  destruct (children_spec (propagate fuel) g (reach_dir g) (hl_reach g) Hrec
              (getChildren g nid) [] g D1 g1 (meta_only_refl g) (NoDup_nil _) E1)
    as (M1 & N1 & I1 & F1).
  assert (ID1 : forall d, In d D1 <-> reach_dir g nid d).
  { intros d. rewrite I1, (reach_dir_hl g nid node d Hn Hl). simpl. intuition. }
  assert (FR1 : forall k, ~ hl_reach g nid k -> getNode g1 k = getNode g k).
  { intros k Hk. apply F1. intros c Hc Hr. apply Hk.
    apply (hl_step g nid c k); auto. exists node. split; [exact Hn|apply hl_of_not_ll, Hl]. }
  assert (Hnd1 : NoDup (map fst (g_nodes g1))) by (rewrite (MO_keys g g1 M1); exact Hnd).
  destruct (MO_getNode g g1 nid M1) as [[Hx _]|(n0 & n1 & Hn0 & Hn1 & Hr1)]; [congruence|].
  rewrite Hn in Hn0. injection Hn0 as <-.
  assert (Hll1 : forall n, getNode g1 nid = Some n -> isLowLevelNode n = false).
  { intros n Hn'. rewrite Hn1 in Hn'. injection Hn' as <-. destruct Hr1 as (_ & Ht & _).
    unfold isLowLevelNode in *. rewrite Ht. exact Hl. }
  assert (Hhas1 : hasNode g1 nid = true) by (unfold hasNode; fold (getNode g1 nid); rewrite Hn1; reflexivity).
  destruct (isHighLevelNode node && (0 <? length D1)%nat) eqn:Ec.
  - destruct (ground_meta (metadata node) (computeLCA D1)) as [m|] eqn:Eg.
    + rewrite (update_run g1 nid _ Hhas1) in Hrun. injection Hrun as <- <-.
      assert (M2 : meta_only g1 (snd (updateNode nid (meta_update m) g1)))
        by (apply update_meta_only; auto).
      split; [eapply meta_only_trans; eauto|]. split; [exact N1|]. split; [exact ID1|]. split.
      * intros k Hk. rewrite update_getNode, Hhas1.
        destruct (String.eqb k nid) eqn:Ek.
        -- apply String.eqb_eq in Ek. subst. exfalso. apply Hk. constructor.
        -- apply FR1, Hk.
      * intros n m' Hn' Hh Eg'. injection Hn' as Hn'; subst n.
        rewrite Eg in Eg'. injection Eg' as <-.
        rewrite update_getNode, Hhas1, String.eqb_refl, Hn1.
        eexists. split; reflexivity.
    + injection Hrun as <- <-. split; [exact M1|]. split; [exact N1|]. split; [exact ID1|].
      split; [exact FR1|]. intros n m Hn' Hh Eg'. injection Hn' as Hn'; subst n.
      congruence.
  - injection Hrun as <- <-. split; [exact M1|]. split; [exact N1|]. split; [exact ID1|].
    split; [exact FR1|]. intros n m Hn' Hh Eg'. injection Hn' as Hn'; subst n.
    rewrite Hh in Ec. simpl in Ec. destruct D1; [discriminate|discriminate].
Qed.

(** ** Grounding: the default sort and the written metadata *)

Lemma str_compare_refl s : String.compare s s = Eq.
Proof.
  induction s as [|c s IH]; simpl; [reflexivity|].
  unfold Ascii.compare. rewrite N.compare_refl. exact IH.
Qed.

Lemma str_le_refl s : str_le s s.
Proof. unfold str_le, String.leb. rewrite str_compare_refl. reflexivity. Qed.

Lemma str_compare_trans a b c :
  String.compare a b <> Gt -> String.compare b c <> Gt -> String.compare a c <> Gt.
Proof.
  revert b c. induction a as [|x a IH]; intros [|y b] [|z c]; simpl; try congruence.
  unfold Ascii.compare.
  destruct (N.compare_spec (N_of_ascii x) (N_of_ascii y));
  destruct (N.compare_spec (N_of_ascii y) (N_of_ascii z));
  destruct (N.compare_spec (N_of_ascii x) (N_of_ascii z));
  try congruence; try lia. eauto.
Qed.

Lemma str_le_trans a b c : str_le a b -> str_le b c -> str_le a c.
Proof.
  unfold str_le, String.leb. intros H1 H2.
  assert (H3 : String.compare a c <> Gt).
  { apply (str_compare_trans a b c);
      [destruct (String.compare a b)|destruct (String.compare b c)]; congruence. }
  destruct (String.compare a c); congruence.
Qed.

Lemma str_le_flip a b : String.leb a b = false -> str_le b a.
Proof. unfold str_le. intros H. destruct (String.leb_total a b); congruence. Qed.

Lemma insert_sorted_perm x l : Permutation (insert_sorted x l) (x :: l).
Proof.
  induction l as [|y l IH]; simpl; [reflexivity|].
  destruct (String.leb y x); [|reflexivity].
  etransitivity; [apply perm_skip, IH|apply perm_swap].
Qed.

Lemma insert_sorted_sorted x l :
  StronglySorted str_le l -> StronglySorted str_le (insert_sorted x l).
Proof.
  induction l as [|y l IH]; simpl; intros H; [repeat constructor|].
  inversion H as [|y0 l0 Hs Hf]; subst.
  destruct (String.leb y x) eqn:E.
  - constructor; [apply IH, Hs|]. apply Forall_forall. intros z Hz.
    apply (Permutation_in _ (insert_sorted_perm x l)) in Hz. destruct Hz as [<-|Hz].
    + exact E.
    + rewrite Forall_forall in Hf. auto.
  - constructor; [exact H|]. apply str_le_flip in E. constructor; [exact E|].
    apply Forall_forall. intros z Hz. rewrite Forall_forall in Hf.
    eapply str_le_trans; eauto.
Qed.

Lemma js_sort_spec_acc l acc :
  StronglySorted str_le acc ->
  Permutation (fold_left (fun acc x => insert_sorted x acc) l acc) (l ++ acc) /\
  StronglySorted str_le (fold_left (fun acc x => insert_sorted x acc) l acc).
Proof.
  revert acc. induction l as [|a l IH]; simpl; intros acc Hs; [split; [reflexivity|exact Hs]|].
  destruct (IH (insert_sorted a acc) (insert_sorted_sorted a acc Hs)) as [Hp Hs'].
  split; [|exact Hs'].
  etransitivity; [exact Hp|].
  apply Permutation_trans with (l ++ a :: acc)%list.
  - apply Permutation_app_head, insert_sorted_perm.
  - symmetry. apply Permutation_middle.
Qed.

Lemma js_sort_perm l : Permutation (js_sort l) l.
Proof.
  unfold js_sort. rewrite <- (app_nil_r l) at 2. apply js_sort_spec_acc. constructor.
Qed.

Lemma js_sort_sorted l : StronglySorted str_le (js_sort l).
Proof. apply js_sort_spec_acc. constructor. Qed.

Lemma js_sort_head l :
  l <> [] -> In (hd "" (js_sort l)) l /\ forall x, In x l -> str_le (hd "" (js_sort l)) x.
Proof.
  intros Hne. pose proof (js_sort_perm l) as Hp. pose proof (js_sort_sorted l) as Hs.
  destruct (js_sort l) as [|h t] eqn:E.
  - apply Permutation_nil in Hp. congruence.
  - simpl. split; [apply (Permutation_in _ Hp); simpl; auto|].
    intros x Hx. apply (Permutation_in _ (Permutation_sym Hp)) in Hx.
    inversion Hs as [|h0 t0 Hs' Hf]; subst. destruct Hx as [<-|Hx].
    + apply str_le_refl.
    + rewrite Forall_forall in Hf. auto.
Qed.

Lemma ground_meta_spec m L m' :
  ground_meta m L = Some m' ->
  L <> [] /\ entityType m' = Some "module" /\
  (exists p, path m' = Some p /\ In p L /\ forall x, In x L -> str_le p x) /\
  (forall mm, m = Some mm ->
     qualifiedName m' = qualifiedName mm /\ language m' = language mm /\
     startLine m' = startLine mm /\ endLine m' = endLine mm) /\
  (length L = 1 -> extra m' = meta_extra m) /\
  (1 < length L ->
     extra m' = Some (map_set "paths" (JStrs (js_sort L))
                        match meta_extra m with Some e => e | None => [] end) /\
     Permutation (js_sort L) L /\ StronglySorted str_le (js_sort L)).
Proof.
  intros H. assert (Hne : L <> []) by (intros ->; discriminate H).
  split; [exact Hne|].
  destruct L as [|p [|p2 L']]; [congruence| |].
  - injection H as <-. destruct m as [mm|]; simpl.
    + split; [reflexivity|]. split; [exists p; simpl; intuition; subst; apply str_le_refl|].
      split; [intros mm' Hm; injection Hm as <-; auto|].
      split; [reflexivity|simpl; lia].
    + split; [reflexivity|]. split; [exists p; simpl; intuition; subst; apply str_le_refl|].
      split; [discriminate|]. split; [reflexivity|simpl; lia].
  - cbv zeta in H. injection H as <-.
    destruct (js_sort_head (p :: p2 :: L') Hne) as [Hin Hmin].
    destruct m as [mm|]; simpl.
    + split; [reflexivity|]. split; [exists (hd "" (js_sort (p :: p2 :: L'))); auto|].
      split; [intros mm' Hm; injection Hm as <-; auto|].
      split; [simpl; lia|]. intros _. split; [reflexivity|].
      split; [apply js_sort_perm|apply js_sort_sorted].
    + split; [reflexivity|]. split; [exists (hd "" (js_sort (p :: p2 :: L'))); auto|].
      split; [discriminate|].
      split; [simpl; lia|]. intros _. split; [reflexivity|].
      split; [apply js_sort_perm|apply js_sort_sorted].
Qed.

Lemma ground_loop_frame fuel ns : forall g g',
  NoDup (map fst (g_nodes g)) ->
  ground_loop fuel ns g = (Ok tt, g') ->
  meta_only g g' /\
  forall k, (forall r, In r ns -> getParent g (id r) = None -> ~ hl_reach g (id r) k) ->
  getNode g' k = getNode g k.
Proof.
  induction ns as [|n ns IH]; intros g g' Hnd Hrun;
    cbn [ground_loop] in Hrun; unfold bind, gets, ret in Hrun; cbn beta iota in Hrun.
  - injection Hrun as <-. split; [apply meta_only_refl|reflexivity].
  - destruct (getParent g (id n)) as [p|] eqn:Hp.
    + destruct (IH g g' Hnd Hrun) as [M1 F1]. split; [exact M1|].
      intros k Hk. apply F1. intros r Hr. apply Hk. simpl; auto.
    + destruct (propagate fuel (id n) g) as [[D|e] g1] eqn:E1; [|discriminate].
      destruct (propagate_spec fuel (id n) g D g1 Hnd E1) as (M1 & _ & _ & F1 & _).
      assert (Hnd1 : NoDup (map fst (g_nodes g1))) by (rewrite (MO_keys g g1 M1); exact Hnd).
      destruct (IH g1 g' Hnd1 Hrun) as [M2 F2].
      split; [eapply meta_only_trans; eauto|].
      intros k Hk. rewrite F2.
      * apply F1. apply Hk; simpl; auto.
      * intros r Hr Hp1 Hre. apply (Hk r); simpl; auto.
        -- apply (MO_getParent_None g g1 (id r) M1), Hp1.
        -- eapply hl_reach_MO; [apply meta_only_sym, M1|exact Hre].
Qed.

(** C6 (claim), counterexample. In [g_deep] the HighLevel root [H] has the
    LowLevel child [F] ([src/a.ts]), which has the LowLevel leaf [E]
    ([lib/b.ts]); [propagate] stops at [F], so [H] is grounded at [src],
    not at the directory [lib] of its leaf. The root [K] is above a LowLevel
    node [P] without a path whose leaf [Q] has one: [K] keeps no metadata. *)
Lemma C6_first_lowlevel_not_leaves :
  fst (ground g_deep) = Ok tt /\
  map id (getChildren g_deep "H") = ["F"] /\
  map id (getChildren g_deep "F") = ["E"] /\
  getChildren g_deep "E" = [] /\
  map id (getChildren g_deep "K") = ["P"] /\
  map id (getChildren g_deep "P") = ["Q"] /\
  getChildren g_deep "Q" = [] /\
  dirname "lib/b.ts" = "lib" /\
  option_map (fun n => option_map path (metadata n)) (getNode (snd (ground g_deep)) "H")
    = Some (Some (Some "src")) /\
  option_map metadata (getNode (snd (ground g_deep)) "K") = Some None.
Proof. repeat split; vm_compute; reflexivity. Qed.

(** ** Grounding: the state after [ground()] *)

Lemma computeLCA_perm (D D' : list string) :
  Permutation D D' -> Permutation (computeLCA D) (computeLCA D').
Proof.
  intros Hperm. destruct D as [|d1 [|d2 D]].
  - apply Permutation_nil in Hperm. subst D'. apply Permutation_refl.
  - apply Permutation_length_1_inv in Hperm. subst D'. apply Permutation_refl.
  - destruct D' as [|e1 [|e2 D']];
      [apply Permutation_length in Hperm; discriminate
      |apply Permutation_length in Hperm; discriminate|].
    rewrite !computeLCA_lca.
    apply lca_of_equiv; [apply wf_build|apply wf_build|].
    apply build_trie_perm, Hperm.
Qed.

Lemma sorted_perm_eq (l1 l2 : list string) :
  StronglySorted str_le l1 -> StronglySorted str_le l2 -> Permutation l1 l2 -> l1 = l2.
Proof.
  revert l2. induction l1 as [|a l1 IH]; intros l2 S1 S2 P.
  - symmetry. apply Permutation_nil, P.
  - destruct l2 as [|b l2].
    + apply Permutation_sym, Permutation_nil in P. discriminate.
    + apply StronglySorted_inv in S1 as [S1 F1]. apply StronglySorted_inv in S2 as [S2 F2].
      rewrite Forall_forall in F1, F2.
      assert (Hab : a = b).
      { assert (Hb : In b (a :: l1)) by (apply (Permutation_in _ (Permutation_sym P)); left; reflexivity).
        assert (Ha : In a (b :: l2)) by (apply (Permutation_in _ P); left; reflexivity).
        destruct Hb as [->|Hb]; [reflexivity|]. destruct Ha as [->|Ha]; [reflexivity|].
        apply String.leb_antisym; [apply F1, Hb|apply F2, Ha]. }
      subst b. f_equal. apply IH; [exact S1|exact S2|]. exact (Permutation_cons_inv P).
Qed.

Lemma js_sort_perm_eq (L L' : list string) : Permutation L L' -> js_sort L = js_sort L'.
Proof.
  intros P. apply sorted_perm_eq; [apply js_sort_sorted|apply js_sort_sorted|].
  eapply Permutation_trans; [apply js_sort_perm|].
  eapply Permutation_trans; [exact P|]. apply Permutation_sym, js_sort_perm.
Qed.

Lemma ground_meta_perm (m : option StructuralMetadata) (L L' : list string) :
  Permutation L L' -> ground_meta m L = ground_meta m L'.
Proof.
  intros P. destruct L as [|p [|p2 L]].
  - apply Permutation_nil in P. subst L'. reflexivity.
  - apply Permutation_length_1_inv in P. subst L'. reflexivity.
  - destruct L' as [|q [|q2 L']];
      [apply Permutation_length in P; discriminate
      |apply Permutation_length in P; discriminate|].
    unfold ground_meta. cbv beta iota zeta. rewrite (js_sort_perm_eq _ _ P). reflexivity.
Qed.

Lemma map_set_idem {A : Type} (k : string) (v : A) (l : list (string * A)) :
  map_set k v (map_set k v l) = map_set k v l.
Proof.
  induction l as [|[k' v'] l IH]; cbn [map_set].
  - rewrite String.eqb_refl. reflexivity.
  - destruct (String.eqb k k') eqn:E; cbn [map_set]; rewrite E; [reflexivity|].
    rewrite IH. reflexivity.
Qed.

Lemma ground_meta_idem (m : option StructuralMetadata) (L : list string) (m1 : StructuralMetadata) :
  ground_meta m L = Some m1 -> ground_meta (Some m1) L = Some m1.
Proof.
  intros H. destruct L as [|p [|p2 L]]; [discriminate| |].
  - cbn in H. injection H as <-. destruct m; reflexivity.
  - unfold ground_meta in *. cbv beta iota zeta in *.
    set (s := js_sort (p :: p2 :: L)) in *. injection H as <-.
    destruct m as [mm|]; cbn [spread_meta meta_extra extra qualifiedName language startLine endLine];
      rewrite map_set_idem; reflexivity.
Qed.

Lemma ground_node_perm (n : Node) (D D' : list string) :
  Permutation D D' -> ground_node n D = ground_node n D'.
Proof.
  intros P. unfold ground_node. rewrite (ground_meta_perm _ _ _ (computeLCA_perm D D' P)).
  reflexivity.
Qed.

Lemma ground_node_type (n : Node) (D : list string) : type (ground_node n D) = type n.
Proof.
  unfold ground_node. destruct (isHighLevelNode n); [|reflexivity].
  destruct (ground_meta (metadata n) (computeLCA D)); reflexivity.
Qed.

Lemma enum_perm (g : RPG) (k : string) (D D' : list string) :
  NoDup D -> NoDup D' -> (forall d, In d D <-> reach_dir g k d) ->
  (forall d, In d D' <-> reach_dir g k d) -> Permutation D D'.
Proof.
  intros N N' E E'. apply NoDup_Permutation; [exact N|exact N'|].
  intros x. rewrite E, E'. reflexivity.
Qed.

Lemma grounded_form (g : RPG) (k : string) (x : Node) (D : list string) :
  NoDup D -> (forall d, In d D <-> reach_dir g k d) ->
  grounded g k x -> exists n, getNode g k = Some n /\ x = ground_node n D.
Proof.
  intros N E (n & D0 & Hn & N0 & E0 & ->). exists n. split; [exact Hn|].
  apply ground_node_perm, (enum_perm g k); assumption.
Qed.

(** The node [propagate] leaves at a HighLevel node: it read [node] before
    the loop over the children and finds [node'] when it writes; both are
    the node of [g] or its grounded form. *)
Lemma visit_result (n node node' : Node) (D : list string) :
  isLowLevelNode n = false ->
  (node = n \/ node = ground_node n D) -> (node' = n \/ node' = ground_node n D) ->
  (if isHighLevelNode node && (0 <? length D)%nat then
     match ground_meta (metadata node) (computeLCA D) with
     | Some m => mergeNodeAttributes node' (meta_update m)
     | None => node'
     end
   else node') = ground_node n D.
Proof.
  intros Hl Hnode Hnode'.
  assert (Hh : isHighLevelNode n = true) by (apply hl_of_not_ll, Hl).
  assert (Hhn : isHighLevelNode node = true).
  { destruct Hnode as [->| ->]; [exact Hh|]. unfold isHighLevelNode in *.
    rewrite ground_node_type. exact Hh. }
  rewrite Hhn. unfold ground_node in *. rewrite Hh in *.
  destruct D as [|d D].
  - cbn [computeLCA ground_meta] in *. cbn. destruct Hnode' as [->| ->]; reflexivity.
  - cbn [length Nat.ltb Nat.leb andb].
    destruct (ground_meta (metadata n) (computeLCA (d :: D))) as [m|] eqn:Eg.
    + assert (Hm : ground_meta (metadata node) (computeLCA (d :: D)) = Some m).
      { destruct Hnode as [->| ->]; [exact Eg|]. apply (ground_meta_idem _ _ _ Eg). }
      rewrite Hm. destruct Hnode' as [->| ->]; reflexivity.
    + destruct Hnode as [->| ->]; rewrite Eg; destruct Hnode' as [->| ->]; reflexivity.
Qed.

Lemma grounded_ll (g : RPG) (k : string) (n : Node) :
  getNode g k = Some n -> isLowLevelNode n = true -> grounded g k n.
Proof.
  intros Hn Hl. exists n, (dir_of n). split; [exact Hn|]. split; [apply NoDup_dir_of|].
  split; [intros d; symmetry; apply (reach_dir_ll g k n d Hn Hl)|].
  unfold ground_node. destruct (isHighLevelNode n) eqn:Hh; [|reflexivity].
  exfalso. eapply not_hl_ll; eauto.
Qed.

Lemma ground_change_refl (g g1 : RPG) : ground_change g g1 g1.
Proof. intros k. left. reflexivity. Qed.

Lemma ground_change_trans (g g1 g2 g3 : RPG) :
  ground_change g g1 g2 -> ground_change g g2 g3 -> ground_change g g1 g3.
Proof.
  intros C1 C2 k. destruct (C2 k) as [E|H]; [|right; exact H].
  rewrite E. exact (C1 k).
Qed.

Lemma ground_reach_change (g : RPG) (v : string) (ga gb : RPG) :
  ground_reach g v ga -> ground_change g ga gb -> ground_reach g v gb.
Proof.
  intros R C k Hr Hk. destruct (C k) as [E|H]; [rewrite E; exact (R k Hr Hk)|exact H].
Qed.

Lemma ground_state_change (g g1 g2 : RPG) :
  ground_state g g1 -> meta_only g1 g2 -> ground_change g g1 g2 -> ground_state g g2.
Proof.
  intros [M S] M2 C. split; [eapply meta_only_trans; eauto|].
  intros k x Hx. destruct (C k) as [E|(y & Hy & Hg)].
  - rewrite E in Hx. exact (S k x Hx).
  - rewrite Hy in Hx. injection Hx as <-. right. exact Hg.
Qed.

Lemma state_node (g g1 : RPG) (k : string) (x : Node) (D : list string) :
  ground_state g g1 -> NoDup D -> (forall d, In d D <-> reach_dir g k d) ->
  getNode g1 k = Some x -> exists n, getNode g k = Some n /\ (x = n \/ x = ground_node n D).
Proof.
  intros [_ S] N E Hx. destruct (S k x Hx) as [H|H].
  - exists x. auto.
  - destruct (grounded_form g k x D N E H) as (n & Hn & ->). exists n. auto.
Qed.

Lemma children_grounds (g : RPG) (rec : string -> M (list string)) :
  (forall nid g0 D g3, ground_state g g0 -> rec nid g0 = (Ok D, g3) ->
     meta_only g0 g3 /\ ground_change g g0 g3 /\ ground_reach g nid g3) ->
  forall cs acc g0 D g3, ground_state g g0 ->
  propagate_children rec cs acc g0 = (Ok D, g3) ->
  ground_state g g3 /\ ground_change g g0 g3 /\ forall c, In c cs -> ground_reach g (id c) g3.
Proof.
  intros Hrec cs. induction cs as [|c cs IH]; intros acc g0 D g3 S0 Hrun;
    cbn [propagate_children] in Hrun; unfold bind, ret in Hrun.
  - injection Hrun as <- <-. split; [exact S0|]. split; [apply ground_change_refl|].
    intros c [].
  - destruct (rec (id c) g0) as [[D1|e] g2] eqn:E; [|discriminate].
    destruct (Hrec (id c) g0 D1 g2 S0 E) as (M1 & C1 & R1).
    assert (S2 : ground_state g g2) by (eapply ground_state_change; eauto).
    destruct (IH _ g2 D g3 S2 Hrun) as (S3 & C3 & R3).
    split; [exact S3|]. split; [eapply ground_change_trans; eauto|].
    intros c' [<-|Hc']; [eapply ground_reach_change; eauto|exact (R3 c' Hc')].
Qed.

Lemma propagate_grounds (g : RPG) (Hnd : NoDup (map fst (g_nodes g))) (fuel : nat) :
  forall nid g1 D g2,
  ground_state g g1 -> propagate fuel nid g1 = (Ok D, g2) ->
  meta_only g1 g2 /\ ground_change g g1 g2 /\ ground_reach g nid g2.
Proof.
  induction fuel as [|fuel IH]; intros nid g1 D g2 S1 Hrun; [cbn in Hrun; discriminate|].
  assert (Hnd1 : NoDup (map fst (g_nodes g1))) by (rewrite (MO_keys g g1 (proj1 S1)); exact Hnd).
  destruct (propagate_spec (S fuel) nid g1 D g2 Hnd1 Hrun) as (M & ND & ID & _ & _).
  split; [exact M|].
  assert (ID' : forall d, In d D <-> reach_dir g nid d).
  { intros d. rewrite ID.
    split; [apply reach_dir_MO, meta_only_sym, (proj1 S1)|apply reach_dir_MO, (proj1 S1)]. }
  cbn [propagate] in Hrun. unfold bind, gets, ret in Hrun. cbn beta iota in Hrun.
  destruct (getNode g1 nid) as [node|] eqn:Hn1.
  2:{ injection Hrun as <- <-. split; [apply ground_change_refl|].
      intros k Hr Hk.
      assert (Hg : getNode g nid = None).
      { destruct (MO_getNode g g1 nid (proj1 S1)) as [[H _]|(n & n' & _ & H & _)];
          [exact H|congruence]. }
      inversion Hr as [v0 Hv Hw|v0 c w (n0 & Hn0 & _) Hc Hr' Hv Hw]; subst; congruence. }
  destruct (isLowLevelNode node) eqn:Hl.
  { injection Hrun as <- <-. split; [apply ground_change_refl|].
    intros k Hr Hk.
    inversion Hr as [v0 Hv Hw|v0 c w (n0 & Hn0 & Hh0) Hc Hr' Hv Hw]; subst.
    - exists node. split; [exact Hn1|].
      destruct (proj2 S1 k node Hn1) as [Hg|Hg]; [exact (grounded_ll g k node Hg Hl)|exact Hg].
    - exfalso.
      destruct (MO_getNode g g1 nid (proj1 S1)) as [[H _]|(n & n' & Hn & Hn' & (_ & Ht & _))];
        [congruence|].
      rewrite Hn0 in Hn. injection Hn as <-. rewrite Hn1 in Hn'. injection Hn' as <-.
      apply (not_hl_ll n0 Hh0). unfold isLowLevelNode in *. rewrite <- Ht. exact Hl. }
  destruct (propagate_children (propagate fuel) (getChildren g1 nid) [] g1)
    as [[D1|e] g1'] eqn:E1; [|discriminate].
  destruct (children_grounds g (propagate fuel) (fun nid0 g0 D0 g3 S0 H0 => IH nid0 g0 D0 g3 S0 H0)
              (getChildren g1 nid) [] g1 D1 g1' S1 E1) as (S1' & C1 & R1).
  assert (M11 : meta_only g1 g1')
    by (eapply meta_only_trans; [apply meta_only_sym, (proj1 S1)|exact (proj1 S1')]).
  destruct (MO_getNode g1 g1' nid M11) as [[H _]|(n1 & node' & Hn1x & Hn1' & _)]; [congruence|].
  rewrite Hn1 in Hn1x. injection Hn1x as <-.
  assert (Hupd : D = D1 /\
    getNode g2 nid = Some (if isHighLevelNode node && (0 <? length D1)%nat then
                             match ground_meta (metadata node) (computeLCA D1) with
                             | Some m => mergeNodeAttributes node' (meta_update m)
                             | None => node'
                             end
                           else node') /\
    forall k, k <> nid -> getNode g2 k = getNode g1' k).
  { assert (Hhas : hasNode g1' nid = true)
      by (unfold hasNode; fold (getNode g1' nid); rewrite Hn1'; reflexivity).
    destruct (isHighLevelNode node && (0 <? length D1)%nat) eqn:Ec.
    - destruct (ground_meta (metadata node) (computeLCA D1)) as [m|] eqn:Eg.
      + rewrite (update_run g1' nid _ Hhas) in Hrun. injection Hrun as <- <-.
        split; [reflexivity|]. split.
        * rewrite update_getNode, Hhas, String.eqb_refl, Hn1'. reflexivity.
        * intros k Hk. rewrite update_getNode, Hhas. apply String.eqb_neq in Hk. rewrite Hk.
          reflexivity.
      + injection Hrun as <- <-. split; [reflexivity|]. split; [exact Hn1'|reflexivity].
    - injection Hrun as <- <-. split; [reflexivity|]. split; [exact Hn1'|reflexivity]. }
  destruct Hupd as (-> & Hg2 & Hother).
  destruct (state_node g g1 nid node D1 S1 ND ID' Hn1) as (n & Hn & Hnode).
  destruct (state_node g g1' nid node' D1 S1' ND ID' Hn1') as (n' & Hn' & Hnode').
  rewrite Hn in Hn'. injection Hn' as <-.
  assert (Hln : isLowLevelNode n = false).
  { destruct Hnode as [<-| ->]; [exact Hl|]. unfold isLowLevelNode in *.
    rewrite ground_node_type in Hl. exact Hl. }
  rewrite (visit_result n node node' D1 Hln Hnode Hnode') in Hg2.
  assert (Hgr : grounded g nid (ground_node n D1)) by (exists n, D1; auto).
  split.
  - intros k. destruct (String.eqb_spec k nid) as [->|Hk].
    + right. exists (ground_node n D1). auto.
    + rewrite (Hother k Hk). exact (C1 k).
  - intros k Hr Hk. destruct (String.eqb_spec k nid) as [->|Hkn].
    + exists (ground_node n D1). auto.
    + rewrite (Hother k Hkn).
      inversion Hr as [v0 Hv Hw|v0 c w Hh Hc Hr' Hv Hw]; subst; [congruence|].
      destruct (Forall2_In_l _ _ _ _ (MO_getChildren g g1 nid (proj1 S1)) Hc)
        as (c' & Hc' & (Hid & _)).
      apply (R1 c' Hc'); [rewrite Hid; exact Hr'|exact Hk].
Qed.

Lemma ground_loop_grounds (g : RPG) (Hnd : NoDup (map fst (g_nodes g))) (fuel : nat)
    (ns : list Node) :
  forall g1 g2, ground_state g g1 -> ground_loop fuel ns g1 = (Ok tt, g2) ->
  ground_state g g2 /\ ground_change g g1 g2 /\
  forall r, In r ns -> getParent g (id r) = None -> ground_reach g (id r) g2.
Proof.
  induction ns as [|n ns IH]; intros g1 g2 S1 Hrun;
    cbn [ground_loop] in Hrun; unfold bind, gets, ret in Hrun; cbn beta iota in Hrun.
  - injection Hrun as <-. split; [exact S1|]. split; [apply ground_change_refl|]. intros r [].
  - destruct (getParent g1 (id n)) as [p|] eqn:Hp.
    + destruct (IH g1 g2 S1 Hrun) as (S2 & C2 & R2). split; [exact S2|]. split; [exact C2|].
      intros r [<-|Hr] Hpr; [|exact (R2 r Hr Hpr)].
      exfalso. apply (MO_getParent_None g g1 (id n) (proj1 S1)) in Hpr. congruence.
    + destruct (propagate fuel (id n) g1) as [[D|e] g1'] eqn:E1; [|discriminate].
      destruct (propagate_grounds g Hnd fuel (id n) g1 D g1' S1 E1) as (M1 & C1 & R1).
      assert (S1' : ground_state g g1') by (eapply ground_state_change; eauto).
      destruct (IH g1' g2 S1' Hrun) as (S2 & C2 & R2).
      split; [exact S2|]. split; [eapply ground_change_trans; eauto|].
      intros r [<-|Hr] Hpr; [eapply ground_reach_change; eauto|exact (R2 r Hr Hpr)].
Qed.

(** C6 (claim), corrected. After a successful [ground()] on a graph with
    distinct node keys: only attributes of HighLevel nodes other than [id]
    and [type] have changed; a node not reached from a parentless HighLevel
    node (through Functional edges whose sources are HighLevel) is
    unchanged; and every HighLevel node [k] reached that way, with [D] the
    directories [path.dirname(metadata.path)] of the LowLevel nodes with a
    truthy path reached from [k] through HighLevel nodes only (the descent
    stops at the first LowLevel node, whose own children are not visited),
    is unchanged when [L = computeLCA(D)] is empty, and otherwise has, its
    other attributes kept, the metadata it had before [ground()] with
    [entityType = 'module'] and [path] the smallest entry of [L], the other
    metadata fields kept, [extra] kept when [|L| = 1] and extended with
    [paths] = [L] sorted ascending when [|L| > 1] (other [extra] keys
    kept). *)
Theorem C6_ground_grounds_first_lowlevel_dirs (g g' : RPG)
    (Hkeys : nodupb (map fst (g_nodes g)) = true)
    (Hrun : ground g = (Ok tt, g')) :
  meta_only g g' /\
  (forall k, (forall r, In r (getHighLevelNodes g) -> getParent g (id r) = None ->
                        ~ hl_reach g (id r) k) ->
     getNode g' k = getNode g k) /\
  (forall r k n, In r (getHighLevelNodes g) -> getParent g (id r) = None ->
     hl_reach g (id r) k -> getNode g k = Some n -> isHighLevelNode n = true ->
     exists D, NoDup D /\ (forall d, In d D <-> reach_dir g k d) /\
       (computeLCA D = [] -> getNode g' k = Some n) /\
       (computeLCA D <> [] ->
          exists m, getNode g' k = Some (mergeNodeAttributes n (meta_update m)) /\
            ground_meta (metadata n) (computeLCA D) = Some m /\
            entityType m = Some "module" /\
            (exists p, path m = Some p /\ In p (computeLCA D) /\
                       forall x, In x (computeLCA D) -> str_le p x) /\
            (forall mm, metadata n = Some mm ->
               qualifiedName m = qualifiedName mm /\ language m = language mm /\
               startLine m = startLine mm /\ endLine m = endLine mm) /\
            (length (computeLCA D) = 1 -> extra m = meta_extra (metadata n)) /\
            (1 < length (computeLCA D) ->
               extra m = Some (map_set "paths" (JStrs (js_sort (computeLCA D)))
                                 match meta_extra (metadata n) with Some e => e | None => [] end) /\
               Permutation (js_sort (computeLCA D)) (computeLCA D) /\
               StronglySorted str_le (js_sort (computeLCA D)) /\
               (forall key, key <> "paths" ->
                  assoc key (map_set "paths" (JStrs (js_sort (computeLCA D)))
                               match meta_extra (metadata n) with Some e => e | None => [] end) =
                  assoc key match meta_extra (metadata n) with Some e => e | None => [] end)))).
Proof.
  assert (Hnd : NoDup (map fst (g_nodes g))) by (apply nodupb_NoDup, Hkeys).
  unfold ground in Hrun.
  destruct (ground_loop_frame _ _ g g' Hnd Hrun) as [M F].
  destruct (ground_loop_grounds g Hnd _ _ g g'
              (conj (meta_only_refl g) (fun k x H => or_introl H)) Hrun) as (_ & _ & R).
  split; [exact M|]. split; [exact F|].
  intros r k n Hr Hp Hreach Hn Hh.
  destruct (R r Hr Hp k Hreach ltac:(congruence)) as (x & Hx & (n0 & D & Hn0 & ND & ED & ->)).
  rewrite Hn in Hn0. injection Hn0 as <-.
  exists D. split; [exact ND|]. split; [exact ED|]. unfold ground_node in Hx. rewrite Hh in Hx.
  split.
  - intros HL. rewrite HL in Hx. exact Hx.
  - intros Hne. destruct (ground_meta (metadata n) (computeLCA D)) as [m|] eqn:Eg.
    2:{ exfalso. apply Hne. destruct (computeLCA D) as [|p [|p2 L]];
          [reflexivity|discriminate|discriminate]. }
    destruct (ground_meta_spec _ _ _ Eg) as (_ & He & Hpth & Hq & H1 & H2).
    exists m. split; [exact Hx|]. split; [reflexivity|]. split; [exact He|].
    split; [exact Hpth|]. split; [exact Hq|]. split; [exact H1|].
    intros Hlen. destruct (H2 Hlen) as (Hx2 & Hperm & Hs).
    split; [exact Hx2|]. split; [exact Hperm|]. split; [exact Hs|].
    intros key Hkey. apply assoc_map_set_neq, Hkey.
Qed.

Lemma C6_witness :
  nodupb (map fst (g_nodes g_cross)) = true /\
  ground g_cross = (Ok tt, snd (ground g_cross)) /\
  meta_only g_cross (snd (ground g_cross)).
Proof.
  split; [vm_compute; reflexivity|]. split; [vm_compute; reflexivity|].
  exact (proj1 (C6_ground_grounds_first_lowlevel_dirs g_cross (snd (ground g_cross))
                  ltac:(vm_compute; reflexivity) ltac:(vm_compute; reflexivity))).
Defined.

(** ** Path search after grounding *)

(** C1 (claim), code bug. After [ground()] the HighLevel node
    [domain:CrossCutting] carries [path = src/utils] and
    [extra.paths = [src/utils; tests/utils]], yet [searchByPath("tests/utils*")]
    returns only the LowLevel file node: [searchByPath] filters
    [getLowLevelNodes()] and reads [metadata.path] only. Likewise the
    grounded [domain:Graph] ([path = src/graph]) is not returned by
    [searchByPath("src/graph*")]. *)
Theorem C1_searchByPath_skips_grounded_highlevel :
  fst (ground g_cross) = Ok tt /\
  option_map metadata (getNode (snd (ground g_cross)) "domain:CrossCutting") =
    Some (Some (mkMeta (Some "module") (Some "src/utils") None None None None
                  (Some [("paths", JStrs ["src/utils"; "tests/utils"])]))) /\
  option_map (map id) (searchByPath (snd (ground g_cross)) "tests/utils*") =
    Some ["tests/utils/helper.test.ts:file"] /\
  fst (ground g_graph) = Ok tt /\
  option_map (fun n => option_map path (metadata n))
    (getNode (snd (ground g_graph)) "domain:Graph") = Some (Some (Some "src/graph")) /\
  option_map (map id) (searchByPath (snd (ground g_graph)) "src/graph*") =
    Some ["src/graph/node.ts:file"].
Proof. repeat split; vm_compute; reflexivity. Qed.

(* ================================================================== *)
(** ** The graph store: invariant, serialization, writes and views *)

Lemma run_all_app (ops1 ops2 : list (M unit)) (g : RPG) :
  run_all (ops1 ++ ops2)%list g =
  match run_all ops1 g with
  | (Ok _, g') => run_all ops2 g'
  | (Throw e, g') => (Throw e, g')
  end.
Proof.
  revert g. induction ops1 as [|op ops1 IH]; intros g; [reflexivity|].
  cbn [run_all app]. unfold bind. destruct (op g) as [[u|e] g']; [apply IH|reflexivity].
Qed.

Lemma NoDup_app_mid {A} (l1 l2 : list A) (x : A) :
  NoDup (l1 ++ x :: l2)%list -> ~ In x l1.
Proof. intros H Hin. apply NoDup_remove_2 in H. apply H, in_or_app. auto. Qed.

Lemma assoc_none_of_keys {A} (k : string) (l : list (string * A)) :
  ~ In k (map fst l) -> assoc k l = None.
Proof.
  intros H. destruct (assoc k l) eqn:E; [|reflexivity].
  exfalso. apply H, assoc_keys. congruence.
Qed.

Lemma assoc_app_some {A} (k : string) (v : A) (l1 l2 : list (string * A)) :
  assoc k l1 = Some v -> assoc k (l1 ++ l2)%list = Some v.
Proof.
  induction l1 as [|[k' v'] l1 IH]; simpl; [discriminate|].
  destruct (String.eqb k k'); auto.
Qed.

Lemma assoc_app_none {A} (k : string) (l1 l2 : list (string * A)) :
  assoc k l1 = None -> assoc k (l1 ++ l2)%list = assoc k l2.
Proof.
  induction l1 as [|[k' v'] l1 IH]; simpl; [reflexivity|].
  destruct (String.eqb k k'); [discriminate|auto].
Qed.

Lemma add_nodes (l acc : list (string * Node)) (es : list (string * Edge)) :
  NoDup (map fst (acc ++ l)) -> (forall k n, In (k, n) l -> id n = k) ->
  run_all (map addNode (map snd l)) (mkRPG acc es) = (Ok tt, mkRPG (acc ++ l) es).
Proof.
  revert acc. induction l as [|[k n] l IH]; intros acc Hnd Hid.
  - rewrite app_nil_r. reflexivity.
  - cbn [map run_all]. unfold bind, addNode. cbn [g_nodes g_edges snd].
    assert (Hk : id n = k) by (apply Hid; simpl; auto). rewrite Hk.
    rewrite map_app in Hnd. simpl in Hnd.
    assert (Hh : hasNode (mkRPG acc es) k = false).
    { unfold hasNode. cbn [g_nodes]. rewrite assoc_none_of_keys; [reflexivity|].
      exact (NoDup_app_mid _ _ _ Hnd). }
    rewrite Hh. rewrite IH.
    + rewrite <- app_assoc. reflexivity.
    + rewrite map_app, map_app, <- app_assoc. exact Hnd.
    + intros k' n' Hin. apply Hid. simpl; auto.
Qed.

Lemma add_edges (l acc : list (string * Edge)) (ns : list (string * Node)) :
  NoDup (map fst (acc ++ l)) ->
  (forall k e, In (k, e) l -> k = edgeKey e /\ hasNode (mkRPG ns []) (source e) = true /\
                              hasNode (mkRPG ns []) (target e) = true) ->
  run_all (map addEdge (map snd l)) (mkRPG ns acc) = (Ok tt, mkRPG ns (acc ++ l)).
Proof.
  revert acc. induction l as [|[k e] l IH]; intros acc Hnd He.
  - rewrite app_nil_r. reflexivity.
  - cbn [map run_all]. unfold bind, addEdge. cbn [g_nodes g_edges snd].
    destruct (He k e) as (Hk & Hs & Ht); [simpl; auto|].
    unfold hasNode in Hs, Ht |- *. cbn [g_nodes] in Hs, Ht |- *.
    rewrite Hs, Ht. cbn [negb].
    rewrite map_app in Hnd. simpl in Hnd.
    assert (Hh : hasEdgeKey (mkRPG ns acc) (edgeKey e) = false).
    { unfold hasEdgeKey. cbn [g_edges]. rewrite assoc_none_of_keys; [reflexivity|].
      rewrite <- Hk. exact (NoDup_app_mid _ _ _ Hnd). }
    rewrite Hh, <- Hk. rewrite IH.
    + rewrite <- app_assoc. reflexivity.
    + rewrite map_app, map_app, <- app_assoc. exact Hnd.
    + intros k' e' Hin. apply He. simpl; auto.
Qed.

(** X1. Serializing a well-formed graph and deserializing the result gives
    the graph back: same nodes and edges, same keys, same order. *)
Theorem deserialize_serialize (g : RPG) (Hwf : wf_store g) :
  deserialize (serialize g) = (Ok tt, g).
Proof.
  destruct g as [ns es]. destruct Hwf as (Hn & Hid & He & Hep). cbn [g_nodes g_edges] in *.
  unfold deserialize, serialize, getNodes, getEdges, emptyRPG. cbn [s_nodes s_edges g_nodes g_edges].
  rewrite run_all_app, (add_nodes ns [] [] Hn Hid). cbn [app].
  rewrite (add_edges es [] ns He). { reflexivity. }
  intros k e Hin. destruct (Hep k e Hin) as (Hk & Hs & Ht). auto.
Qed.

Lemma wf_storeb_wf (g : RPG) : wf_storeb g = true -> wf_store g.
Proof.
  unfold wf_storeb. intros H.
  apply andb_prop in H as [H H4]. apply andb_prop in H as [H H3].
  apply andb_prop in H as [H1 H2].
  rewrite forallb_forall in H2, H4.
  split; [apply nodupb_NoDup, H1|]. split.
  { intros k n Hin. apply String.eqb_eq, (H2 (k, n) Hin). }
  split; [apply nodupb_NoDup, H3|].
  intros k e Hin. specialize (H4 (k, e) Hin). cbn [fst snd] in H4.
  apply andb_prop in H4 as [H4 Ht]. apply andb_prop in H4 as [Hk Hs].
  apply String.eqb_eq in Hk. auto.
Qed.

Lemma deserialize_serialize_witness :
  wf_store g_cross /\ deserialize (serialize g_cross) = (Ok tt, g_cross).
Proof.
  assert (H : wf_store g_cross) by (apply wf_storeb_wf; vm_compute; reflexivity).
  split; [exact H|]. exact (deserialize_serialize g_cross H).
Defined.

Lemma NoDup_map_filter {A B} (key : A -> B) (keep : A -> bool) (l : list A) :
  NoDup (map key l) -> NoDup (map key (filter keep l)).
Proof.
  induction l as [|a l IH]; intros Hl; cbn [filter]; [constructor|].
  cbn [map] in Hl. apply NoDup_cons_iff in Hl as [Ha Hl].
  destruct (keep a); cbn [map]; [|exact (IH Hl)].
  apply NoDup_cons; [|exact (IH Hl)].
  rewrite in_map_iff. intros (x & Hx & Hin). apply Ha.
  rewrite <- Hx. apply in_map. exact (proj1 (proj1 (filter_In keep x l) Hin)).
Qed.

Lemma assoc_filter_neq {A} (nid k : string) (l : list (string * A)) :
  k <> nid ->
  assoc k (filter (fun kv => negb (String.eqb (fst kv) nid)) l) = assoc k l.
Proof.
  intros Hne. induction l as [|[k' v] l IH]; simpl; [reflexivity|].
  destruct (String.eqb k' nid) eqn:E; simpl.
  - apply String.eqb_eq in E. subst. destruct (String.eqb k nid) eqn:E2; [|exact IH].
    apply String.eqb_eq in E2. congruence.
  - destruct (String.eqb k k'); [reflexivity|exact IH].
Qed.

Lemma assoc_filter_eq {A} (nid : string) (l : list (string * A)) :
  assoc nid (filter (fun kv => negb (String.eqb (fst kv) nid)) l) = None.
Proof.
  induction l as [|[k' v] l IH]; simpl; [reflexivity|].
  destruct (String.eqb k' nid) eqn:E; simpl; [exact IH|].
  destruct (String.eqb nid k') eqn:E2; [|exact IH].
  apply String.eqb_eq in E2. subst. rewrite String.eqb_refl in E. discriminate.
Qed.

Lemma getNode_id (g : RPG) (k : string) (n : Node) :
  wf_store g -> getNode g k = Some n -> id n = k.
Proof. intros (_ & Hid & _) H. apply Hid, assoc_In, H. Qed.

(** X2. The writes keep the store's invariant: the empty graph has it, and a
    successful [addNode], [addEdge] or [removeNode], and an [updateNode]
    that leaves [id] alone (or sets it to the node's own key), keep it. *)
Theorem wf_store_preserved :
  wf_store emptyRPG /\
  (forall g g' n, wf_store g -> addNode n g = (Ok tt, g') -> wf_store g') /\
  (forall g g' e, wf_store g -> addEdge e g = (Ok tt, g') -> wf_store g') /\
  (forall g g' nid, wf_store g -> removeNode nid g = (Ok tt, g') -> wf_store g') /\
  (forall g g' nid u, wf_store g -> (u_id u = None \/ u_id u = Some nid) ->
     updateNode nid u g = (Ok tt, g') -> wf_store g').
Proof.
  split; [|split; [|split; [|split]]].
  - unfold wf_store, emptyRPG; simpl.
    split; [constructor|]. split; [intros k x []|]. split; [constructor|]. intros k x [].
  - intros g g' n (Hn & Hid & He & Hep) Hrun. unfold addNode in Hrun.
    destruct (hasNode g (id n)) eqn:Hh; [discriminate|]. injection Hrun as <-.
    assert (Hmono : forall x, hasNode g x = true ->
              hasNode (mkRPG (g_nodes g ++ [(id n, n)]) (g_edges g)) x = true).
    { unfold hasNode; cbn [g_nodes]. intros x Hx.
      destruct (assoc x (g_nodes g)) eqn:E; [|discriminate].
      rewrite (assoc_app_some _ _ _ _ E). reflexivity. }
    unfold wf_store; cbn [g_nodes g_edges]. split; [|split; [|split]].
    + rewrite map_app. apply NoDup_snoc; [exact Hn|]. simpl.
      intros Hin. apply assoc_keys in Hin. unfold hasNode in Hh.
      destruct (assoc (id n) (g_nodes g)); [discriminate|congruence].
    + intros k x Hin. apply in_app_or in Hin as [Hin|[Hin|[]]]; [eauto|].
      injection Hin as <- <-. reflexivity.
    + exact He.
    + intros k e Hin. destruct (Hep k e Hin) as (Hk & Hs & Ht). auto.
  - intros g g' e (Hn & Hid & He & Hep) Hrun. unfold addEdge in Hrun.
    destruct (hasNode g (source e)) eqn:Hs; [|discriminate].
    destruct (hasNode g (target e)) eqn:Ht; [|discriminate].
    destruct (hasEdgeKey g (edgeKey e)) eqn:Hk; [discriminate|]. injection Hrun as <-.
    unfold wf_store; cbn [g_nodes g_edges]. split; [exact Hn|]. split; [exact Hid|].
    split.
    + rewrite map_app. apply NoDup_snoc; [exact He|]. simpl.
      intros Hin. apply assoc_keys in Hin. unfold hasEdgeKey in Hk.
      destruct (assoc (edgeKey e) (g_edges g)); [discriminate|congruence].
    + intros k x Hin. apply in_app_or in Hin as [Hin|[Hin|[]]].
      * destruct (Hep k x Hin) as (Hk' & Hs' & Ht'). unfold hasNode in *. auto.
      * injection Hin as <- <-. unfold hasNode in *. auto.
  - intros g g' nid (Hn & Hid & He & Hep) Hrun. unfold removeNode in Hrun.
    destruct (hasNode g nid) eqn:Hh; [|discriminate]. injection Hrun as <-.
    unfold wf_store; cbn [g_nodes g_edges]. split; [|split; [|split]].
    + apply NoDup_map_filter, Hn.
    + intros k x Hin. apply filter_In in Hin as [Hin _]. eauto.
    + apply NoDup_map_filter, He.
    + intros k e Hin. apply filter_In in Hin as [Hin Hkeep].
      destruct (Hep k e Hin) as (Hk & Hs & Ht).
      cbn [snd] in Hkeep. apply negb_true_iff, orb_false_iff in Hkeep as [Hs' Ht'].
      assert (Hs'' : source e <> nid) by (intros E; rewrite E, String.eqb_refl in Hs'; discriminate).
      assert (Ht'' : target e <> nid) by (intros E; rewrite E, String.eqb_refl in Ht'; discriminate).
      unfold hasNode in *; cbn [g_nodes].
      rewrite (assoc_filter_neq nid (source e)), (assoc_filter_neq nid (target e)); auto.
  - intros g g' nid u (Hn & Hid & He & Hep) Hu Hrun. unfold updateNode in Hrun.
    destruct (hasNode g nid) eqn:Hh; [|discriminate]. injection Hrun as <-.
    assert (Hkeys : forall l : list (string * Node),
      map fst (map (fun kv => if String.eqb (fst kv) nid
                              then (fst kv, mergeNodeAttributes (snd kv) u) else kv) l) = map fst l).
    { induction l as [|[k x] l IH]; simpl; [reflexivity|].
      destruct (String.eqb k nid); simpl; f_equal; exact IH. }
    assert (Hhas : forall x, hasNode (mkRPG (map (fun kv => if String.eqb (fst kv) nid
                              then (fst kv, mergeNodeAttributes (snd kv) u) else kv) (g_nodes g))
                              (g_edges g)) x = hasNode g x).
    { intros x. unfold hasNode; cbn [g_nodes]. rewrite update_assoc.
      destruct (String.eqb x nid); [|reflexivity].
      destruct (assoc x (g_nodes g)); reflexivity. }
    unfold wf_store. cbn [g_nodes g_edges]. split; [|split; [|split]].
    + rewrite Hkeys. exact Hn.
    + intros k x Hin. apply in_map_iff in Hin as ([k0 x0] & Hx & Hin). cbn [fst snd] in Hx.
      destruct (String.eqb k0 nid) eqn:E.
      * injection Hx as <- <-. apply String.eqb_eq in E. subst k0.
        unfold mergeNodeAttributes; cbn [id].
        destruct Hu as [-> | ->]; [eauto|reflexivity].
      * injection Hx as <- <-. eauto.
    + exact He.
    + intros k e Hin. rewrite !Hhas. eauto.
Qed.

(** X3. [addNode(n)] on a fresh id succeeds and appends [n]: it is found under
    its id, the other lookups and the edges are unchanged, and [getNodes()]
    lists it last. *)
Theorem addNode_insert_lookup (g : RPG) (n : Node) (Hfresh : hasNode g (id n) = false) :
  exists g', addNode n g = (Ok tt, g') /\
    getNode g' (id n) = Some n /\
    (forall k, k <> id n -> getNode g' k = getNode g k) /\
    getNodes g' = (getNodes g ++ [n])%list /\ getEdges g' = getEdges g.
Proof.
  unfold addNode. rewrite Hfresh. eexists. split; [reflexivity|].
  unfold getNode, getNodes, getEdges; cbn [g_nodes g_edges].
  assert (Hnone : assoc (id n) (g_nodes g) = None).
  { unfold hasNode in Hfresh. destruct (assoc (id n) (g_nodes g)); [discriminate|reflexivity]. }
  split; [|split; [|split; [rewrite map_app; reflexivity|reflexivity]]].
  - rewrite (assoc_app_none _ _ _ Hnone). simpl. rewrite String.eqb_refl. reflexivity.
  - intros k Hk. destruct (assoc k (g_nodes g)) eqn:E.
    + apply assoc_app_some, E.
    + rewrite (assoc_app_none _ _ _ E). simpl.
      destruct (String.eqb k (id n)) eqn:E2; [apply String.eqb_eq in E2; congruence|reflexivity].
Qed.

Lemma addNode_insert_lookup_witness :
  hasNode g_abc "d" = false /\ exists g', addNode (hl_node "d") g_abc = (Ok tt, g') /\
    getNode g' "d" = Some (hl_node "d").
Proof.
  split; [vm_compute; reflexivity|].
  destruct (addNode_insert_lookup g_abc (hl_node "d") ltac:(vm_compute; reflexivity))
    as (g' & H1 & H2 & _). exists g'. split; [exact H1|exact H2].
Defined.

(** X4. [removeNode(id)] on a present id succeeds; afterwards the id is
    absent, every other lookup is unchanged, and the edges are the old ones
    minus those with the removed node as source or target. *)
Theorem removeNode_drops_node_and_edges (g : RPG) (nid : string)
    (Hpresent : hasNode g nid = true) :
  exists g', removeNode nid g = (Ok tt, g') /\
    getNode g' nid = None /\
    (forall k, k <> nid -> getNode g' k = getNode g k) /\
    getEdges g' = filter (fun e => negb (String.eqb (source e) nid || String.eqb (target e) nid))
                         (getEdges g).
Proof.
  unfold removeNode. rewrite Hpresent. eexists. split; [reflexivity|].
  unfold getNode, getEdges; cbn [g_nodes g_edges].
  split; [apply assoc_filter_eq|]. split; [intros k Hk; apply assoc_filter_neq, Hk|].
  induction (g_edges g) as [|[k e] es IH]; simpl; [reflexivity|].
  destruct (String.eqb (source e) nid || String.eqb (target e) nid); simpl; [exact IH|].
  f_equal; exact IH.
Qed.

Lemma removeNode_drops_node_and_edges_witness :
  hasNode g_cross "domain:CrossCutting" = true /\
  exists g', removeNode "domain:CrossCutting" g_cross = (Ok tt, g') /\
    getNode g' "domain:CrossCutting" = None.
Proof.
  split; [vm_compute; reflexivity|].
  destruct (removeNode_drops_node_and_edges g_cross "domain:CrossCutting"
              ltac:(vm_compute; reflexivity)) as (g' & H1 & H2 & _).
  exists g'. split; [exact H1|exact H2].
Defined.

Lemma EdgeType_eqb_eq (a b : EdgeType) : EdgeType_eqb a b = true <-> a = b.
Proof. destruct a, b; simpl; split; congruence. Qed.

Lemma In_getOutEdges (g : RPG) (u : string) (t : EdgeType) (e : Edge) :
  In e (getOutEdges g u (Some t)) <->
  hasNode g u = true /\ In e (getEdges g) /\ source e = u /\ etype e = t.
Proof.
  unfold getOutEdges, filter_type. destruct (hasNode g u); simpl; [|intuition discriminate].
  rewrite filter_In, filter_In, EdgeType_eqb_eq, String.eqb_eq. intuition.
Qed.

Lemma In_getInEdges (g : RPG) (v : string) (t : EdgeType) (e : Edge) :
  In e (getInEdges g v (Some t)) <->
  hasNode g v = true /\ In e (getEdges g) /\ target e = v /\ etype e = t.
Proof.
  unfold getInEdges, filter_type. destruct (hasNode g v); simpl; [|intuition discriminate].
  rewrite filter_In, filter_In, EdgeType_eqb_eq, String.eqb_eq. intuition.
Qed.

Lemma In_nodes_at (g : RPG) (f : Edge -> string) (es : list Edge) (n : Node) :
  In n (nodes_at g f es) <-> exists e, In e es /\ getNode g (f e) = Some n.
Proof.
  unfold nodes_at. rewrite in_flat_map. split.
  - intros (e & He & Hn). exists e. split; [exact He|].
    destruct (getNode g (f e)); [destruct Hn as [<-|[]]; reflexivity|destruct Hn].
  - intros (e & He & Hn). exists e. rewrite Hn. simpl; auto.
Qed.

Lemma wf_edge_ends (g : RPG) (e : Edge) :
  wf_store g -> In e (getEdges g) ->
  exists ns nt, getNode g (source e) = Some ns /\ getNode g (target e) = Some nt.
Proof.
  intros (_ & _ & _ & Hep) He. unfold getEdges in He.
  apply in_map_iff in He as ([k e'] & <- & Hin). destruct (Hep k e' Hin) as (_ & Hs & Ht).
  unfold hasNode, getNode in *. cbn [snd].
  destruct (assoc (source e') (g_nodes g)); [|discriminate].
  destruct (assoc (target e') (g_nodes g)); [|discriminate]. eauto.
Qed.

Lemma hasNode_getNode (g : RPG) (k : string) (n : Node) :
  getNode g k = Some n -> hasNode g k = true.
Proof. unfold hasNode, getNode. intros ->. reflexivity. Qed.

(** X5. In a well-formed graph the two views of an edge agree: [v] is among
    the dependencies of [u] exactly when [u] is among the dependents of
    [v]; [v] is among the children of [u] exactly when a Functional edge
    enters [v] from [u]; and a node's parent lists the node among its
    children. *)
Theorem dependency_child_views_agree (g : RPG) (Hwf : wf_store g) :
  (forall u v, (exists n, In n (getDependencies g u) /\ id n = v) <->
               (exists m, In m (getDependents g v) /\ id m = u)) /\
  (forall u v, (exists n, In n (getChildren g u) /\ id n = v) <->
               (exists e, In e (getInEdges g v (Some Functional)) /\ source e = u)) /\
  (forall c p, getParent g c = Some p -> exists n, In n (getChildren g (id p)) /\ id n = c).
Proof.
  split; [|split].
  - intros u v. unfold getDependencies, getDependents. split.
    + intros (n & Hn & <-). apply In_nodes_at in Hn as (e & He & Hn).
      apply In_getOutEdges in He as (Hu & He & Hs & Ht).
      destruct (wf_edge_ends g e Hwf He) as (ns & nt & Hns & Hnt).
      rewrite Hn in Hnt. injection Hnt as <-.
      exists ns. split.
      * apply In_nodes_at. exists e. split; [|exact Hns].
        apply In_getInEdges. repeat split; auto.
        rewrite (getNode_id g (target e) n Hwf Hn). eapply hasNode_getNode; eauto.
        rewrite (getNode_id g (target e) n Hwf Hn). reflexivity.
      * rewrite <- Hs. exact (getNode_id g _ _ Hwf Hns).
    + intros (m & Hm & <-). apply In_nodes_at in Hm as (e & He & Hm).
      apply In_getInEdges in He as (Hv & He & Ht & Hty).
      destruct (wf_edge_ends g e Hwf He) as (ns & nt & Hns & Hnt).
      rewrite Hm in Hns. injection Hns as <-.
      exists nt. split.
      * apply In_nodes_at. exists e. split; [|exact Hnt].
        apply In_getOutEdges. rewrite (getNode_id g (source e) m Hwf Hm).
        repeat split; auto. eapply hasNode_getNode; eauto.
      * rewrite <- Ht. exact (getNode_id g _ _ Hwf Hnt).
  - intros u v. unfold getChildren. split.
    + intros (n & Hn & <-). apply In_nodes_at in Hn as (e & He & Hn).
      apply In_getOutEdges in He as (Hu & He & Hs & Ht).
      exists e. split; [|exact Hs]. apply In_getInEdges.
      rewrite (getNode_id g (target e) n Hwf Hn). repeat split; auto.
      eapply hasNode_getNode; eauto.
    + intros (e & He & Hs). apply In_getInEdges in He as (Hv & He & Ht & Hty).
      destruct (wf_edge_ends g e Hwf He) as (ns & nt & Hns & Hnt).
      exists nt. split.
      * apply In_nodes_at. exists e. split; [|exact Hnt]. apply In_getOutEdges.
        repeat split; auto. rewrite <- Hs. eapply hasNode_getNode; eauto.
      * rewrite <- Ht. exact (getNode_id g _ _ Hwf Hnt).
  - intros c p Hp. unfold getParent in Hp.
    destruct (getInEdges g c (Some Functional)) as [|e es] eqn:E; [discriminate|].
    assert (He : In e (getInEdges g c (Some Functional))) by (rewrite E; simpl; auto).
    apply In_getInEdges in He as (Hc & He & Ht & Hty).
    destruct (wf_edge_ends g e Hwf He) as (ns & nt & Hns & Hnt).
    exists nt. split.
    + unfold getChildren. apply In_nodes_at. exists e. split; [|exact Hnt].
      apply In_getOutEdges. rewrite (getNode_id g _ _ Hwf Hp).
      repeat split; auto. eapply hasNode_getNode; eauto.
    + rewrite <- Ht. exact (getNode_id g _ _ Hwf Hnt).
Qed.

Lemma dependency_child_views_agree_witness :
  wf_store g_cross /\
  exists n, In n (getChildren g_cross "domain:CrossCutting") /\ id n = "src/utils/helper.ts:file".
Proof.
  assert (H : wf_store g_cross) by (apply wf_storeb_wf; vm_compute; reflexivity).
  split; [exact H|].
  apply (proj1 (proj2 (dependency_child_views_agree g_cross H))
           "domain:CrossCutting" "src/utils/helper.ts:file").
  exists (createFunctionalEdge "domain:CrossCutting" "src/utils/helper.ts:file" None None).
  split; [vm_compute; auto|reflexivity].
Defined.

(** [addFunctionalEdge(source, target)] in the model's edge order: the
    target node comes last among the children of [source]. *)
Lemma addFunctionalEdge_model (g : RPG) (s t : string) (lvl sib : option Z)
    (nt : Node) (Hs : hasNode g s = true) (Ht : getNode g t = Some nt)
    (Hk : hasEdgeKey g (edgeKey (createFunctionalEdge s t lvl sib)) = false) :
  exists g', addFunctionalEdge s t lvl sib g = (Ok (createFunctionalEdge s t lvl sib), g') /\
    getChildren g' s = (getChildren g s ++ [nt])%list /\
    (forall k, k <> s -> getChildren g' k = getChildren g k) /\
    getParent g' t = match getInEdges g t (Some Functional) with
                     | [] => getNode g s
                     | _ :: _ => getParent g t
                     end.
Proof.
  set (e := createFunctionalEdge s t lvl sib) in *.
  assert (Ht' : hasNode g t = true) by (eapply hasNode_getNode; eauto).
  set (g' := mkRPG (g_nodes g) (g_edges g ++ [(edgeKey e, e)])%list).
  assert (Hrun : addEdge e g = (Ok tt, g')).
  { unfold addEdge. cbn [source target e createFunctionalEdge].
    replace (source e) with s by reflexivity. replace (target e) with t by reflexivity.
    rewrite Hs, Ht', Hk. reflexivity. }
  exists g'. split.
  { unfold addFunctionalEdge, bind, ret. fold e. rewrite Hrun. reflexivity. }
  assert (Hh : forall x, hasNode g' x = hasNode g x) by reflexivity.
  assert (Hn : forall x, getNode g' x = getNode g x) by reflexivity.
  assert (Hedges : getEdges g' = (getEdges g ++ [e])%list)
    by (unfold getEdges; cbn [g_edges g']; rewrite map_app; reflexivity).
  split; [|split].
  - unfold getChildren, getOutEdges. rewrite Hh, Hs, Hedges. cbn [negb filter_type].
    rewrite filter_app, filter_app. simpl. rewrite String.eqb_refl. simpl.
    unfold nodes_at. rewrite flat_map_app. simpl. rewrite Hn, Ht.
    f_equal.
  - intros k Hk'. unfold getChildren, getOutEdges. rewrite Hh, Hedges.
    destruct (hasNode g k); [|reflexivity]. cbn [negb filter_type].
    rewrite filter_app. simpl.
    destruct (String.eqb s k) eqn:E; [apply String.eqb_eq in E; congruence|].
    rewrite app_nil_r. reflexivity.
  - unfold getParent, getInEdges. rewrite Hh, Ht', Hedges. cbn [negb filter_type].
    rewrite filter_app, filter_app. simpl. rewrite String.eqb_refl. simpl.
    destruct (filter (fun e0 => EdgeType_eqb (etype e0) Functional)
                     (filter (fun e0 => String.eqb (target e0) t) (getEdges g))); simpl;
      apply Hn.
Qed.

(** X6. [addFunctionalEdge(source, target)] with both ends present and a fresh
    key adds the target node to the children of [source] (one more
    occurrence, the order aside), leaves the children of every other node
    as they were, and makes [source] the parent of [target] when [target]
    had no incoming Functional edge. *)
Theorem addFunctionalEdge_children_parent (g : RPG) (s t : string) (lvl sib : option Z)
    (nt : Node) (Hs : hasNode g s = true) (Ht : getNode g t = Some nt)
    (Hk : hasEdgeKey g (edgeKey (createFunctionalEdge s t lvl sib)) = false) :
  exists g', addFunctionalEdge s t lvl sib g = (Ok (createFunctionalEdge s t lvl sib), g') /\
    Permutation (getChildren g' s) (nt :: getChildren g s) /\
    (forall k, k <> s -> getChildren g' k = getChildren g k) /\
    (getInEdges g t (Some Functional) = [] -> getParent g' t = getNode g s).
Proof.
  destruct (addFunctionalEdge_model g s t lvl sib nt Hs Ht Hk) as (g' & H1 & H2 & H3 & H4).
  exists g'. split; [exact H1|]. split.
  - rewrite H2. apply Permutation_sym, Permutation_cons_append.
  - split; [exact H3|]. intros He. rewrite H4, He. reflexivity.
Qed.

Lemma addFunctionalEdge_children_parent_witness :
  exists g', addFunctionalEdge "a" "b" None None g_abc =
               (Ok (createFunctionalEdge "a" "b" None None), g') /\
    Permutation (getChildren g' "a") [hl_node "b"].
Proof.
  destruct (addFunctionalEdge_children_parent g_abc "a" "b" None None (hl_node "b")
              ltac:(vm_compute; reflexivity) ltac:(vm_compute; reflexivity)
              ltac:(vm_compute; reflexivity)) as (g' & H1 & H2 & _).
  exists g'. split; [exact H1|]. eapply Permutation_trans; [exact H2|].
  vm_compute. apply Permutation_refl.
Defined.

Lemma mem_In (x : string) (l : list string) : existsb (String.eqb x) l = true <-> In x l.
Proof.
  rewrite existsb_exists. split.
  - intros (y & Hy & E). apply String.eqb_eq in E. subst. exact Hy.
  - intros H. exists x. split; [exact H|apply String.eqb_refl].
Qed.

Lemma filter_unvisited_mono (v1 v2 ks : list string) :
  (forall x, In x v1 -> In x v2) ->
  (length (filter (fun k => negb (existsb (String.eqb k) v2)) ks) <=
   length (filter (fun k => negb (existsb (String.eqb k) v1)) ks))%nat.
Proof.
  intros Hsub. induction ks as [|k ks IH]; simpl; [lia|].
  destruct (existsb (String.eqb k) v1) eqn:E1, (existsb (String.eqb k) v2) eqn:E2;
    simpl; try lia.
  apply mem_In, Hsub, mem_In in E1. congruence.
Qed.

Lemma unvisited_mono (g : RPG) (v1 v2 : list string) :
  (forall x, In x v1 -> In x v2) -> (unvisited g v2 <= unvisited g v1)%nat.
Proof. apply filter_unvisited_mono. Qed.

Lemma unvisited_strict (g : RPG) (v1 v2 : list string) (k : string) :
  (forall x, In x v1 -> In x v2) -> In k (map fst (g_nodes g)) ->
  ~ In k v1 -> In k v2 -> (unvisited g v2 < unvisited g v1)%nat.
Proof.
  intros Hsub Hk Hn1 Hk2. unfold unvisited.
  induction (map fst (g_nodes g)) as [|k' ks IH]; [destruct Hk|].
  simpl. destruct Hk as [Heq|Hk].
  - subst k'. rewrite (proj2 (mem_In k v2) Hk2).
    destruct (existsb (String.eqb k) v1) eqn:E; [apply mem_In in E; contradiction|].
    simpl. pose proof (filter_unvisited_mono v1 v2 ks Hsub). lia.
  - specialize (IH Hk).
    destruct (existsb (String.eqb k') v1) eqn:E1, (existsb (String.eqb k') v2) eqn:E2;
      simpl; try lia.
    apply mem_In, Hsub, mem_In in E1. congruence.
Qed.

Lemma unvisited_le (g : RPG) (vis : list string) : (unvisited g vis <= length (g_nodes g))%nat.
Proof.
  unfold unvisited. rewrite <- (length_map fst (g_nodes g)).
  induction (map fst (g_nodes g)) as [|k ks IH]; simpl; [lia|].
  destruct (negb _); simpl; lia.
Qed.

Lemma hasNode_keys (g : RPG) (k : string) :
  hasNode g k = true <-> In k (map fst (g_nodes g)).
Proof.
  unfold hasNode. rewrite <- assoc_keys.
  destruct (assoc k (g_nodes g)); split; intros H; congruence.
Qed.

Lemma closed_snoc (g : RPG) (res : list Node) (n : Node) :
  closed_order g res ->
  (forall e, In e (getOutEdges g (id n) (Some Dependency)) -> In (target e) (map id res)) ->
  closed_order g (res ++ [n]).
Proof.
  intros Hc Hn l1 m l2 E e He. destruct l2 as [|z l2].
  - apply app_inj_tail in E as [-> ->]. exact (Hn e He).
  - destruct (exists_last (l:=z :: l2) ltac:(discriminate)) as (l2' & w & Ew).
    rewrite Ew in E.
    replace (l1 ++ m :: l2' ++ [w])%list with ((l1 ++ m :: l2') ++ [w])%list in E
      by (rewrite <- app_assoc; reflexivity).
    apply app_inj_tail in E as [E _]. exact (Hc l1 m l2' E e He).
Qed.

Lemma topo_visit_spec (g : RPG) (Hwf : wf_store g) (fuel : nat) :
  forall S nid vis res,
    hasNode g nid = true ->
    (dep_acyclic g -> forall x, In x S -> dep_reach g x nid) ->
    (unvisited g vis < fuel)%nat ->
    topo_inv g S vis res ->
    exists vis' ext,
      topo_visit g fuel nid (vis, res) = Some (vis', (res ++ ext)%list) /\
      topo_inv g S vis' (res ++ ext) /\
      (forall x, In x vis -> In x vis') /\
      (forall n, In n ext -> ~ In (id n) vis) /\
      (In nid (map id (res ++ ext)) \/ In nid S).
Proof.
  induction fuel as [|f IH]; intros S nid vis res Hnid Hstk Hfuel Hinv; [lia|].
  cbn [topo_visit].
  destruct (existsb (String.eqb nid) vis) eqn:Hvis.
  - exists vis, []. rewrite app_nil_r. split; [reflexivity|].
    split; [exact Hinv|]. split; [auto|]. split; [intros n []|].
    apply mem_In in Hvis. destruct Hinv as (_ & _ & _ & Hd & _). exact (Hd nid Hvis).
  - set (vis1 := set_add nid vis).
    assert (Hnv : ~ In nid vis) by (intros H; apply mem_In in H; congruence).
    assert (Hsub1 : forall x, In x vis -> In x vis1)
      by (intros x Hx; apply In_set_add; auto).
    assert (Hin1 : In nid vis1) by (apply In_set_add; auto).
    assert (Hf1 : (unvisited g vis1 < f)%nat).
    { pose proof (unvisited_strict g vis vis1 nid Hsub1
                    (proj1 (hasNode_keys g nid) Hnid) Hnv Hin1). lia. }
    assert (Hfold : forall es vis_c res_c,
      (forall e, In e es -> In e (getOutEdges g nid (Some Dependency))) ->
      topo_inv g (nid :: S) vis_c res_c ->
      (forall x, In x vis1 -> In x vis_c) ->
      exists vis' ext,
        fold_left (fun acc dep => match acc with
                                  | Some s => topo_visit g f (target dep) s
                                  | None => None
                                  end) es (Some (vis_c, res_c))
          = Some (vis', (res_c ++ ext)%list) /\
        topo_inv g (nid :: S) vis' (res_c ++ ext) /\
        (forall x, In x vis_c -> In x vis') /\
        (forall n, In n ext -> ~ In (id n) vis_c) /\
        (dep_acyclic g -> forall e, In e es -> In (target e) (map id (res_c ++ ext)))).
    { induction es as [|e es IHes]; intros vis_c res_c Hes Hinv_c Hsub_c.
      - exists vis_c, []. rewrite app_nil_r. split; [reflexivity|].
        split; [exact Hinv_c|]. split; [auto|]. split; [intros n []|]. intros _ e [].
      - assert (He : In e (getOutEdges g nid (Some Dependency))) by (apply Hes; left; reflexivity).
        pose proof He as He'. apply In_getOutEdges in He' as (_ & HeE & Hsrc & Hty).
        destruct (wf_edge_ends g e Hwf HeE) as (ns & nt & _ & Hnt).
        assert (Ht : hasNode g (target e) = true) by (eapply hasNode_getNode; eauto).
        destruct (IH (nid :: S) (target e) vis_c res_c Ht) as
            (vis_t & ext_t & Hrun_t & Hinv_t & Hsub_t & Hext_t & Hdone_t).
        + intros Hac x [<-|Hx].
          * eapply dr_step; eauto.
          * eapply dr_trans; [apply (Hstk Hac x Hx)|]. eapply dr_step; eauto.
        + pose proof (unvisited_mono g vis1 vis_c Hsub_c). lia.
        + exact Hinv_c.
        + destruct (IHes vis_t (res_c ++ ext_t)%list) as
              (vis' & ext_r & Hrun_r & Hinv_r & Hsub_r & Hext_r & Hdone_r).
          * intros e' He'. apply Hes. right. exact He'.
          * exact Hinv_t.
          * intros x Hx. apply Hsub_t, Hsub_c, Hx.
          * exists vis', (ext_t ++ ext_r)%list. rewrite app_assoc.
            split; [cbn [fold_left]; rewrite Hrun_t; exact Hrun_r|].
            split; [exact Hinv_r|].
            split; [intros x Hx; apply Hsub_r, Hsub_t, Hx|].
            split.
            { intros n Hn. apply in_app_or in Hn as [Hn|Hn]; [exact (Hext_t n Hn)|].
              intros Hc. exact (Hext_r n Hn (Hsub_t _ Hc)). }
            intros Hac e' [<-|He''].
            -- destruct Hdone_t as [Hd|[Hd|Hd]].
               ++ rewrite map_app. apply in_or_app. left. exact Hd.
               ++ exfalso. apply (Hac nid). eapply dr_step; eauto.
               ++ exfalso. apply (Hac (target e)).
                  eapply dr_trans; [apply (Hstk Hac _ Hd)|]. eapply dr_step; eauto.
            -- exact (Hdone_r Hac e' He''). }
    destruct (Hfold (getOutEdges g nid (Some Dependency)) vis1 res) as
        (vis' & ext & Hrun & Hinv' & Hsub' & Hext & Hdone).
    + auto.
    + destruct Hinv as (Ha & Hb & Hc & Hd & He).
      split; [exact Ha|]. split; [exact Hb|]. split; [intros x Hx; apply Hsub1, Hc, Hx|].
      split; [|exact He].
      intros x Hx. apply In_set_add in Hx as [Hx| ->].
      * destruct (Hd x Hx) as [H|H]; [left; exact H|right; right; exact H].
      * right. left. reflexivity.
    + auto.
    + assert (Hn : exists n, getNode g nid = Some n)
        by (unfold hasNode in Hnid; unfold getNode;
            destruct (assoc nid (g_nodes g)); [eauto|discriminate]).
      destruct Hn as (n & Hn). pose proof (getNode_id g nid n Hwf Hn) as Hid.
      exists vis', (ext ++ [n])%list.
      split; [rewrite Hrun, Hn, app_assoc; reflexivity|].
      rewrite app_assoc.
      assert (Hnot : ~ In nid (map id (res ++ ext))).
      { rewrite map_app. intros H. apply in_app_or in H as [H|H].
        - destruct Hinv as (_ & _ & Hc0 & _ & _). exact (Hnv (Hc0 _ H)).
        - apply in_map_iff in H as (m & Hm & Hm'). apply (Hext m Hm'). rewrite Hm. exact Hin1. }
      destruct Hinv' as (Ha & Hb & Hc & Hd & He).
      split; [split; [|split; [|split; [|split]]]|].
      * rewrite map_app. simpl. rewrite Hid. apply NoDup_snoc; assumption.
      * intros m Hm. apply in_app_or in Hm as [Hm|[<-|[]]]; [exact (Hb m Hm)|].
        rewrite Hid. exact Hn.
      * intros x Hx. rewrite map_app in Hx. apply in_app_or in Hx as [Hx|[Hx|[]]];
          [exact (Hc x Hx)|]. rewrite <- Hx, Hid. apply Hsub'. exact Hin1.
      * intros x Hx. destruct (Hd x Hx) as [H|[H|H]].
        -- left. rewrite map_app. apply in_or_app. left. exact H.
        -- left. rewrite map_app. apply in_or_app. right. simpl. left. congruence.
        -- right. exact H.
      * intros Hac. apply closed_snoc; [exact (He Hac)|].
        intros e' He'. rewrite Hid in He'. exact (Hdone Hac e' He').
      * split; [intros x Hx; apply Hsub', Hsub1, Hx|].
        split.
        -- intros m Hm. apply in_app_or in Hm as [Hm|[<-|[]]].
           ++ intros Hc'. exact (Hext m Hm (Hsub1 _ Hc')).
           ++ rewrite Hid. exact Hnv.
        -- left. rewrite map_app. apply in_or_app. right. simpl. left. exact Hid.
Qed.

Lemma topo_loop_spec (g : RPG) (Hwf : wf_store g) (ns : list Node) :
  forall vis res,
    (forall n, In n ns -> hasNode g (id n) = true) ->
    topo_inv g [] vis res ->
    exists vis' res',
      fold_left (fun acc n => match acc with
                              | Some s => topo_visit g (topo_fuel g) (id n) s
                              | None => None
                              end) ns (Some (vis, res)) = Some (vis', res') /\
      topo_inv g [] vis' res' /\
      (forall x, In x (map id res) -> In x (map id res')) /\
      (forall n, In n ns -> In (id n) (map id res')).
Proof.
  induction ns as [|m ns IH]; intros vis res Hns Hinv.
  - exists vis, res. split; [reflexivity|]. split; [exact Hinv|]. split; [auto|]. intros n [].
  - destruct (topo_visit_spec g Hwf (topo_fuel g) [] (id m) vis res) as
        (vis1 & ext & Hrun & Hinv1 & _ & _ & Hdone).
    + apply Hns. left. reflexivity.
    + intros _ x [].
    + pose proof (unvisited_le g vis). unfold topo_fuel. lia.
    + exact Hinv.
    + destruct (IH vis1 (res ++ ext)%list) as (vis' & res' & Hrun' & Hinv' & Hkeep & Hall).
      * intros n Hn. apply Hns. right. exact Hn.
      * exact Hinv1.
      * exists vis', res'. split; [cbn [fold_left]; rewrite Hrun; exact Hrun'|].
        split; [exact Hinv'|]. split.
        -- intros x Hx. apply Hkeep. rewrite map_app. apply in_or_app. left. exact Hx.
        -- intros n [<-|Hn]; [|exact (Hall n Hn)].
           destruct Hdone as [Hd|[]]. exact (Hkeep _ Hd).
Qed.

Lemma getNodes_In (g : RPG) (n : Node) :
  wf_store g -> In n (getNodes g) <-> getNode g (id n) = Some n.
Proof.
  intros Hwf. pose proof Hwf as (Hnd & Hid & _). unfold getNodes, getNode. split.
  - intros H. apply in_map_iff in H as ([k n'] & <- & Hin). cbn [snd].
    rewrite (Hid k n' Hin). apply In_assoc; assumption.
  - intros H. apply assoc_In in H. apply in_map_iff. exists (id n, n). auto.
Qed.

(** X7. [getTopologicalOrder()] on a well-formed graph returns every node
    exactly once, also when the Dependency edges form a cycle; when they
    do not, the source of every Dependency edge comes before its target
    (the post-order is reversed, so a node precedes what it depends on). *)
Theorem getTopologicalOrder_sound (g : RPG) (Hwf : wf_store g) :
  exists order, getTopologicalOrder g = Some order /\
    Permutation order (getNodes g) /\
    (dep_acyclic g -> forall e, In e (getEdges g) -> etype e = Dependency ->
       exists l1 l2 nu nv, order = (l1 ++ nu :: l2)%list /\ id nu = source e /\
                           In nv l2 /\ id nv = target e).
Proof.
  destruct (topo_loop_spec g Hwf (getNodes g) [] []) as
      (vis & res & Hrun & Hinv & _ & Hall).
  - intros n Hn. apply getNodes_In in Hn; [|exact Hwf]. eapply hasNode_getNode; eauto.
  - split; [constructor|]. split; [intros n []|]. split; [intros x []|].
    split; [intros x []|]. intros _ l1 n l2 E. destruct l1; discriminate.
  - destruct Hinv as (Ha & Hb & _ & _ & He).
    assert (Hin : forall n, In n res <-> In n (getNodes g)).
    { intros n. rewrite getNodes_In by exact Hwf. split; [apply Hb|].
      intros Hn. assert (Hn' : In n (getNodes g)) by (apply getNodes_In; assumption).
      apply Hall in Hn'. apply in_map_iff in Hn' as (m & Hm & Hmin).
      pose proof (Hb m Hmin) as Hgm. rewrite Hm, Hn in Hgm. injection Hgm as ->. exact Hmin. }
    exists (rev res). unfold getTopologicalOrder. rewrite Hrun. split; [reflexivity|].
    split.
    + eapply Permutation_trans; [apply Permutation_sym, Permutation_rev|].
      apply NoDup_Permutation.
      * exact (NoDup_map_inv _ _ Ha).
      * pose proof Hwf as (Hnd & Hid & _).
        apply (NoDup_map_inv id). unfold getNodes. rewrite map_map.
        erewrite map_ext_in; [exact Hnd|]. intros [k n] Hkn. exact (Hid k n Hkn).
      * exact Hin.
    + intros Hac e HeE Hty.
      destruct (wf_edge_ends g e Hwf HeE) as (ns & nt & Hns & Hnt).
      pose proof (getNode_id g _ _ Hwf Hns) as Hids.
      pose proof (getNode_id g _ _ Hwf Hnt) as Hidt.
      assert (Hres : In ns res) by (apply Hin, getNodes_In; [exact Hwf|rewrite Hids; exact Hns]).
      apply in_split in Hres as (l1 & l2 & El).
      assert (Hout : In e (getOutEdges g (id ns) (Some Dependency))).
      { apply In_getOutEdges. rewrite Hids. repeat split; auto. eapply hasNode_getNode; eauto. }
      pose proof (He Hac l1 ns l2 El e Hout) as Ht.
      apply in_map_iff in Ht as (nv & Hnv & Hnvin).
      exists (rev l2), (rev l1), ns, nv. split.
      * rewrite El, rev_app_distr. simpl. rewrite <- app_assoc. reflexivity.
      * split; [exact Hids|]. split; [apply in_rev in Hnvin; exact Hnvin|exact Hnv].
Qed.

Lemma getTopologicalOrder_sound_witness :
  wf_store g_deps /\
  exists order, getTopologicalOrder g_deps = Some order /\ Permutation order (getNodes g_deps).
Proof.
  assert (H : wf_store g_deps) by (apply wf_storeb_wf; vm_compute; reflexivity).
  split; [exact H|].
  destruct (getTopologicalOrder_sound g_deps H) as (o & H1 & H2 & _).
  exists o. split; assumption.
Defined.

Lemma compile_literal (p : string) :
  literal_pattern p = true -> compile_pattern p = Some (map RLit (list_ascii_of_string p)).
Proof.
  induction p as [|c p IH]; simpl; [reflexivity|].
  destruct (regex_meta c), (Ascii.eqb c "*") eqn:E1, (Ascii.eqb c ".") eqn:E2;
    simpl; try discriminate.
  intros H. rewrite (IH H). reflexivity.
Qed.

Lemma match_here_lits (s hay : string) :
  match_here (map RLit (list_ascii_of_string s)) hay = String.prefix s hay.
Proof.
  revert hay. induction s as [|c s IH]; intros hay; [destruct hay; reflexivity|].
  destruct hay as [|c' hay]; [reflexivity|]. simpl.
  destruct (Ascii.eqb_spec c c') as [->|Hne].
  - rewrite IH. destruct (ascii_dec c' c'); [reflexivity|congruence].
  - destruct (ascii_dec c c'); [congruence|reflexivity].
Qed.

Lemma regex_test_lits (s hay : string) :
  regex_test (map RLit (list_ascii_of_string s)) hay = includes s hay.
Proof.
  induction hay as [|c hay IH]; simpl; rewrite match_here_lits; [reflexivity|].
  rewrite IH. reflexivity.
Qed.

Lemma match_here_star_end (t : list rtok) (s : string) :
  match_here (t ++ [RAnyStar]) s = match_here t s.
Proof.
  revert s. induction t as [|tk t IH]; intros s.
  - simpl. destruct s; reflexivity.
  - destruct tk as [c| |]; simpl.
    + destruct s; [reflexivity|]. rewrite IH. reflexivity.
    + destruct s; [reflexivity|]. rewrite IH. reflexivity.
    + induction s as [|c s IHs]; rewrite IH; [reflexivity|]. rewrite IHs. reflexivity.
Qed.

Lemma regex_test_star_end (t : list rtok) (s : string) :
  regex_test (t ++ [RAnyStar]) s = regex_test t s.
Proof.
  induction s as [|c s IH]; simpl; rewrite match_here_star_end; [reflexivity|].
  rewrite IH. reflexivity.
Qed.

Lemma compile_star_end (p : string) :
  compile_pattern (p ++ "*") = option_map (fun t => (t ++ [RAnyStar])%list) (compile_pattern p).
Proof.
  induction p as [|c p IH]; [reflexivity|]. simpl.
  destruct (regex_meta c); [reflexivity|]. rewrite IH.
  destruct (compile_pattern p); reflexivity.
Qed.

Lemma searchByPath_compiled (g : RPG) (p : string) (t : list rtok) :
  compile_pattern p = Some t -> searchByPath g p = Some (path_filter (regex_test t) g).
Proof. intros H. unfold searchByPath. rewrite H. reflexivity. Qed.

(** X8. [searchByPath(pattern)] with a pattern free of regular-expression
    syntax returns the LowLevel nodes, in insertion order, whose path is a
    non-empty string containing the pattern ([path.includes(pattern)]);
    the empty pattern returns every LowLevel node with a non-empty path. *)
Theorem searchByPath_literal (g : RPG) (p : string) (Hlit : literal_pattern p = true) :
  searchByPath g p = Some (path_filter (includes p) g).
Proof.
  rewrite (searchByPath_compiled g p _ (compile_literal p Hlit)). f_equal.
  unfold path_filter. apply filter_ext. intros n.
  destruct (metadata n) as [m|]; [|reflexivity].
  destruct (path m) as [q|]; [|reflexivity]. rewrite regex_test_lits. reflexivity.
Qed.

Lemma searchByPath_literal_witness :
  literal_pattern "utils/helper" = true /\
  searchByPath g_cross "utils/helper" = Some (path_filter (includes "utils/helper") g_cross).
Proof.
  split; [reflexivity|]. apply searchByPath_literal. reflexivity.
Defined.

(** X9. The regular expression of [searchByPath] is not anchored: a [*] added
    at the end of a (modelled) pattern never changes the nodes it
    returns. *)
Theorem searchByPath_trailing_star (g : RPG) (p : string)
    (Hp : compile_pattern p <> None) :
  searchByPath g (p ++ "*") = searchByPath g p.
Proof.
  destruct (compile_pattern p) as [t|] eqn:E; [|congruence].
  rewrite (searchByPath_compiled g p t E).
  rewrite (searchByPath_compiled g (p ++ "*") (t ++ [RAnyStar])%list)
    by (rewrite compile_star_end, E; reflexivity).
  f_equal. unfold path_filter. apply filter_ext. intros n.
  destruct (metadata n) as [m|]; [|reflexivity].
  destruct (path m) as [q|]; [|reflexivity]. rewrite regex_test_star_end. reflexivity.
Qed.

Lemma searchByPath_trailing_star_witness :
  compile_pattern "src/utils" <> None /\
  searchByPath g_cross ("src/utils" ++ "*") = searchByPath g_cross "src/utils".
Proof.
  split; [discriminate|]. apply searchByPath_trailing_star. discriminate.
Defined.

Lemma lower_char_idem (c : ascii) : lower_char (lower_char c) = lower_char c.
Proof.
  destruct c as [b0 b1 b2 b3 b4 b5 b6 b7].
  destruct b0, b1, b2, b3, b4, b5, b6, b7; vm_compute; reflexivity.
Qed.

Lemma toLowerCase_idem (s : string) : toLowerCase (toLowerCase s) = toLowerCase s.
Proof. induction s as [|c s IH]; simpl; [reflexivity|]. rewrite lower_char_idem, IH. reflexivity. Qed.

Lemma includes_empty (hay : string) : includes "" hay = true.
Proof. destruct hay; reflexivity. Qed.

(** X10. [searchByFeature(query)] lower-cases the query before matching, so a
    query and its lower-cased form return the same nodes; and the empty
    query returns every node, in insertion order. *)
Theorem searchByFeature_case_empty (g : RPG) (q : string) :
  searchByFeature g (toLowerCase q) = searchByFeature g q /\
  searchByFeature g "" = getNodes g.
Proof.
  split.
  - unfold searchByFeature. rewrite toLowerCase_idem. reflexivity.
  - unfold searchByFeature. simpl. apply filter_all_true.
    intros n _. rewrite includes_empty. reflexivity.
Qed.

Lemma feature_chain_ancestry (g : RPG) (n : Node) (l : list Node) :
  ancestry g n l -> forall fuel acc, (length l <= fuel)%nat ->
  feature_chain g fuel (Some n) acc
    = Some (rev (map (fun m => description (feature m)) l) ++ acc)%list.
Proof.
  induction 1 as [n Hp|n p l Hp Ha IH]; intros fuel acc Hf.
  - destruct fuel as [|f]; [simpl in Hf; lia|]. simpl. rewrite Hp. destruct f; reflexivity.
  - destruct fuel as [|f]; [simpl in Hf; lia|]. simpl. rewrite Hp.
    rewrite IH by (simpl in Hf; lia). rewrite <- app_assoc. reflexivity.
Qed.

(** X11. [getFeaturePaths(nodeId)] of a node whose parent chain ends (at a node
    without an incoming Functional edge) returns one string: the
    descriptions from the root of the chain down to the node, joined by
    [" / "]. *)
Theorem getFeaturePaths_ancestry (g : RPG) (nid : string) (n : Node) (l : list Node)
    (fuel : nat) (Hn : getNode g nid = Some n) (Ha : ancestry g n l)
    (Hf : (length l <= fuel)%nat) :
  getFeaturePaths g fuel nid
    = Some [String.concat " / " (rev (map (fun m => description (feature m)) l))].
Proof.
  unfold getFeaturePaths. rewrite Hn, (feature_chain_ancestry g n l Ha fuel [] Hf), app_nil_r.
  reflexivity.
Qed.

Lemma getFeaturePaths_ancestry_witness :
  getFeaturePaths g_deep 3 "E" = Some ["H / F / E"].
Proof.
  apply (getFeaturePaths_ancestry g_deep "E" (ll_node "E" "lib/b.ts")
           [ll_node "E" "lib/b.ts"; ll_node "F" "src/a.ts"; hl_node "H"] 3);
    [vm_compute; reflexivity| |simpl; lia].
  apply anc_step with (ll_node "F" "src/a.ts"); [vm_compute; reflexivity|].
  apply anc_step with (hl_node "H"); [vm_compute; reflexivity|].
  apply anc_root. vm_compute. reflexivity.
Defined.

Lemma feature_chain_cycle (g : RPG) (P : list Node)
    (HP : forall m, In m P -> exists m', getParent g (id m) = Some m' /\ In m' P) :
  forall fuel n acc, In n P -> feature_chain g fuel (Some n) acc = None.
Proof.
  induction fuel as [|f IH]; intros n acc Hn; [reflexivity|].
  simpl. destruct (HP n Hn) as (m' & Hp & Hm'). rewrite Hp. exact (IH m' _ Hm').
Qed.

(** X12. [getFeaturePaths] never returns when the node's parent chain runs into
    a cycle of Functional edges (a set of nodes each having its parent in
    the set): no number of iterations of its [while] loop suffices.
    [addEdge] does not refuse such cycles. *)
Theorem getFeaturePaths_cycle_diverges (g : RPG) (nid : string) (n : Node) (P : list Node)
    (Hn : getNode g nid = Some n) (HnP : In n P)
    (HP : forall m, In m P -> exists m', getParent g (id m) = Some m' /\ In m' P) :
  forall fuel, getFeaturePaths g fuel nid = None.
Proof.
  intros fuel. unfold getFeaturePaths. rewrite Hn, (feature_chain_cycle g P HP fuel n [] HnP).
  reflexivity.
Qed.

Lemma getFeaturePaths_cycle_diverges_witness :
  getFeaturePaths g_cycle 100 "a" = None.
Proof.
  apply (getFeaturePaths_cycle_diverges g_cycle "a" (hl_node "a") [hl_node "a"; hl_node "b"]);
    [vm_compute; reflexivity|left; reflexivity|].
  intros m [<-|[<-|[]]].
  - exists (hl_node "b"). split; [vm_compute; reflexivity|right; left; reflexivity].
  - exists (hl_node "a"). split; [vm_compute; reflexivity|left; reflexivity].
Defined.

(** X13. [FetchNode.get(options)] on a well-formed graph, when the parent chain
    of every requested node that exists ends within the loop bound,
    returns: as [entities] the requested nodes that exist, in request order
    (code entities first, then feature entities, repeats kept), each with
    its [sourceCode] and its feature path; and as [notFound] the requested
    ids with no node, in request order. *)
Theorem FetchNode_get_partition (g : RPG) (fuel : nat) (o : FetchOptions)
    (Hwf : wf_store g)
    (Hchains : forall i n, In i ((match codeEntities o with Some l => l | None => [] end) ++
                                 (match featureEntities o with Some l => l | None => [] end))%list ->
               getNode g i = Some n ->
               exists l, ancestry g n l /\ (length l <= fuel)%nat) :
  exists r, FetchNode_get g fuel o = Some r /\
    map ed_node (entities r)
      = flat_map (fun i => option_list (getNode g i))
                 ((match codeEntities o with Some l => l | None => [] end) ++
                  (match featureEntities o with Some l => l | None => [] end))%list /\
    (forall d, In d (entities r) ->
       ed_sourceCode d = sourceCode (ed_node d) /\
       getFeaturePaths g fuel (id (ed_node d)) = Some (ed_featurePaths d)) /\
    notFound r
      = filter (fun i => match getNode g i with Some _ => false | None => true end)
               ((match codeEntities o with Some l => l | None => [] end) ++
                (match featureEntities o with Some l => l | None => [] end))%list.
Proof.
  unfold FetchNode_get.
  set (allIds := ((match codeEntities o with Some l => l | None => [] end) ++
                  (match featureEntities o with Some l => l | None => [] end))%list) in *.
  assert (H : forall ids es nf,
    (forall i, In i ids -> In i allIds) ->
    (forall d, In d es -> ed_sourceCode d = sourceCode (ed_node d) /\
       getFeaturePaths g fuel (id (ed_node d)) = Some (ed_featurePaths d)) ->
    exists es' nf',
      fold_left
        (fun acc i =>
           match acc with
           | None => None
           | Some (es, nf) =>
               match getNode g i with
               | Some n =>
                   match getFeaturePaths g fuel (id n) with
                   | Some fp => Some ((es ++ [mkEntityDetail n (sourceCode n) fp])%list, nf)
                   | None => None
                   end
               | None => Some (es, (nf ++ [i])%list)
               end
           end) ids (Some (es, nf)) = Some (es', nf') /\
      map ed_node es' = (map ed_node es ++ flat_map (fun i => option_list (getNode g i)) ids)%list /\
      (forall d, In d es' -> ed_sourceCode d = sourceCode (ed_node d) /\
         getFeaturePaths g fuel (id (ed_node d)) = Some (ed_featurePaths d)) /\
      nf' = (nf ++ filter (fun i => match getNode g i with Some _ => false | None => true end) ids)%list).
  { induction ids as [|i ids IH]; intros es nf Hids Hes.
    - exists es, nf. rewrite !app_nil_r. auto.
    - cbn [fold_left]. destruct (getNode g i) as [n|] eqn:Hn.
      + destruct (Hchains i n (Hids i (or_introl eq_refl)) Hn) as (l & Ha & Hf).
        pose proof (getNode_id g i n Hwf Hn) as Hid.
        destruct (getFeaturePaths g fuel (id n)) as [fp|] eqn:Hfp.
        2: { unfold getFeaturePaths in Hfp. rewrite Hid, Hn in Hfp.
             rewrite (feature_chain_ancestry g n l Ha fuel [] Hf) in Hfp. discriminate. }
        destruct (IH (es ++ [mkEntityDetail n (sourceCode n) fp])%list nf) as
            (es' & nf' & Hrun & Hmap & Hall & Hnf).
        * intros j Hj. apply Hids. right. exact Hj.
        * intros d Hd. apply in_app_or in Hd as [Hd|[<-|[]]]; [exact (Hes d Hd)|].
          split; [reflexivity|exact Hfp].
        * exists es', nf'. split; [exact Hrun|]. split.
          -- rewrite Hmap, map_app, <- app_assoc. simpl. rewrite Hn. reflexivity.
          -- split; [exact Hall|]. rewrite Hnf. simpl. rewrite Hn. reflexivity.
      + destruct (IH es (nf ++ [i])%list) as (es' & nf' & Hrun & Hmap & Hall & Hnf).
        * intros j Hj. apply Hids. right. exact Hj.
        * exact Hes.
        * exists es', nf'. split; [exact Hrun|]. split; [rewrite Hmap; simpl; rewrite Hn; reflexivity|].
          split; [exact Hall|]. rewrite Hnf, <- app_assoc. simpl. rewrite Hn. reflexivity. }
  destruct (H allIds [] [] (fun i Hi => Hi) (fun d Hd => match Hd with end)) as
      (es & nf & Hrun & Hmap & Hall & Hnf).
  rewrite Hrun. exists (mkFetchResult es nf). split; [reflexivity|].
  split; [exact Hmap|]. split; [exact Hall|]. exact Hnf.
Qed.

Lemma FetchNode_get_partition_witness :
  exists r, FetchNode_get g_deep 3 (mkFetchOptions (Some ["E"; "nope"]) None) = Some r /\
    map ed_node (entities r) = [ll_node "E" "lib/b.ts"] /\ notFound r = ["nope"].
Proof.
  assert (Hwf : wf_store g_deep) by (apply wf_storeb_wf; vm_compute; reflexivity).
  destruct (FetchNode_get_partition g_deep 3 (mkFetchOptions (Some ["E"; "nope"]) None) Hwf)
    as (r & H1 & H2 & _ & H4).
  - intros i n Hi Hn. simpl in Hi. destruct Hi as [<-|[<-|[]]]; [|discriminate].
    vm_compute in Hn. injection Hn as <-.
    exists [ll_node "E" "lib/b.ts"; ll_node "F" "src/a.ts"; hl_node "H"].
    split; [|simpl; lia].
    apply anc_step with (ll_node "F" "src/a.ts"); [vm_compute; reflexivity|].
    apply anc_step with (hl_node "H"); [vm_compute; reflexivity|].
    apply anc_root. vm_compute. reflexivity.
  - exists r. split; [exact H1|]. split; [rewrite H2; vm_compute; reflexivity|].
    rewrite H4. vm_compute. reflexivity.
Defined.

Lemma lca_of_reaches (q : list string) :
  forall t p sub, lookup t q = Some sub -> marked sub = true -> (p ++ q)%list <> [] ->
  exists q1 q2, q = (q1 ++ q2)%list /\ (p ++ q1)%list <> [] /\
                In (join (p ++ q1)) (lca_of t p).
Proof.
  induction q as [|s q IH]; intros [ch b] p sub Hl Hm Hne.
  - injection Hl as <-. exists [], []. rewrite !app_nil_r in *.
    split; [reflexivity|]. split; [exact Hne|].
    destruct p as [|s p]; [congruence|]. simpl.
    unfold marked, isBranching, t_isTerminal, t_children in Hm. rewrite Hm. left. reflexivity.
  - simpl in Hl. destruct (assoc s ch) as [c|] eqn:Hc; [|discriminate].
    destruct (match p with [] => false | _ :: _ => (1 <? length ch)%nat || b end) eqn:Hmk.
    + exists [], (s :: q). rewrite app_nil_r. split; [reflexivity|].
      destruct p as [|s0 p]; [discriminate|]. split; [discriminate|].
      simpl. rewrite Hmk. left. reflexivity.
    + destruct (IH c (p ++ [s])%list sub Hl Hm) as (q1 & q2 & Eq & Hne1 & Hin).
      { destruct p; discriminate. }
      exists (s :: q1), q2. split; [rewrite Eq; reflexivity|].
      rewrite <- app_assoc in Hin. split; [destruct p; discriminate|].
      assert (Hbelow : In (join (p ++ s :: q1)) (flat_map (fun sc => lca_of (snd sc) (p ++ [fst sc])%list) ch)).
      { apply in_flat_map. exists (s, c). split; [apply assoc_In, Hc|exact Hin]. }
      destruct p as [|s0 p]; [exact Hbelow|]. simpl. simpl in Hmk. rewrite Hmk. exact Hbelow.
Qed.

(** X14. [computeLCA(dirPaths)] only returns ancestors of its inputs, and
    covers all of them: every output is, by ['/']-segments, a prefix of
    some input directory, and every input with at least one segment has an
    output that is a prefix of it. *)
Theorem computeLCA_sound_covering (D : list string) :
  (forall x, In x (computeLCA D) -> exists d r, In d D /\ segments d = (segments x ++ r)%list) /\
  (forall d, In d D -> segments d <> [] ->
     exists x r, In x (computeLCA D) /\ segments d = (segments x ++ r)%list).
Proof.
  destruct D as [|d1 [|d2 D]].
  - split; [intros x []|intros d []].
  - split.
    + intros x [<-|[]]. exists d1, []. split; [left; reflexivity|]. rewrite app_nil_r. reflexivity.
    + intros d [<-|[]] _. exists d1, []. split; [left; reflexivity|]. rewrite app_nil_r. reflexivity.
  - rewrite computeLCA_lca. split.
    + intros x Hx.
      destruct (lca_of_spec _ (wf_build _) _ _ Hx) as (q & sub & Hv & Ex & Hne & Hl & _ & _).
      simpl in Ex, Hne. rewrite Ex, segments_join by assumption.
      assert (Hq : lookup (build_trie (d1 :: d2 :: D)) q <> None) by congruence.
      unfold build_trie in Hq. apply build_node in Hq as [Hq|(d & r & Hd & Hs)].
      * apply lookup_new in Hq. congruence.
      * exists d, r. auto.
    + intros d Hd Hne.
      assert (Ht : term_at (build_trie (d1 :: d2 :: D)) (segments d)).
      { unfold build_trie. apply build_term. right. exists d. auto. }
      destruct Ht as (sub & Hl & Hterm).
      assert (Hm : marked sub = true) by (unfold marked; rewrite Hterm, orb_true_r; reflexivity).
      destruct (lca_of_reaches (segments d) _ [] sub Hl Hm Hne) as (q1 & q2 & Eq & Hne1 & Hin).
      simpl in Hin, Hne1. exists (join q1), q2. split; [exact Hin|].
      assert (Hv : Forall valid_seg q1).
      { pose proof (segments_valid d) as Hv. rewrite Eq in Hv.
        apply Forall_app in Hv as [Hv _]. exact Hv. }
      rewrite segments_join by assumption. exact Eq.
Qed.

Lemma match_all_lits (l s : string) :
  match_all (map RLit (list_ascii_of_string l)) s = String.eqb s l.
Proof.
  revert s. induction l as [|c l IH]; intros [|c' s]; try reflexivity.
  simpl. rewrite IH. destruct (Ascii.eqb_spec c c') as [->|Hne].
  - rewrite Ascii.eqb_refl. reflexivity.
  - rewrite (proj2 (Ascii.eqb_neq c' c)) by congruence. reflexivity.
Qed.

Lemma match_all_star (t : list rtok) (s : string) :
  match_all (RAnyStar :: t) s =
  match_all t s || match s with
                   | String c s' => negb (line_terminator c) && match_all (RAnyStar :: t) s'
                   | EmptyString => false
                   end.
Proof. destruct s; reflexivity. Qed.

Lemma match_all_star_lits (l s : string) :
  match_all (RAnyStar :: map RLit (list_ascii_of_string l)) s = true <->
  exists x, s = (x ++ l)%string /\ no_line_terminator x = true.
Proof.
  induction s as [|c s IH]; rewrite match_all_star, match_all_lits.
  - rewrite orb_false_r. split.
    + intros H. apply String.eqb_eq in H. exists EmptyString. auto.
    + intros ([|c x] & Hx & _); [simpl in Hx; subst; apply String.eqb_refl|discriminate].
  - rewrite orb_true_iff, andb_true_iff, IH, String.eqb_eq. split.
    + intros [<-|[Hc (x & -> & Hx)]].
      * exists EmptyString. auto.
      * exists (String c x). simpl. rewrite Hc, Hx. auto.
    + intros ([|c' x] & Hx & Hn).
      * left. exact Hx.
      * right. simpl in Hx, Hn. injection Hx as -> ->.
        apply andb_true_iff in Hn as [Hc Hn]. split; [exact Hc|]. exists x. auto.
Qed.

Lemma existsb_ext_pw {A} (f g : A -> bool) (l : list A) :
  (forall x, f x = g x) -> existsb f l = existsb g l.
Proof. intros H. induction l as [|a l IH]; simpl; [reflexivity|]. rewrite H, IH. reflexivity. Qed.

Lemma existsb_orb {A} (f g : A -> bool) (l : list A) :
  existsb (fun x => f x || g x) l = existsb f l || existsb g l.
Proof.
  induction l as [|a l IH]; simpl; [reflexivity|]. rewrite IH.
  destruct (f a), (g a), (existsb f l), (existsb g l); reflexivity.
Qed.

Lemma existsb_suffixes_nil (l : list string) :
  existsb (fun rest => matchSegments rest []) (suffixes l) = true.
Proof. induction l as [|a l IH]; [reflexivity|]. simpl. exact IH. Qed.

Lemma existsb_suffixes_head {A} (f : A -> bool) (l : list A) :
  existsb (fun rest => match rest with [] => false | a :: _ => f a end) (suffixes l)
  = existsb f l.
Proof. induction l as [|a l IH]; [reflexivity|]. simpl. rewrite IH. reflexivity. Qed.

Lemma existsb_suffixes_last {A} (f : A -> bool) (d : A) (l : list A) :
  existsb (fun rest => match rest with [a] => f a | _ => false end) (suffixes l)
  = match l with [] => false | _ :: _ => f (last l d) end.
Proof.
  induction l as [|a [|b l] IH]; simpl; [reflexivity|rewrite orb_false_r; reflexivity|].
  exact IH.
Qed.

Lemma split_slash_nonempty (s : string) : split_slash s <> [].
Proof.
  induction s as [|c s IH]; simpl; [discriminate|].
  destruct (Ascii.eqb c "/"); [discriminate|]. destruct (split_slash s); discriminate.
Qed.

Lemma globMatch_dir (f d : string)
    (Hc : compile_psegs (split_slash (norm_slashes ("**/" ++ d ++ "/**")))
          = Some [PGlobstar; PSeg (map RLit (list_ascii_of_string d)); PGlobstar]) :
  globMatch f ("**/" ++ d ++ "/**") =
  Some (existsb (fun s => String.eqb s d) (split_slash (norm_slashes f))).
Proof.
  unfold globMatch. rewrite Hc. f_equal. cbn [matchSegments].
  rewrite <- (existsb_suffixes_head (fun s => String.eqb s d)). apply existsb_ext_pw. intros [|a rest]; [reflexivity|].
  cbn [matchSegments]. rewrite match_all_lits, existsb_suffixes_nil, andb_true_r.
  reflexivity.
Qed.

Lemma globMatch_ext (f ext : string)
    (Hc : compile_psegs (split_slash (norm_slashes ("**/*" ++ ext)))
          = Some [PGlobstar; PSeg (RAnyStar :: map RLit (list_ascii_of_string ext))]) :
  globMatch f ("**/*" ++ ext) =
  Some (match_all (RAnyStar :: map RLit (list_ascii_of_string ext))
                  (last (split_slash (norm_slashes f)) "")).
Proof.
  unfold globMatch. rewrite Hc. f_equal. cbn [matchSegments].
  rewrite (existsb_ext_pw _ (fun rest => match rest with
                                         | [a] => match_all (RAnyStar :: map RLit (list_ascii_of_string ext)) a
                                         | _ => false end)).
  - rewrite (existsb_suffixes_last _ "").
    destruct (split_slash (norm_slashes f)) eqn:E; [|reflexivity].
    exfalso. exact (split_slash_nonempty _ E).
  - intros [|a [|b r]]; cbn [matchSegments]; rewrite ?andb_true_r, ?andb_false_r; reflexivity.
Qed.

(** X15. With the default [exclude] patterns of [discoverFiles()], a path is
    excluded exactly when one of its segments (after turning [\] into
    [/]) is [node_modules], [dist] or [.git]. *)
Theorem matchesPattern_defaultExclude (f : string) :
  matchesPattern f defaultExclude =
  Some (existsb (fun s => String.eqb s "node_modules" || String.eqb s "dist"
                          || String.eqb s ".git") (split_slash (norm_slashes f))).
Proof.
  assert (H1 : globMatch f "**/node_modules/**" =
               Some (existsb (fun s => String.eqb s "node_modules") (split_slash (norm_slashes f))))
    by (apply (globMatch_dir f "node_modules"); reflexivity).
  assert (H2 : globMatch f "**/dist/**" =
               Some (existsb (fun s => String.eqb s "dist") (split_slash (norm_slashes f))))
    by (apply (globMatch_dir f "dist"); reflexivity).
  assert (H3 : globMatch f "**/.git/**" =
               Some (existsb (fun s => String.eqb s ".git") (split_slash (norm_slashes f))))
    by (apply (globMatch_dir f ".git"); reflexivity).
  unfold defaultExclude, matchesPattern. rewrite H1, H2, H3, !existsb_orb.
  destruct (existsb (fun s => String.eqb s "node_modules") _),
           (existsb (fun s => String.eqb s "dist") _),
           (existsb (fun s => String.eqb s ".git") _); reflexivity.
Qed.

(** X16. With the default [include] patterns of [discoverFiles()], a path is
    included exactly when its last segment (after turning [\] into [/])
    ends in [.ts], [.js] or [.py] and has no line terminator before that
    ending; the matching never fails. *)
Theorem matchesPattern_defaultInclude (f : string) :
  exists b, matchesPattern f defaultInclude = Some b /\
    (b = true <-> exists x ext, In ext [".ts"; ".js"; ".py"] /\
       last (split_slash (norm_slashes f)) "" = (x ++ ext)%string /\
       no_line_terminator x = true).
Proof.
  set (L := last (split_slash (norm_slashes f)) "").
  assert (H1 : globMatch f "**/*.ts" =
               Some (match_all (RAnyStar :: map RLit (list_ascii_of_string ".ts")) L))
    by (apply (globMatch_ext f ".ts"); reflexivity).
  assert (H2 : globMatch f "**/*.js" =
               Some (match_all (RAnyStar :: map RLit (list_ascii_of_string ".js")) L))
    by (apply (globMatch_ext f ".js"); reflexivity).
  assert (H3 : globMatch f "**/*.py" =
               Some (match_all (RAnyStar :: map RLit (list_ascii_of_string ".py")) L))
    by (apply (globMatch_ext f ".py"); reflexivity).
  pose proof (match_all_star_lits ".ts" L) as E1.
  pose proof (match_all_star_lits ".js" L) as E2.
  pose proof (match_all_star_lits ".py" L) as E3.
  unfold defaultInclude, matchesPattern. rewrite H1, H2, H3.
  destruct (match_all (RAnyStar :: map RLit (list_ascii_of_string ".ts")) L),
           (match_all (RAnyStar :: map RLit (list_ascii_of_string ".js")) L),
           (match_all (RAnyStar :: map RLit (list_ascii_of_string ".py")) L);
    eexists; (split; [reflexivity|]); split; intros H; try discriminate;
    try (destruct (proj1 E1 eq_refl) as (x & Hx & Hn); exists x, ".ts"; simpl; auto; fail);
    try (destruct (proj1 E2 eq_refl) as (x & Hx & Hn); exists x, ".js"; simpl; auto; fail);
    try (destruct (proj1 E3 eq_refl) as (x & Hx & Hn); exists x, ".py"; simpl; auto; fail);
    try reflexivity;
    destruct H as (x & ext & [<-|[<-|[<-|[]]]] & Hx & Hn);
    [apply E1|apply E2|apply E3]; eauto.
Qed.

Lemma run_addNodes_ok (ns : list Node) (g : RPG) :
  NoDup (map fst (g_nodes g) ++ map id ns) ->
  run_all (map addNode ns) g =
  (Ok tt, mkRPG (g_nodes g ++ map (fun n => (id n, n)) ns) (g_edges g)).
Proof.
  revert g. induction ns as [|n ns IH]; intros [nodes edges] Hnd; cbn [g_nodes g_edges] in *.
  - rewrite app_nil_r. reflexivity.
  - cbn [map run_all]. unfold bind, addNode. cbn [g_nodes g_edges].
    assert (Hh : hasNode (mkRPG nodes edges) (id n) = false).
    { unfold hasNode. cbn [g_nodes]. rewrite assoc_none_of_keys; [reflexivity|].
      exact (NoDup_app_mid _ _ _ Hnd). }
    rewrite Hh, IH.
    + cbn [g_nodes g_edges]. rewrite <- app_assoc. reflexivity.
    + cbn [g_nodes]. rewrite map_app, <- app_assoc. exact Hnd.
Qed.

Lemma run_addNodes_throw (ns : list Node) (g : RPG) :
  NoDup (map fst (g_nodes g)) -> ~ NoDup (map fst (g_nodes g) ++ map id ns) ->
  exists msg g', run_all (map addNode ns) g = (Throw msg, g').
Proof.
  revert g. induction ns as [|n ns IH]; intros g Hk Hnd.
  - rewrite app_nil_r in Hnd. contradiction.
  - cbn [map run_all]. unfold bind.
    destruct (hasNode g (id n)) eqn:Hh.
    + unfold addNode at 1. rewrite Hh. eauto.
    + unfold addNode at 1. rewrite Hh.
      apply IH; cbn [g_nodes].
      * rewrite map_app. cbn [map fst]. apply NoDup_snoc; [exact Hk|].
        intros Hin. apply (proj2 (hasNode_keys g (id n))) in Hin. congruence.
      * rewrite map_app, <- app_assoc. exact Hnd.
Qed.

Lemma extractEntities_length (rel : string) (parsed : list CodeEntity) :
  length (extractEntities rel parsed) =
  S (length (filter (fun e => match mapEntityType (ce_type e) with
                              | Some _ => true | None => false end) parsed)).
Proof.
  unfold extractEntities. cbn [length]. f_equal.
  induction parsed as [|e parsed IH]; [reflexivity|]. cbn [flat_map filter].
  rewrite length_app, IH. unfold convertCodeEntity.
  destruct (mapEntityType (ce_type e)); reflexivity.
Qed.

(** X17. [encodeFile] adds one LowLevel node for the file and one for each
    function, class and method entity (variables and imports give none),
    all or nothing in the sense of ids: when the generated ids are
    distinct and new to the graph, the nodes are appended in order;
    otherwise [addNode] throws (leaving the nodes added before the
    repeated id in the graph). *)
Theorem encodeFile_adds_or_throws (feat : SemanticFeature) (rel : string)
    (parsed : list CodeEntity) (g : RPG) (Hkeys : NoDup (map fst (g_nodes g))) :
  length (extractEntities rel parsed) =
    S (length (filter (fun e => match mapEntityType (ce_type e) with
                                | Some _ => true | None => false end) parsed)) /\
  (NoDup (map fst (g_nodes g) ++ map ee_id (extractEntities rel parsed)) ->
   encodeFile feat rel parsed g =
   (Ok tt, mkRPG (g_nodes g ++ map (fun e => (ee_id e, lowLevelNodeOf feat e))
                                  (extractEntities rel parsed)) (g_edges g))) /\
  (~ NoDup (map fst (g_nodes g) ++ map ee_id (extractEntities rel parsed)) ->
   exists msg g', encodeFile feat rel parsed g = (Throw msg, g')).
Proof.
  assert (Hids : map id (map (lowLevelNodeOf feat) (extractEntities rel parsed))
                 = map ee_id (extractEntities rel parsed))
    by (rewrite map_map; reflexivity).
  unfold encodeFile. rewrite <- (map_map (lowLevelNodeOf feat) addNode).
  split; [apply extractEntities_length|]. split.
  - intros Hnd. rewrite run_addNodes_ok by (rewrite Hids; exact Hnd).
    rewrite map_map. reflexivity.
  - intros Hnd. apply run_addNodes_throw; [exact Hkeys|]. rewrite Hids. exact Hnd.
Qed.

Lemma encodeFile_adds_or_throws_witness :
  exists msg g',
    encodeFile (mkFeature "f" None None) "src/a.ts"
      [mkCodeEntity CE_function "run" 3 9; mkCodeEntity CE_function "run" 3 9] emptyRPG
    = (Throw msg, g').
Proof.
  apply (encodeFile_adds_or_throws (mkFeature "f" None None) "src/a.ts"
           [mkCodeEntity CE_function "run" 3 9; mkCodeEntity CE_function "run" 3 9] emptyRPG
           (NoDup_nil _)).
  intros H. apply NoDup_cons_iff in H as [_ H]. apply NoDup_cons_iff in H as [H _].
  apply H. left. reflexivity.
Defined.

Section TraverseEdges.
Variables (g : RPG) (et : ExploreEdgeType) (dir : Direction).

Let sel (T : list (string * Z)) :=
  flat_map (fun kd => map edge_triple (followed_edges g et dir (fst kd))) T.

Lemma perm_interleave3 {A : Type} (a x b y c z : list A) :
  Permutation (a ++ x ++ b ++ y ++ c ++ z) (a ++ b ++ c ++ x ++ y ++ z).
Proof.
  apply Permutation_app_head.
  eapply Permutation_trans; [apply Permutation_app_comm|]. rewrite <- !app_assoc.
  apply Permutation_app_head.
  eapply Permutation_trans; [apply Permutation_app_comm|]. rewrite <- !app_assoc.
  apply Permutation_app_head.
  rewrite (app_assoc x y z). apply Permutation_app_comm.
Qed.

Lemma edges_spec_refl (s : TState) : edges_spec g et dir s s.
Proof.
  exists [], []. rewrite !app_nil_r. repeat split; [intros kd []|constructor].
Qed.

Lemma edges_spec_trans (s1 s2 s3 : TState) :
  edges_spec g et dir s1 s2 -> edges_spec g et dir s2 s3 -> edges_spec g et dir s1 s3.
Proof.
  intros (E1 & T1 & He1 & Ht1 & Hn1 & Hp1 & Hperm1) (E2 & T2 & He2 & Ht2 & Hn2 & Hp2 & Hperm2).
  exists (E1 ++ E2)%list, (T1 ++ T2)%list.
  rewrite He2, Ht2, Hn2, He1, Ht1, Hn1, !app_assoc, flat_map_app, app_assoc.
  split; [reflexivity|]. split; [reflexivity|]. split; [reflexivity|]. split.
  - intros kd Hkd. apply in_app_or in Hkd as [H|H]; auto.
  - rewrite flat_map_app. apply Permutation_app; assumption.
Qed.

Lemma fold_follow_spec (F : string -> Z -> TState -> TState)
    (HF : forall x d s, edges_spec g et dir s (F x d s))
    (h : Edge -> string) (d : Z) (l : list Edge) :
  forall s, exists E T,
    t_edges (fold_left (fun st e => F (h e) d (push_edge e st)) l s) = (t_edges s ++ E)%list /\
    trace (fold_left (fun st e => F (h e) d (push_edge e st)) l s) = (trace s ++ T)%list /\
    t_nodes (fold_left (fun st e => F (h e) d (push_edge e st)) l s)
      = (t_nodes s ++ flat_map (fun kd => option_list (getNode g (fst kd))) T)%list /\
    (forall kd, In kd T -> getNode g (fst kd) <> None) /\
    Permutation E (map edge_triple l ++ sel T).
Proof.
  induction l as [|e l IH]; intros s.
  - exists [], []. rewrite !app_nil_r. repeat split; [intros kd []|constructor].
  - cbn [fold_left].
    destruct (HF (h e) d (push_edge e s)) as (E1 & T1 & He1 & Ht1 & Hn1 & Hp1 & Hperm1).
    destruct (IH (F (h e) d (push_edge e s))) as (E2 & T2 & He2 & Ht2 & Hn2 & Hp2 & Hperm2).
    exists (edge_triple e :: E1 ++ E2)%list, (T1 ++ T2)%list.
    rewrite He2, Ht2, Hn2, He1, Ht1, Hn1. cbn [push_edge t_edges trace t_nodes].
    split; [rewrite <- !app_assoc; reflexivity|].
    split; [rewrite <- app_assoc; reflexivity|].
    split; [rewrite flat_map_app, <- app_assoc; reflexivity|].
    split; [intros kd Hkd; apply in_app_or in Hkd as [H|H]; auto|].
    cbn [map app]. apply perm_skip. unfold sel. rewrite flat_map_app.
    eapply Permutation_trans; [apply Permutation_app; [exact Hperm1|exact Hperm2]|].
    fold (sel T1) (sel T2).
    rewrite app_assoc, (app_assoc (map edge_triple l)).
    apply Permutation_app_tail. apply Permutation_app_comm.
Qed.

Lemma fold_types_spec (F : string -> Z -> TState -> TState)
    (HF : forall x d s, edges_spec g et dir s (F x d s))
    (nid : string) (d : Z) (ts : list EdgeType) :
  forall s, exists E T,
    let s' := fold_left
      (fun st t =>
         let st :=
           if goes_out dir
           then fold_left (fun st e => F (target e) d (push_edge e st))
                          (getOutEdges g nid (Some t)) st
           else st in
         if goes_in dir
         then fold_left (fun st e => F (source e) d (push_edge e st))
                        (getInEdges g nid (Some t)) st
         else st) ts s in
    t_edges s' = (t_edges s ++ E)%list /\ trace s' = (trace s ++ T)%list /\
    t_nodes s' = (t_nodes s ++ flat_map (fun kd => option_list (getNode g (fst kd))) T)%list /\
    (forall kd, In kd T -> getNode g (fst kd) <> None) /\
    Permutation E (map edge_triple
                     (flat_map (fun t => ((if goes_out dir then getOutEdges g nid (Some t) else []) ++
                                          (if goes_in dir then getInEdges g nid (Some t) else []))%list) ts)
                   ++ sel T).
Proof.
  induction ts as [|t ts IH]; intros s.
  - exists [], []. cbn. rewrite !app_nil_r. repeat split; [intros kd []|constructor].
  - cbn [fold_left]. cbv zeta. cbv zeta in IH.
    set (s1 := if goes_out dir
               then fold_left (fun st e => F (target e) d (push_edge e st))
                              (getOutEdges g nid (Some t)) s
               else s).
    assert (H1 : exists E T,
      t_edges s1 = (t_edges s ++ E)%list /\ trace s1 = (trace s ++ T)%list /\
      t_nodes s1 = (t_nodes s ++ flat_map (fun kd => option_list (getNode g (fst kd))) T)%list /\
      (forall kd, In kd T -> getNode g (fst kd) <> None) /\
      Permutation E (map edge_triple (if goes_out dir then getOutEdges g nid (Some t) else []) ++ sel T)).
    { unfold s1. destruct (goes_out dir); [apply fold_follow_spec; exact HF|].
      exists [], []. rewrite !app_nil_r. repeat split; [intros kd []|constructor]. }
    set (s2 := if goes_in dir
               then fold_left (fun st e => F (source e) d (push_edge e st))
                              (getInEdges g nid (Some t)) s1
               else s1).
    assert (H2 : exists E T,
      t_edges s2 = (t_edges s1 ++ E)%list /\ trace s2 = (trace s1 ++ T)%list /\
      t_nodes s2 = (t_nodes s1 ++ flat_map (fun kd => option_list (getNode g (fst kd))) T)%list /\
      (forall kd, In kd T -> getNode g (fst kd) <> None) /\
      Permutation E (map edge_triple (if goes_in dir then getInEdges g nid (Some t) else []) ++ sel T)).
    { unfold s2. destruct (goes_in dir); [apply fold_follow_spec; exact HF|].
      exists [], []. rewrite !app_nil_r. repeat split; [intros kd []|constructor]. }
    destruct H1 as (E1 & T1 & He1 & Ht1 & Hn1 & Hp1 & Hperm1).
    destruct H2 as (E2 & T2 & He2 & Ht2 & Hn2 & Hp2 & Hperm2).
    destruct (IH s2) as (E3 & T3 & He3 & Ht3 & Hn3 & Hp3 & Hperm3).
    exists (E1 ++ E2 ++ E3)%list, (T1 ++ T2 ++ T3)%list.
    rewrite He3, Ht3, Hn3, He2, Ht2, Hn2, He1, Ht1, Hn1, !flat_map_app, <- !app_assoc.
    split; [reflexivity|]. split; [reflexivity|]. split; [reflexivity|].
    split; [intros kd Hkd; apply in_app_or in Hkd as [H|H]; [auto|];
            apply in_app_or in H as [H|H]; auto|].
    cbn [flat_map]. rewrite !map_app. unfold sel. rewrite !flat_map_app. fold (sel T1) (sel T2) (sel T3).
    eapply Permutation_trans.
    { apply Permutation_app; [exact Hperm1|]. apply Permutation_app; [exact Hperm2|exact Hperm3]. }
    rewrite <- !app_assoc. apply perm_interleave3.
Qed.

Lemma explore_edges_spec (maxD : Z) (k : nat) :
  forall nid depth s, edges_spec g et dir s (explore g et dir maxD k nid depth s).
Proof.
  induction k as [|k IH]; intros nid depth s; [apply edges_spec_refl|]. cbn [explore].
  destruct ((maxD <? depth)%Z || existsb (String.eqb nid) (visited s)); [apply edges_spec_refl|].
  destruct (getNode g nid) as [n|] eqn:Hn; [|exists [], []; rewrite !app_nil_r; cbn;
                                             repeat split; [intros kd []|constructor]].
  destruct (fold_types_spec (fun x d s => explore g et dir maxD k x d s)
              (fun x d s => IH x d s) nid (depth + 1)%Z (getEdgeTypes et)
              (push_node nid n depth (visit nid s))) as (E & T & He & Ht & Hnn & Hp & Hperm).
  exists E, ((nid, depth) :: T). cbv zeta in He, Ht, Hnn.
  rewrite He, Ht, Hnn. cbn [push_node visit t_edges trace t_nodes].
  split; [reflexivity|]. split; [rewrite <- app_assoc; reflexivity|].
  split; [cbn [flat_map fst]; rewrite Hn, <- app_assoc; reflexivity|].
  split; [intros kd [<-|H]; [cbn; congruence|auto]|].
  exact Hperm.
Qed.
End TraverseEdges.

(** X18. The [edges] of [traverse] are, up to order, the followed edges of the
    returned nodes: for each returned node, every edge of the selected
    types leaving it (directions [out], [both]) and entering it
    ([in], [both]), its far end reported or not; an edge between two
    returned nodes is listed twice with direction [both]. *)
Theorem traverse_edges_of_nodes (g : RPG) (o : ExploreOptions) (Hwf : wf_store g) :
  Permutation (r_edges (traverse g o))
    (flat_map (fun n => map edge_triple
                          (followed_edges g (edgeType o) (opt_direction o) (id n)))
              (r_nodes (traverse g o))).
Proof.
  unfold traverse, traverse_state. cbn [r_edges r_nodes].
  destruct (explore_edges_spec g (edgeType o) (opt_direction o) (opt_maxDepth o)
              (explore_fuel (opt_maxDepth o)) (startNode o) 0%Z init_state)
    as (E & T & He & _ & Hn & Hp & Hperm).
  rewrite He, Hn. cbn [t_edges t_nodes init_state app].
  eapply Permutation_trans; [exact Hperm|]. clear He Hn Hperm.
  induction T as [|[k d] T IH]; [constructor|].
  cbn [flat_map fst]. rewrite flat_map_app.
  assert (Hk : getNode g k <> None) by (apply (Hp (k, d)); left; reflexivity).
  destruct (getNode g k) as [n|] eqn:Hgk; [|congruence].
  cbn [option_list flat_map]. rewrite app_nil_r, (getNode_id g k n Hwf Hgk).
  apply Permutation_app_head. apply IH. intros kd Hkd. apply Hp. right. exact Hkd.
Qed.

Lemma traverse_edges_of_nodes_witness :
  Permutation (r_edges (traverse g_cross (mkExploreOptions "domain:CrossCutting" EE_functional (Some 0%Z) None)))
    (flat_map (fun n => map edge_triple (followed_edges g_cross EE_functional D_out (id n)))
              (r_nodes (traverse g_cross (mkExploreOptions "domain:CrossCutting" EE_functional (Some 0%Z) None)))).
Proof.
  apply (traverse_edges_of_nodes g_cross (mkExploreOptions "domain:CrossCutting" EE_functional (Some 0%Z) None)).
  apply wf_storeb_wf. vm_compute. reflexivity.
Defined.

(** X19. [query] in mode [features] never fails and ignores [filePattern]:
    its nodes are the feature hits of the terms, each id once in
    first-seen order, and [totalMatches] is their number; in mode
    [snippets] it ignores [featureTerms]. *)
Theorem query_mode_ignores_other_options (g : RPG) :
  (forall ts fp fp',
     query g (mkSearchOptions SM_features ts fp) = query g (mkSearchOptions SM_features ts fp') /\
     exists r, query g (mkSearchOptions SM_features ts fp) = Some r /\
       map id (sr_nodes r)
         = first_seen (map id (match ts with
                               | Some ts => flat_map (searchByFeature g) ts
                               | None => []
                               end)) /\
       totalMatches r = length (sr_nodes r) /\ sr_mode r = SM_features) /\
  (forall ts ts' fp,
     query g (mkSearchOptions SM_snippets ts fp) = query g (mkSearchOptions SM_snippets ts' fp)).
Proof.
  split.
  - intros ts fp fp'. unfold query; cbn [mode featureTerms filePattern runs_features runs_snippets].
    split; [reflexivity|]. eexists; split; [reflexivity|]. cbn [sr_nodes totalMatches sr_mode].
    rewrite app_nil_r, dedupe_by_id_ids. repeat split.
  - intros ts ts' fp. unfold query; cbn [mode featureTerms filePattern runs_features runs_snippets].
    reflexivity.
Qed.

Lemma string_length_append (s1 s2 : string) :
  String.length (s1 ++ s2) = String.length s1 + String.length s2.
Proof. induction s1 as [|c s1 IH]; simpl; [reflexivity|]. rewrite IH. reflexivity. Qed.

Lemma substring_0_append (d s : string) :
  substring 0 (String.length d) (d ++ s) = d.
Proof. induction d as [|c d IH]; simpl; [destruct s; reflexivity|]. rewrite IH. reflexivity. Qed.

Lemma slash_free_get (f : string) (m : nat) (c : ascii) :
  slash_free f = true -> String.get m f = Some c -> Ascii.eqb c "/"%char = false.
Proof.
  revert m. induction f as [|c' f IH]; intros m Hs Hg; [discriminate|].
  cbn [slash_free] in Hs. apply andb_prop in Hs as [Hc Hs].
  destruct m as [|m]; cbn [String.get] in Hg.
  - injection Hg as <-. apply negb_true_iff. exact Hc.
  - exact (IH m Hs Hg).
Qed.

Lemma get_some_lt (f : string) (m : nat) :
  m < String.length f -> exists c, String.get m f = Some c.
Proof.
  revert m. induction f as [|c f IH]; intros m Hm; cbn in Hm; [lia|].
  destruct m as [|m]; cbn [String.get]; [eauto|]. apply IH. lia.
Qed.

Lemma dirname_scan_dir (d f : string) (Hd : 1 <= String.length d)
    (Hs : slash_free f = true) (k : nat) :
  forall b, k <= String.length f -> (k = 0 -> b = false) ->
  dirname_scan (d ++ String "/" f) (String.length d + k) b = Some (String.length d).
Proof.
  induction k as [|k IH]; intros b Hk Hb.
  - rewrite (Hb eq_refl), Nat.add_0_r.
    destruct (String.length d) as [|j] eqn:El; [lia|]. cbn [dirname_scan].
    rewrite <- El, <- (Nat.add_0_l (String.length d)), <- append_correct2. reflexivity.
  - rewrite Nat.add_succ_r. cbn [dirname_scan].
    replace (String.get (S (String.length d + k)) (d ++ String "/" f))
      with (String.get (S k + String.length d) (d ++ String "/" f)) by (f_equal; lia).
    rewrite <- append_correct2. cbn [String.get].
    destruct (get_some_lt f k ltac:(lia)) as [c Hc]. rewrite Hc. cbn [is_slash].
    rewrite (slash_free_get f k c Hs Hc).
    apply IH; [lia|reflexivity].
Qed.

(** X20. [path.dirname] of [dir + '/' + file], a non-empty file name free of
    ['/'], is [dir] (for a non-empty [dir] other than ["/"]): the
    directory [propagate] records for a LowLevel node at that path. *)
Theorem dirname_dir_file (d f : string) (Hd : d <> EmptyString) (Hr : d <> "/"%string)
    (Hf : f <> EmptyString) (Hs : slash_free f = true) :
  dirname (d ++ String "/" f) = d.
Proof.
  assert (HL : 1 <= String.length d) by (destruct d; cbn; [congruence|lia]).
  assert (Hsub := substring_0_append d (String "/" f)).
  assert (Hget := append_correct1 d (String "/" f) 0 ltac:(lia)).
  assert (Hscan : dirname_scan (d ++ String "/" f)
                    (String.length (d ++ String "/" f) - 1) true = Some (String.length d)).
  { rewrite string_length_append. cbn [String.length].
    destruct f as [|c f']; [congruence|]. cbn [String.length].
    replace (String.length d + S (S (String.length f')) - 1)
      with (String.length d + S (String.length f')) by lia.
    apply dirname_scan_dir; [exact HL|exact Hs|cbn; lia|discriminate]. }
  assert (Hroot : is_slash (String.get 0 d) && Nat.eqb (String.length d) 1 = false).
  { destruct d as [|c [|c' d']]; [congruence| |cbn; apply andb_false_r].
    cbn. destruct (Ascii.eqb c "/"%char) eqn:Ec; [|reflexivity].
    apply Ascii.eqb_eq in Ec. subst c. congruence. }
  remember (d ++ String "/" f)%string as p eqn:Ep.
  unfold dirname. destruct p as [|a s]; [destruct d; discriminate|].
  cbv zeta. rewrite Hscan, <- Hget, Hroot. exact Hsub.
Qed.

Lemma dirname_dir_file_witness :
  dirname ("src/tools" ++ String "/" "fetch.ts") = "src/tools".
Proof.
  apply dirname_dir_file; [discriminate|discriminate|discriminate|reflexivity].
Defined.
